(** * Playlist traversal, volume handling and frequency sampling of the
      browser audio player, embedded from the JavaScript sources.

    - [AudioPlayer]  : src/components/AudioPlayer.jsx
                       (handlePrevious, handleNext, handleVolumeChange, toggleMute)
    - [App]          : the application shell (playTrack, togglePlayPause,
                       skipTrack and the audio element's onEnded handler)
    - [AudioUtils]   : src/utils/audioUtils.js (getFrequencyData) and the
                       useAudioContext hook (setVolume, getFrequencyBins)
    - [AudioPlayerControls], [AppControls] : the remaining handlers of the
                       component and of the shell (seek, play/pause, time
                       display, removeTrack)
    - [AudioContextHook] : the other functions of the useAudioContext hook
    - [TrackStore]   : the localStorage functions of audioUtils.js
    - [AudioPlayerEffects] : the effect of AudioPlayer.jsx that registers
                       the 'ended' listener, with the repeat and shuffle
                       buttons

    Conventions of the embedding.
    - JavaScript numbers are exact rationals extended with the IEEE special
      values ([JsNum]); rounding of finite results is not modelled and zero
      is unsigned.
    - Array indices are [Z], because [findIndex] answers [-1]; reading an
      array out of range yields [None] (JavaScript's [undefined]).
    - React state setters called by a handler only take effect after the
      handler has returned, so a handler reads the state it was created with.
      No handler below reads a piece of state after writing it, hence plain
      state passing agrees with that discipline.
    - [Math.random()] is an oracle: the value it would return is an argument. *)

From Stdlib Require Import ZArith QArith Qround Qminmax List String Bool Lia.
From Stdlib Require Strings.Byte.
Import ListNotations.

Local Open Scope Z_scope.

(* ------------------------------------------------------------------ *)
(** ** JavaScript values used by the player *)

(** A number: a finite value or one of the special values. *)
Inductive JsNum : Type :=
| Fin (q : Q)
| PosInf
| NegInf
| NaN.

(** [a / b]. *)
Definition js_div (a b : JsNum) : JsNum :=
  match a, b with
  | NaN, _ | _, NaN => NaN
  | Fin p, Fin q =>
      if Qeq_bool q 0
      then match (p ?= 0)%Q with Eq => NaN | Gt => PosInf | Lt => NegInf end
      else Fin (p / q)
  | Fin _, PosInf | Fin _, NegInf => Fin 0
  | PosInf, Fin q => if Qle_bool 0 q then PosInf else NegInf
  | NegInf, Fin q => if Qle_bool 0 q then NegInf else PosInf
  | PosInf, _ | NegInf, _ => NaN
  end.

(** [Math.min(a, b)]. *)
Definition Math_min (a b : JsNum) : JsNum :=
  match a, b with
  | NaN, _ | _, NaN => NaN
  | NegInf, _ | _, NegInf => NegInf
  | PosInf, x | x, PosInf => x
  | Fin p, Fin q => Fin (Qmin p q)
  end.

(** [Math.max(a, b)]. *)
Definition Math_max (a b : JsNum) : JsNum :=
  match a, b with
  | NaN, _ | _, NaN => NaN
  | PosInf, _ | _, PosInf => PosInf
  | NegInf, x | x, NegInf => x
  | Fin p, Fin q => Fin (Qmax p q)
  end.

(** [a === b] on numbers. *)
Definition num_strict_eq (a b : JsNum) : bool :=
  match a, b with
  | Fin p, Fin q => Qeq_bool p q
  | PosInf, PosInf | NegInf, NegInf => true
  | _, _ => false
  end.

(** The value of a track's [id] property: numbers and strings are what the
    uploaders produce; [IdUndefined] is what [currentTrack?.id] yields when
    there is no current track. *)
Inductive JsId : Type :=
| IdUndefined
| IdNum (n : Z)
| IdStr (s : string).

(** [a === b] on identifiers. *)
Definition id_strict_eq (a b : JsId) : bool :=
  match a, b with
  | IdUndefined, IdUndefined => true
  | IdNum m, IdNum n => Z.eqb m n
  | IdStr s, IdStr t => String.eqb s t
  | _, _ => false
  end.

Record Track : Type := mkTrack {
  id : JsId;
  title : string;
  url : string
}.

(** [currentTrack?.id] *)
Definition optional_id (t : option Track) : JsId :=
  match t with
  | Some tr => id tr
  | None => IdUndefined
  end.

Inductive JsError : Type :=
| TypeError
| IndexSizeError.

(** Outcome of running a handler: it returns, or throws after having
    performed the effects recorded in the state it carries. *)
Inductive Result (S : Type) : Type :=
| Ok (s : S)
| Throw (e : JsError) (s : S).
Arguments Ok {S} s.
Arguments Throw {S} e s.

(* ------------------------------------------------------------------ *)
(** ** Arrays *)

Section Arrays.
Context {A : Type}.

(** [arr.length] *)
Definition array_length (arr : list A) : Z := Z.of_nat (List.length arr).

(** [arr[i]] *)
Definition array_get (arr : list A) (i : Z) : option A :=
  if i <? 0 then None else nth_error arr (Z.to_nat i).

Fixpoint findIndex_from (pred : A -> bool) (arr : list A) (i : Z) : Z :=
  match arr with
  | [] => -1
  | x :: rest => if pred x then i else findIndex_from pred rest (i + 1)
  end.

(** [arr.findIndex(pred)] *)
Definition findIndex (pred : A -> bool) (arr : list A) : Z :=
  findIndex_from pred arr 0.
End Arrays.

(* ------------------------------------------------------------------ *)
(** ** The media element behind [audioRef.current] *)

Record HTMLAudioElement : Type := mkAudio {
  a_src : string;
  a_currentTime : Q;
  a_volume : Q;
  a_paused : bool;
  a_ended : bool
}.

(** [audio.currentTime = t]: a seek; the element is no longer at its end. *)
Definition audio_set_currentTime (t : Q) (a : HTMLAudioElement) : HTMLAudioElement :=
  {| a_src := a_src a; a_currentTime := t; a_volume := a_volume a;
     a_paused := a_paused a; a_ended := false |}.

(** [audio.play()]: when playback has ended the element first seeks to the
    earliest position, then it stops being paused. *)
Definition audio_play (a : HTMLAudioElement) : HTMLAudioElement :=
  {| a_src := a_src a;
     a_currentTime := if a_ended a then 0%Q else a_currentTime a;
     a_volume := a_volume a; a_paused := false; a_ended := false |}.

(** [audio.pause()] *)
Definition audio_pause (a : HTMLAudioElement) : HTMLAudioElement :=
  {| a_src := a_src a; a_currentTime := a_currentTime a;
     a_volume := a_volume a; a_paused := true; a_ended := a_ended a |}.

(** [audio.src = u; audio.load()]: the element is reset on the new source. *)
Definition audio_load (u : string) (a : HTMLAudioElement) : HTMLAudioElement :=
  {| a_src := u; a_currentTime := 0%Q; a_volume := a_volume a;
     a_paused := true; a_ended := false |}.

(** [audio.volume = v]: a value that is not finite is a [TypeError], a
    finite value outside [0,1] an [IndexSizeError]. *)
Definition audio_set_volume (v : JsNum) (a : HTMLAudioElement)
  : Result HTMLAudioElement :=
  match v with
  | Fin q =>
      if Qle_bool 0 q && Qle_bool q 1
      then Ok {| a_src := a_src a; a_currentTime := a_currentTime a;
                 a_volume := q; a_paused := a_paused a; a_ended := a_ended a |}
      else Throw IndexSizeError a
  | _ => Throw TypeError a
  end.

(* ------------------------------------------------------------------ *)
(** ** src/components/AudioPlayer.jsx *)

Module AudioPlayer.

Inductive RepeatMode : Type := off | one | all.

Definition RepeatMode_eqb (a b : RepeatMode) : bool :=
  match a, b with
  | off, off | one, one | all, all => true
  | _, _ => false
  end.

(** The component's props.  [onTrackChange] tells whether the parent
    supplied the callback; what the callback receives is logged in
    [trackChanges] below. *)
Record Props : Type := mkProps {
  currentTrack : option Track;
  playlist : list Track;
  onTrackChange : bool
}.

(** The component's [useState] cells touched by the handlers, the
    [audioRef] ref, and the log of arguments handed to [onTrackChange]
    (oldest first; [None] is [undefined]). *)
Record State : Type := mkState {
  isPlaying : bool;
  currentTime : Q;
  duration : Q;
  volume : JsNum;
  isMuted : bool;
  isShuffled : bool;
  repeatMode : RepeatMode;
  audioRef : option HTMLAudioElement;
  trackChanges : list (option Track)
}.

Definition setIsPlaying (b : bool) (s : State) : State :=
  {| isPlaying := b; currentTime := currentTime s; duration := duration s;
     volume := volume s; isMuted := isMuted s; isShuffled := isShuffled s;
     repeatMode := repeatMode s; audioRef := audioRef s;
     trackChanges := trackChanges s |}.

Definition setVolume (v : JsNum) (s : State) : State :=
  {| isPlaying := isPlaying s; currentTime := currentTime s;
     duration := duration s; volume := v; isMuted := isMuted s;
     isShuffled := isShuffled s; repeatMode := repeatMode s;
     audioRef := audioRef s; trackChanges := trackChanges s |}.

Definition setIsMuted (b : bool) (s : State) : State :=
  {| isPlaying := isPlaying s; currentTime := currentTime s;
     duration := duration s; volume := volume s; isMuted := b;
     isShuffled := isShuffled s; repeatMode := repeatMode s;
     audioRef := audioRef s; trackChanges := trackChanges s |}.

(** Write through [audioRef.current]. *)
Definition set_audio (a : HTMLAudioElement) (s : State) : State :=
  {| isPlaying := isPlaying s; currentTime := currentTime s;
     duration := duration s; volume := volume s; isMuted := isMuted s;
     isShuffled := isShuffled s; repeatMode := repeatMode s;
     audioRef := Some a; trackChanges := trackChanges s |}.

(** [onTrackChange(arg)] *)
Definition call_onTrackChange (arg : option Track) (s : State) : State :=
  {| isPlaying := isPlaying s; currentTime := currentTime s;
     duration := duration s; volume := volume s; isMuted := isMuted s;
     isShuffled := isShuffled s; repeatMode := repeatMode s;
     audioRef := audioRef s; trackChanges := trackChanges s ++ [arg] |}.

(** [playlist.findIndex(track => track.id === currentTrack?.id)] *)
Definition currentIndex (p : Props) : Z :=
  findIndex (fun track => id_strict_eq (id track) (optional_id (currentTrack p)))
            (playlist p).

(** [!playlist.length || !onTrackChange] *)
Definition nothing_to_do (p : Props) : bool :=
  (array_length (playlist p) =? 0) || negb (onTrackChange p).

Definition handlePrevious (p : Props) (s : State) : Result State :=
  if nothing_to_do p then Ok s
  else
    let currentIndex := currentIndex p in
    let previousIndex :=
      if currentIndex >? 0 then currentIndex - 1
      else array_length (playlist p) - 1 in
    Ok (call_onTrackChange (array_get (playlist p) previousIndex) s).

(** [handleNext] serves the "next" button and, through [handleEnded], the
    element's [ended] event.  [p] and [s] are the props and state this
    [handleNext] closes over (the [ended] listener is registered by an
    effect that depends on [currentTrack] only, so it keeps the
    [handleNext] of the render in which the track last changed); [rnd] is
    what [Math.random()] returns if it is called. *)
Definition handleNext (p : Props) (rnd : Q) (s : State) : Result State :=
  if nothing_to_do p then Ok s
  else if RepeatMode_eqb (repeatMode s) one then
    match audioRef s with
    | None => Throw TypeError s
    | Some a => Ok (set_audio (audio_play (audio_set_currentTime 0 a)) s)
    end
  else
    let currentIndex := currentIndex p in
    let nextIndex :=
      if isShuffled s
      then Qfloor (rnd * inject_Z (array_length (playlist p)))
      else if currentIndex <? array_length (playlist p) - 1
           then currentIndex + 1 else 0 in
    if RepeatMode_eqb (repeatMode s) off
       && (currentIndex =? array_length (playlist p) - 1)
    then Ok (setIsPlaying false s)
    else Ok (call_onTrackChange (array_get (playlist p) nextIndex) s).

(** The click on the volume bar: [e.clientX] and the bar's bounding
    rectangle. *)
Record MouseEvent : Type := mkMouseEvent {
  clientX : Q;
  rect_left : Q;
  rect_width : Q
}.

Definition handleVolumeChange (e : MouseEvent) (s : State) : Result State :=
  let percent := js_div (Fin (clientX e - rect_left e)) (Fin (rect_width e)) in
  let newVolume := Math_max (Fin 0) (Math_min (Fin 1) percent) in
  let s1 := setVolume newVolume s in
  match audioRef s1 with
  | None => Ok (setIsMuted (num_strict_eq newVolume (Fin 0)) s1)
  | Some a =>
      match audio_set_volume newVolume a with
      | Ok a' => Ok (setIsMuted (num_strict_eq newVolume (Fin 0)) (set_audio a' s1))
      | Throw err _ => Throw err s1
      end
  end.

Definition toggleMute (s : State) : Result State :=
  match audioRef s with
  | None => Ok s
  | Some a =>
      if isMuted s then
        match audio_set_volume (volume s) a with
        | Ok a' => Ok (setIsMuted false (set_audio a' s))
        | Throw err _ => Throw err s
        end
      else
        match audio_set_volume (Fin 0) a with
        | Ok a' => Ok (setIsMuted true (set_audio a' s))
        | Throw err _ => Throw err s
        end
  end.

End AudioPlayer.

(* ------------------------------------------------------------------ *)
(** ** The application shell (App component) *)

Module App.

Inductive RepeatMode : Type := none | one | all.

Definition RepeatMode_eqb (a b : RepeatMode) : bool :=
  match a, b with
  | none, none | one, one | all, all => true
  | _, _ => false
  end.

(** The [useState] cells the traversal code reads or writes, and
    [audioRef.current]. *)
Record State : Type := mkState {
  tracks : list Track;
  currentTrack : option Track;
  isPlaying : bool;
  currentTime : Q;
  isShuffling : bool;
  repeatMode : RepeatMode;
  audioRef : option HTMLAudioElement
}.

Definition setIsPlaying (b : bool) (s : State) : State :=
  {| tracks := tracks s; currentTrack := currentTrack s; isPlaying := b;
     currentTime := currentTime s; isShuffling := isShuffling s;
     repeatMode := repeatMode s; audioRef := audioRef s |}.

Definition setCurrentTrack (t : option Track) (s : State) : State :=
  {| tracks := tracks s; currentTrack := t; isPlaying := isPlaying s;
     currentTime := currentTime s; isShuffling := isShuffling s;
     repeatMode := repeatMode s; audioRef := audioRef s |}.

Definition setCurrentTime (t : Q) (s : State) : State :=
  {| tracks := tracks s; currentTrack := currentTrack s;
     isPlaying := isPlaying s; currentTime := t;
     isShuffling := isShuffling s; repeatMode := repeatMode s;
     audioRef := audioRef s |}.

(** Apply [f] to the element behind [audioRef.current], if there is one. *)
Definition with_audio (f : HTMLAudioElement -> HTMLAudioElement) (s : State)
  : State :=
  {| tracks := tracks s; currentTrack := currentTrack s;
     isPlaying := isPlaying s; currentTime := currentTime s;
     isShuffling := isShuffling s; repeatMode := repeatMode s;
     audioRef := option_map f (audioRef s) |}.

Definition togglePlayPause (s : State) : State :=
  match audioRef s, currentTrack s with
  | None, _ | _, None => s
  | Some _, Some _ =>
      if isPlaying s
      then setIsPlaying false (with_audio audio_pause s)
      else setIsPlaying true (with_audio audio_play s)
  end.

(** [track] is a JavaScript value; reading [track.id] of [undefined]
    throws. *)
Definition playTrack (track : option Track) (s : State) : Result State :=
  match track with
  | None => Throw TypeError s
  | Some t =>
      if id_strict_eq (optional_id (currentTrack s)) (id t)
      then Ok (togglePlayPause s)
      else Ok (with_audio (audio_load (url t))
                 (setCurrentTime 0 (setCurrentTrack (Some t) s)))
  end.

(** [tracks.findIndex(track => track.id === currentTrack?.id)] *)
Definition currentIndex (s : State) : Z :=
  findIndex (fun track => id_strict_eq (id track) (optional_id (currentTrack s)))
            (tracks s).

(** The index [skipTrack] hands to [playTrack]. *)
Definition skipTrack_nextIndex (direction : string) (s : State) : Z :=
  let currentIndex := currentIndex s in
  if String.eqb direction "next"
  then if currentIndex + 1 >=? array_length (tracks s) then 0
       else currentIndex + 1
  else if currentIndex - 1 <? 0 then array_length (tracks s) - 1
       else currentIndex - 1.

Definition skipTrack (direction : string) (s : State) : Result State :=
  if array_length (tracks s) =? 0 then Ok s
  else playTrack (array_get (tracks s) (skipTrack_nextIndex direction s)) s.

(** The [onEnded] handler of the audio element. *)
Definition onEnded (s : State) : Result State :=
  if RepeatMode_eqb (repeatMode s) one then
    Ok (with_audio audio_play s)
  else if RepeatMode_eqb (repeatMode s) all || (array_length (tracks s) >? 1)
  then skipTrack "next" s
  else Ok (setIsPlaying false s).

End App.

(* ------------------------------------------------------------------ *)
(** ** src/utils/audioUtils.js and the useAudioContext hook *)

Module AudioUtils.

Definition Uint8Array : Type := list Byte.byte.

(** An analyser node: its [fftSize] and the magnitude it currently reports
    for each bin. *)
Record AnalyserNode : Type := mkAnalyser {
  fftSize : nat;
  spectrum : nat -> Byte.byte
}.

Definition frequencyBinCount (a : AnalyserNode) : nat := Nat.div (fftSize a) 2.

(** [new Uint8Array(n)] *)
Definition new_Uint8Array (n : nat) : Uint8Array := repeat Byte.x00 n.

Fixpoint fill_from (a : AnalyserNode) (i : nat) (arr : Uint8Array) : Uint8Array :=
  match arr with
  | [] => []
  | b :: rest =>
      (if Nat.ltb i (frequencyBinCount a) then spectrum a i else b)
        :: fill_from a (S i) rest
  end.

(** [analyzer.getByteFrequencyData(arr)]: the bins are copied into [arr];
    elements of [arr] beyond the bin count are left alone. *)
Definition getByteFrequencyData (a : AnalyserNode) (arr : Uint8Array) : Uint8Array :=
  fill_from a 0%nat arr.

Definition getFrequencyData (analyzer : option AnalyserNode) : Uint8Array :=
  match analyzer with
  | None => new_Uint8Array 0
  | Some a =>
      let bufferLength := frequencyBinCount a in
      let dataArray := new_Uint8Array bufferLength in
      getByteFrequencyData a dataArray
  end.

(** The analyser built by [initializeContext] has [fftSize = 2048]. *)
Definition hook_fftSize : nat := 2048.

(** The gain node behind [gainNodeRef.current]. *)
Record GainNode : Type := mkGain { gain_value : Q }.

(** The hook's [setVolume]: without a gain node nothing happens;
    [setValueAtTime] rejects a value that is not finite. *)
Definition setVolume (volume : JsNum) (gainNodeRef : option GainNode)
  : Result (option GainNode) :=
  match gainNodeRef with
  | None => Ok None
  | Some g =>
      let clampedVolume := Math_max (Fin 0) (Math_min (Fin 1) volume) in
      match clampedVolume with
      | Fin q => Ok (Some {| gain_value := q |})
      | _ => Throw TypeError (Some g)
      end
  end.

Definition byte_value (b : Byte.byte) : Z := Z.of_N (Byte.to_N b).

(** [for (let i = lo; i < hi; i++) acc += frequencyData[i]].  Every index
    the callers read lies below [frequencyData.length]. *)
Definition sum_bins (frequencyData : Uint8Array) (lo hi : Z) (acc : Z) : Z :=
  fold_left (fun acc i => acc + byte_value (nth i frequencyData Byte.x00))
            (seq (Z.to_nat lo) (Z.to_nat (hi - lo))) acc.

Record FrequencyBins : Type := mkBins {
  bass : JsNum;
  mid : JsNum;
  treble : JsNum
}.

Definition getFrequencyBins (frequencyData : Uint8Array) : FrequencyBins :=
  if array_length frequencyData =? 0 then
    {| bass := Fin 0; mid := Fin 0; treble := Fin 0 |}
  else
    let dataLength := array_length frequencyData in
    let bassEnd := Qfloor (inject_Z dataLength * (1 # 10)) in
    let midEnd := Qfloor (inject_Z dataLength * (4 # 10)) in
    let bass := sum_bins frequencyData 0 bassEnd 0 in
    let bass := js_div (js_div (Fin (inject_Z bass)) (Fin (inject_Z bassEnd)))
                       (Fin 255) in
    let mid := sum_bins frequencyData bassEnd midEnd 0 in
    let mid := js_div (js_div (Fin (inject_Z mid))
                              (Fin (inject_Z (midEnd - bassEnd))))
                      (Fin 255) in
    let treble := sum_bins frequencyData midEnd dataLength 0 in
    let treble := js_div (js_div (Fin (inject_Z treble))
                                 (Fin (inject_Z (dataLength - midEnd))))
                         (Fin 255) in
    {| bass := bass; mid := mid; treble := treble |}.

End AudioUtils.

(* ------------------------------------------------------------------ *)
(** ** Sample data: the playlist [A, B, C] of the scenarios *)

Definition trackA : Track := {| id := IdNum 1; title := "A"; url := "blob:a" |}.
Definition trackB : Track := {| id := IdNum 2; title := "B"; url := "blob:b" |}.
Definition trackC : Track := {| id := IdNum 3; title := "C"; url := "blob:c" |}.
Definition playlistABC : list Track := [trackA; trackB; trackC].

(** An element playing [u] at position [t], and one that has run to its
    end at [t]. *)
Definition playing_audio (u : string) (t : Q) : HTMLAudioElement :=
  {| a_src := u; a_currentTime := t; a_volume := 1; a_paused := false;
     a_ended := false |}.

Definition ended_audio (u : string) (t : Q) : HTMLAudioElement :=
  {| a_src := u; a_currentTime := t; a_volume := 1; a_paused := false;
     a_ended := true |}.

(** What a handler left behind, whether it returned or threw. *)
Definition state_of {S : Type} (r : Result S) : S :=
  match r with
  | Ok s => s
  | Throw _ s => s
  end.

(** The player as it sits on a playlist with track [c] loaded and a sink
    registered. *)
Definition propsOn (l : list Track) (c : option Track) : AudioPlayer.Props :=
  AudioPlayer.mkProps c l true.

Definition propsABC (c : Track) : AudioPlayer.Props :=
  propsOn playlistABC (Some c).

(** A playing session: the flags, the mode and the element; the sink has
    not been called yet. *)
Definition playerState (shuffle : bool) (mode : AudioPlayer.RepeatMode)
  (a : option HTMLAudioElement) : AudioPlayer.State :=
  AudioPlayer.mkState true 0 180 (Fin 1) false shuffle mode a [].

(** The sink has been left alone, or it has received one more argument and
    that argument is an element of the playlist. *)
Definition sink_untouched_or_fed_from (l : list Track)
  (s s' : AudioPlayer.State) : Prop :=
  AudioPlayer.trackChanges s' = AudioPlayer.trackChanges s \/
  exists i t, 0 <= i < array_length l /\ array_get l i = Some t /\ In t l /\
              AudioPlayer.trackChanges s' = AudioPlayer.trackChanges s ++ [Some t].

(** The shell as it sits on [l] with track [c] loaded and playing. *)
Definition shellState (l : list Track) (c : option Track)
  (mode : App.RepeatMode) (a : option HTMLAudioElement) : App.State :=
  App.mkState l c true 0 false mode a.

(** The analyser built by [createAudioContext] has [fftSize = 256]. *)
Definition util_fftSize : nat := 256.

(** An analyser that reports silence. *)
Definition silent_analyser (size : nat) : AudioUtils.AnalyserNode :=
  AudioUtils.mkAnalyser size (fun _ => Byte.x00).

(** Sum of the magnitudes of a run of bins, and its arithmetic mean divided
    by 255. *)
Definition bins_total (l : AudioUtils.Uint8Array) : Z :=
  fold_right (fun b acc => AudioUtils.byte_value b + acc) 0 l.

Definition normalized_mean (l : AudioUtils.Uint8Array) : Q :=
  (inject_Z (bins_total l) / inject_Z (array_length l) / 255)%Q.

Definition in_unit_interval (q : Q) : Prop := (0 <= q)%Q /\ (q <= 1)%Q.

(** Sixteen bins, what the smallest analyser delivers. *)
Definition sample16 : AudioUtils.Uint8Array :=
  [Byte.xff; Byte.x80; Byte.x40; Byte.x20; Byte.x10; Byte.x08; Byte.x04;
   Byte.x02; Byte.x01; Byte.x00; Byte.x00; Byte.x0a; Byte.x14; Byte.x1e;
   Byte.x28; Byte.x32].

(** [Math.max(0, Math.min(1, q))] on a finite level. *)
Definition clamp01 (q : Q) : Q := Qmax 0 (Qmin 1 q).

(** Clicks on a volume bar that spans [100, 200): right of the bar (level
    1.4), left of it (level -0.2) and at its middle. *)
Definition click_right_of_bar : AudioPlayer.MouseEvent :=
  AudioPlayer.mkMouseEvent 240 100 100.
Definition click_left_of_bar : AudioPlayer.MouseEvent :=
  AudioPlayer.mkMouseEvent 80 100 100.
Definition click_mid_bar : AudioPlayer.MouseEvent :=
  AudioPlayer.mkMouseEvent 150 100 100.

(* ------------------------------------------------------------------ *)
(** ** More of JavaScript's numbers and strings *)

From Stdlib Require DecimalString DecimalZ.

(** [Math.floor(a)] *)
Definition Math_floor (a : JsNum) : JsNum :=
  match a with
  | Fin q => Fin (inject_Z (Qfloor q))
  | other => other
  end.

(** Rounding towards zero, as the remainder operator does. *)
Definition Qtruncate (q : Q) : Z :=
  if Qle_bool 0 q then Qfloor q else Qceiling q.

(** [a % b]: the remainder takes the sign of the dividend. *)
Definition js_rem (a b : JsNum) : JsNum :=
  match a, b with
  | Fin p, Fin q =>
      if Qeq_bool q 0 then NaN
      else Fin (p - q * inject_Z (Qtruncate (p / q)))
  | Fin p, PosInf | Fin p, NegInf => Fin p
  | _, _ => NaN
  end.

(** [a * b] *)
Definition js_mul (a b : JsNum) : JsNum :=
  match a, b with
  | NaN, _ | _, NaN => NaN
  | Fin p, Fin q => Fin (p * q)
  | Fin p, PosInf | PosInf, Fin p =>
      match (p ?= 0)%Q with Eq => NaN | Gt => PosInf | Lt => NegInf end
  | Fin p, NegInf | NegInf, Fin p =>
      match (p ?= 0)%Q with Eq => NaN | Gt => NegInf | Lt => PosInf end
  | PosInf, PosInf | NegInf, NegInf => PosInf
  | PosInf, NegInf | NegInf, PosInf => NegInf
  end.

(** [isNaN(a)] *)
Definition js_isNaN (a : JsNum) : bool :=
  match a with
  | NaN => true
  | _ => false
  end.

(** Truthiness of a number: [0] and [NaN] are falsy. *)
Definition num_truthy (a : JsNum) : bool :=
  match a with
  | Fin q => negb (Qeq_bool q 0)
  | NaN => false
  | _ => true
  end.

(** [a > b] *)
Definition js_gt (a b : JsNum) : bool :=
  match a, b with
  | NaN, _ | _, NaN => false
  | Fin p, Fin q => negb (Qle_bool p q)
  | PosInf, PosInf => false
  | PosInf, _ => true
  | _, NegInf => match a with NegInf => false | _ => true end
  | _, _ => false
  end.

(** Decimal digits of an integer, with a leading [-] when negative. *)
Definition integer_toString (z : Z) : string :=
  DecimalString.NilZero.string_of_int (Z.to_int z).

(** [String(a)] for a number without fractional part, which is what the
    callers below pass (they print results of [Math.floor]).  JavaScript
    switches to exponent notation from [10^21] on; the model is meant
    below that magnitude. *)
Definition Number_toString (a : JsNum) : string :=
  match a with
  | Fin q => integer_toString (Qfloor q)
  | PosInf => "Infinity"
  | NegInf => "-Infinity"
  | NaN => "NaN"
  end.

(** The first [n] characters of [rest] followed by [fill] repeated. *)
Fixpoint cycle_chars (n : nat) (fill rest : string) : string :=
  match n with
  | O => EmptyString
  | S k =>
      match rest with
      | String c r => String c (cycle_chars k fill r)
      | EmptyString =>
          match fill with
          | String c r => String c (cycle_chars k fill r)
          | EmptyString => EmptyString
          end
      end
  end.

(** [s.padStart(target, fill)] *)
Definition padStart (target : nat) (fill s : string) : string :=
  if Nat.leb target (String.length s) then s
  else match fill with
       | EmptyString => s
       | _ => (cycle_chars (target - String.length s) fill fill ++ s)%string
       end.

(** The shape [m:ss] the formatters produce for a whole number of seconds. *)
Definition two_digits (k : Z) : string :=
  (integer_toString (k / 10) ++ integer_toString (k mod 10))%string.

Definition minutes_and_seconds (whole : Z) : string :=
  (integer_toString (whole / 60) ++ ":" ++ two_digits (whole mod 60))%string.

(* ------------------------------------------------------------------ *)
(** ** AudioPlayer.jsx: the remaining handlers and derived values *)

Module AudioPlayerControls.
Import AudioPlayer.

Definition formatTime (time : JsNum) : string :=
  if js_isNaN time then "0:00"%string
  else
    let minutes := Math_floor (js_div time (Fin 60)) in
    let seconds := Math_floor (js_rem time (Fin 60)) in
    (Number_toString minutes ++ ":"
       ++ padStart 2 "0" (Number_toString seconds))%string.

Definition setCurrentTime (t : Q) (s : State) : State :=
  {| isPlaying := isPlaying s; currentTime := t; duration := duration s;
     volume := volume s; isMuted := isMuted s; isShuffled := isShuffled s;
     repeatMode := repeatMode s; audioRef := audioRef s;
     trackChanges := trackChanges s |}.

(** The click on the progress bar.  Assigning a value that is not finite
    to [audio.currentTime] throws; positions are taken inside the media's
    range, where the element does not adjust them. *)
Definition handleSeek (e : MouseEvent) (s : State) : Result State :=
  match audioRef s with
  | None => Ok s
  | Some a =>
      let percent :=
        js_div (Fin (clientX e - rect_left e)) (Fin (rect_width e)) in
      let newTime := js_mul percent (Fin (duration s)) in
      match newTime with
      | Fin t => Ok (setCurrentTime t (set_audio (audio_set_currentTime t a) s))
      | _ => Throw TypeError s
      end
  end.

(** [duration > 0 ? (currentTime / duration) * 100 : 0] *)
Definition progressPercent (s : State) : Q :=
  if negb (Qle_bool (duration s) 0)
  then (currentTime s / duration s * 100)%Q
  else 0%Q.

(** [isMuted ? 0 : volume * 100] *)
Definition volumePercent (s : State) : JsNum :=
  if isMuted s then Fin 0 else js_mul (volume s) (Fin 100).

(** [togglePlay].  [suspended] tells whether the audio context reports
    the state 'suspended'; [resume_ok] and [play_ok] tell whether the
    promises of [resume()] and [play()] are fulfilled.  A rejection lands
    in the [catch], which only logs. *)
Definition togglePlay (p : Props) (suspended resume_ok play_ok : bool)
  (s : State) : State :=
  match audioRef s, currentTrack p with
  | None, _ | _, None => s
  | Some a, Some _ =>
      if suspended && negb resume_ok then s
      else if isPlaying s
           then setIsPlaying false (set_audio (audio_pause a) s)
           else if play_ok
                then setIsPlaying true (set_audio (audio_play a) s)
                else s
  end.

(** What the parent does with the sink's last argument: it becomes the
    [currentTrack] prop of the next render. *)
Definition adopt_last_track_change (p : Props) (s : State) : Props :=
  match last (trackChanges s) None with
  | Some t => {| currentTrack := Some t; playlist := playlist p;
                 onTrackChange := onTrackChange p |}
  | None => p
  end.

End AudioPlayerControls.

(* ------------------------------------------------------------------ *)
(** ** The application shell: the remaining handlers *)

Module AppControls.
Import App.

(** The shell's [formatTime] has no [isNaN] guard. *)
Definition formatTime (time : JsNum) : string :=
  let minutes := Math_floor (js_div time (Fin 60)) in
  let seconds := Math_floor (js_rem time (Fin 60)) in
  (Number_toString minutes ++ ":"
     ++ padStart 2 "0" (Number_toString seconds))%string.

Definition setTracks (l : list Track) (s : State) : State :=
  {| tracks := l; currentTrack := currentTrack s; isPlaying := isPlaying s;
     currentTime := currentTime s; isShuffling := isShuffling s;
     repeatMode := repeatMode s; audioRef := audioRef s |}.

Definition removeTrack (trackId : JsId) (s : State) : State :=
  let s1 :=
    setTracks (filter (fun track => negb (id_strict_eq (id track) trackId))
                      (tracks s)) s in
  if id_strict_eq (optional_id (currentTrack s)) trackId
  then setIsPlaying false (setCurrentTrack None s1)
  else s1.

(** The state after [playTrack] has switched to another track. *)
Definition switched_to (t : Track) (s : State) : State :=
  with_audio (audio_load (url t))
    (setCurrentTime 0 (setCurrentTrack (Some t) s)).

(** Pressing a skip button [k] times in a row. *)
Fixpoint skipTrack_times (direction : string) (k : nat) (s : State)
  : Result State :=
  match k with
  | O => Ok s
  | S k' =>
      match skipTrack direction s with
      | Ok s' => skipTrack_times direction k' s'
      | Throw e s' => Throw e s'
      end
  end.

(** The current track, when there is one, carries the identifier of a
    track of the list. *)
Definition current_in_tracks (s : State) : Prop :=
  match currentTrack s with
  | None => True
  | Some c => exists t, In t (tracks s) /\ id t = id c
  end.

End AppControls.

(** [formatDuration] of src/utils/audioUtils.js. *)
Definition formatDuration (duration : JsNum) : string :=
  if negb (num_truthy duration) || js_isNaN duration then "0:00"%string
  else
    let minutes := Math_floor (js_div duration (Fin 60)) in
    let seconds := Math_floor (js_rem duration (Fin 60)) in
    (Number_toString minutes ++ ":"
       ++ padStart 2 "0" (Number_toString seconds))%string.

(** The play flag and the element agree: [isPlaying] holds exactly when
    the element is not paused. *)
Definition play_flag_matches_element (s : AudioPlayer.State) : Prop :=
  match AudioPlayer.audioRef s with
  | Some a => AudioPlayer.isPlaying s = negb (a_paused a)
  | None => True
  end.

(* ------------------------------------------------------------------ *)
(** ** The useAudioContext hook *)

Module AudioContextHook.
Import AudioUtils.

Inductive ContextState : Type := running | suspended | closed.

Definition ContextState_eqb (a b : ContextState) : bool :=
  match a, b with
  | running, running | suspended, suspended | closed, closed => true
  | _, _ => false
  end.

(** An [AudioContext] as far as the hook looks at it. *)
Record AudioContext : Type := mkContext { state : ContextState }.

(** The object [{ audioContext, analyzer, source }] that
    [createAudioContext] returns when nothing fails.  It is not an
    [AudioContext]: it has no [state] property and no [createAnalyser]
    method. *)
Record ContextBundle : Type := mkBundle {
  bundle_audioContext : AudioContext;
  bundle_analyzer : AnalyserNode;
  bundle_source : HTMLAudioElement
}.

(** What the page offers: whether an [AudioContext] can be constructed, the
    state a fresh context starts in, what an analyser reports, whether
    [createMediaElementSource] accepts a given element (it refuses one that
    already feeds a source node), and the message text of the exceptions
    the engine raises. *)
Record Page : Type := mkPage {
  constructor_available : bool;
  fresh_state : ContextState;
  page_spectrum : nat -> Byte.byte;
  element_accepted : HTMLAudioElement -> bool;
  exception_message : string
}.

(** [createAudioContext(audioElement)] of audioUtils.js: any exception ends
    in the [catch], which returns [null].  [createMediaElementSource]
    throws a [TypeError] when its argument is not a media element, as is
    the case for [undefined]. *)
Definition createAudioContext (page : Page)
  (audioElement : option HTMLAudioElement) : option ContextBundle :=
  if constructor_available page then
    match audioElement with
    | None => None
    | Some el =>
        if element_accepted page el
        then Some {| bundle_audioContext := {| state := fresh_state page |};
                     bundle_analyzer :=
                       {| fftSize := util_fftSize;
                          spectrum := page_spectrum page |};
                     bundle_source := el |}
        else None
    end
  else None.

(** The hook's [useState] cells and refs.  [sourceRef] holds the element
    whose source node is connected, [animationFrameRef] whether a frame
    is requested. *)
Record Hook : Type := mkHook {
  audioContext : option AudioContext;
  analyser : option AnalyserNode;
  frequencyData : Uint8Array;
  isContextReady : bool;
  error : option string;
  sourceRef : option HTMLAudioElement;
  animationFrameRef : bool;
  gainNodeRef : option GainNode
}.

(** The hook as [useAudioContext] creates it. *)
Definition initial_hook : Hook :=
  {| audioContext := None; analyser := None;
     frequencyData := new_Uint8Array 0; isContextReady := false;
     error := None; sourceRef := None; animationFrameRef := false;
     gainNodeRef := None |}.

Definition setError (e : option string) (h : Hook) : Hook :=
  {| audioContext := audioContext h; analyser := analyser h;
     frequencyData := frequencyData h; isContextReady := isContextReady h;
     error := e; sourceRef := sourceRef h;
     animationFrameRef := animationFrameRef h; gainNodeRef := gainNodeRef h |}.

Definition setIsContextReady (b : bool) (h : Hook) : Hook :=
  {| audioContext := audioContext h; analyser := analyser h;
     frequencyData := frequencyData h; isContextReady := b;
     error := error h; sourceRef := sourceRef h;
     animationFrameRef := animationFrameRef h; gainNodeRef := gainNodeRef h |}.

Definition setFrequencyData (d : Uint8Array) (h : Hook) : Hook :=
  {| audioContext := audioContext h; analyser := analyser h;
     frequencyData := d; isContextReady := isContextReady h;
     error := error h; sourceRef := sourceRef h;
     animationFrameRef := animationFrameRef h; gainNodeRef := gainNodeRef h |}.

Definition set_animationFrame (b : bool) (h : Hook) : Hook :=
  {| audioContext := audioContext h; analyser := analyser h;
     frequencyData := frequencyData h; isContextReady := isContextReady h;
     error := error h; sourceRef := sourceRef h;
     animationFrameRef := b; gainNodeRef := gainNodeRef h |}.

Definition set_sourceRef (r : option HTMLAudioElement) (h : Hook) : Hook :=
  {| audioContext := audioContext h; analyser := analyser h;
     frequencyData := frequencyData h; isContextReady := isContextReady h;
     error := error h; sourceRef := r;
     animationFrameRef := animationFrameRef h; gainNodeRef := gainNodeRef h |}.

Definition set_gainNodeRef (g : option GainNode) (h : Hook) : Hook :=
  {| audioContext := audioContext h; analyser := analyser h;
     frequencyData := frequencyData h; isContextReady := isContextReady h;
     error := error h; sourceRef := sourceRef h;
     animationFrameRef := animationFrameRef h; gainNodeRef := g |}.

Definition set_context (c : option AudioContext) (a : option AnalyserNode)
  (h : Hook) : Hook :=
  {| audioContext := c; analyser := a;
     frequencyData := frequencyData h; isContextReady := isContextReady h;
     error := error h; sourceRef := sourceRef h;
     animationFrameRef := animationFrameRef h; gainNodeRef := gainNodeRef h |}.

(** [audioContext && audioContext.state !== 'closed'] *)
Definition open_context (h : Hook) : option AudioContext :=
  match audioContext h with
  | Some ctx => if ContextState_eqb (state ctx) closed then None else Some ctx
  | None => None
  end.

(** The [catch] of [initializeContext]. *)
Definition initialize_failed (message : string) (h : Hook) : Hook :=
  setIsContextReady false (setError (Some message) h).

(** [initializeContext]: the new state and the value returned.  The hook
    calls [createAudioContext()] without an argument.  When that returns
    an object, [context.state] is [undefined] (so nothing is resumed) and
    [context.createAnalyser()] is a call of [undefined], a [TypeError]. *)
Definition initializeContext (page : Page) (h : Hook)
  : Hook * option AudioContext :=
  let h := setError None h in
  match open_context h with
  | Some ctx => (h, Some ctx)
  | None =>
      match createAudioContext page None with
      | None => (initialize_failed "Failed to create audio context" h, None)
      | Some _ => (initialize_failed (exception_message page) h, None)
      end
  end.

(** [connectAudioElement]: the new state and whether a source node is
    returned.  [analyser] is the value of the render that created the
    callback, that is, of [h]. *)
Definition connectAudioElement (page : Page)
  (audioElement : option HTMLAudioElement) (h : Hook) : Hook * bool :=
  match audioElement with
  | None => (h, false)
  | Some el =>
      let '(h1, context) :=
        match open_context h with
        | Some ctx => (h, Some ctx)
        | None => initializeContext page h
        end in
      match context, analyser h, gainNodeRef h1 with
      | Some _, Some _, Some _ =>
          if element_accepted page el
          then (set_sourceRef (Some el) h1, true)
          else (setError (Some (exception_message page)) h1, false)
      | _, _, _ => (setError (Some "Audio context not ready"%string) h1, false)
      end
  end.

(** [stopAnalysis] *)
Definition stopAnalysis (h : Hook) : Hook :=
  setFrequencyData (new_Uint8Array 0) (set_animationFrame false h).

(** [startAnalysis], up to the first run of [updateFrequencyData]. *)
Definition startAnalysis (h : Hook) : Hook :=
  match analyser h, isContextReady h with
  | Some a, true =>
      match audioContext h with
      | Some ctx =>
          if ContextState_eqb (state ctx) running
          then set_animationFrame true
                 (setFrequencyData (getFrequencyData (Some a)) h)
          else h
      | None => h
      end
  | _, _ => h
  end.

(** [resumeContext]; [ok] tells whether [resume()] is fulfilled. *)
Definition resumeContext (page : Page) (ok : bool) (h : Hook) : Hook :=
  match audioContext h with
  | Some ctx =>
      if ContextState_eqb (state ctx) suspended
      then if ok
           then setError None
                  (setIsContextReady true
                     (set_context (Some {| state := running |}) (analyser h) h))
           else setError (Some (exception_message page)) h
      else h
  | None => h
  end.

(** [suspendContext]; [ok] tells whether [suspend()] is fulfilled. *)
Definition suspendContext (ok : bool) (h : Hook) : Hook :=
  match audioContext h with
  | Some ctx =>
      if ContextState_eqb (state ctx) running
      then if ok
           then stopAnalysis
                  (set_context (Some {| state := suspended |}) (analyser h) h)
           else h
      else h
  | None => h
  end.

(** [closeContext] *)
Definition closeContext (h : Hook) : Hook :=
  set_gainNodeRef None
    (setIsContextReady false
       (set_context None None (set_sourceRef None (stopAnalysis h)))).

(** The hook's [setVolume] acting on the hook's gain node. *)
Definition hook_setVolume (volume : JsNum) (h : Hook) : Result Hook :=
  match setVolume volume (gainNodeRef h) with
  | Ok g => Ok (set_gainNodeRef g h)
  | Throw e _ => Throw e h
  end.

(** [gainNodeRef.current?.gain.value || 1] *)
Definition getVolume (h : Hook) : Q :=
  match gainNodeRef h with
  | Some g => if Qeq_bool (gain_value g) 0 then 1%Q else gain_value g
  | None => 1%Q
  end.

(** [audioContext?.state || 'closed'] *)
Definition getContextState (h : Hook) : ContextState :=
  match audioContext h with
  | Some ctx => state ctx
  | None => closed
  end.

Definition getAverageFrequency (h : Hook) : JsNum :=
  if array_length (frequencyData h) =? 0 then Fin 0
  else
    let sum :=
      fold_left (fun acc val => acc + byte_value val) (frequencyData h) 0 in
    js_div (js_div (Fin (inject_Z sum))
                   (Fin (inject_Z (array_length (frequencyData h)))))
           (Fin 255).

(** What a component can ask the hook to do. *)
Inductive Call : Type :=
| CallInitialize
| CallConnect (audioElement : option HTMLAudioElement)
| CallStart
| CallStop
| CallSetVolume (volume : JsNum)
| CallResume (ok : bool)
| CallSuspend (ok : bool)
| CallClose.

Definition perform (page : Page) (c : Call) (h : Hook) : Hook :=
  match c with
  | CallInitialize => fst (initializeContext page h)
  | CallConnect el => fst (connectAudioElement page el h)
  | CallStart => startAnalysis h
  | CallStop => stopAnalysis h
  | CallSetVolume v => state_of (hook_setVolume v h)
  | CallResume ok => resumeContext page ok h
  | CallSuspend ok => suspendContext ok h
  | CallClose => closeContext h
  end.

Definition perform_all (page : Page) (calls : list Call) (h : Hook) : Hook :=
  fold_left (fun h c => perform page c h) calls h.

(** No context, no analyser, no gain node, no source, no data. *)
Definition without_graph (h : Hook) : Prop :=
  audioContext h = None /\ analyser h = None /\ gainNodeRef h = None /\
  sourceRef h = None /\ frequencyData h = [] /\ isContextReady h = false.

End AudioContextHook.

(* ------------------------------------------------------------------ *)
(** ** audioUtils.js: the track store in localStorage *)

Module TrackStore.

#[local] Set Warnings "-register-all".

(** A value as [JSON.parse] delivers it. *)
Inductive Json : Type :=
| JNull
| JBool (b : bool)
| JNum (q : Q)
| JStr (s : string)
| JArr (elements : list Json)
| JObj (fields : list (string * Json)).

(** JSON text is kept abstract: [stringify] is [JSON.stringify] on a value
    that is already JSON, [parse] is [JSON.parse] with [None] for a
    [SyntaxError], and [accepts] tells whether [localStorage.setItem] has
    room for a text (otherwise it throws a [QuotaExceededError]). *)
Record Codec : Type := mkCodec {
  Text : Type;
  stringify : Json -> Text;
  parse : Text -> option Json;
  accepts : Text -> bool
}.

(** Parsing gives back what was written. *)
Definition faithful (C : Codec) : Prop :=
  forall j, parse C (stringify C j) = Some j.

Definition TRACKS : string := "mp3_player_tracks".
Definition PLAYBACK_STATE : string := "mp3_player_playback_state".

Section WithCodec.
Variable C : Codec.

(** [localStorage]: the text stored under each key. *)
Definition LocalStorage : Type := string -> option (Text C).

Definition empty_storage : LocalStorage := fun _ => None.

Definition getItem (st : LocalStorage) (key : string) : option (Text C) :=
  st key.

(** [setItem] once the quota has accepted the text. *)
Definition store (st : LocalStorage) (key : string) (text : Text C)
  : LocalStorage :=
  fun k => if String.eqb k key then Some text else st k.

Definition removeItem (st : LocalStorage) (key : string) : LocalStorage :=
  fun k => if String.eqb k key then None else st k.

(** [setItem]: [None] when it throws. *)
Definition setItem (st : LocalStorage) (key : string) (text : Text C)
  : option LocalStorage :=
  if accepts C text then Some (store st key text) else None.

(** [getTracks]: the parsed value, or [[]] when the key is missing or the
    text does not parse (an empty text is falsy and does not parse
    either). *)
Definition getTracks (st : LocalStorage) : Json :=
  match getItem st TRACKS with
  | None => JArr []
  | Some text =>
      match parse C text with
      | Some j => j
      | None => JArr []
      end
  end.

(** The characters of a string, each as a string. *)
Fixpoint characters (s : string) : list Json :=
  match s with
  | EmptyString => []
  | String c rest => JStr (String c EmptyString) :: characters rest
  end.

(** [[...value]]: arrays and strings can be spread, anything else throws a
    [TypeError] ([None]). *)
Definition spread (value : Json) : option (list Json) :=
  match value with
  | JArr l => Some l
  | JStr s => Some (characters s)
  | _ => None
  end.

(** [saveTracks(tracks)]: the storage afterwards and the value returned. *)
Definition saveTracks (tracks : list Json) (st : LocalStorage)
  : LocalStorage * bool :=
  match spread (getTracks st) with
  | None => (st, false)
  | Some existingTracks =>
      let updatedTracks := existingTracks ++ tracks in
      match setItem st TRACKS (stringify C (JArr updatedTracks)) with
      | Some st' => (st', true)
      | None => (st, false)
      end
  end.

(** [a === b] between a property value ([None] is [undefined]) and the
    identifier looked for; a parsed object or array is identical to
    nothing else. *)
Definition json_strict_eq (a b : option Json) : bool :=
  match a, b with
  | None, None => true
  | Some JNull, Some JNull => true
  | Some (JBool x), Some (JBool y) => Bool.eqb x y
  | Some (JNum p), Some (JNum q) => Qeq_bool p q
  | Some (JStr s), Some (JStr t) => String.eqb s t
  | _, _ => false
  end.

Fixpoint lookup (key : string) (fields : list (string * Json)) : option Json :=
  match fields with
  | [] => None
  | (k, v) :: rest => if String.eqb k key then Some v else lookup key rest
  end.

(** [track.id]: the outer [None] is the [TypeError] of reading a property
    of [null], the inner one is [undefined]. *)
Definition get_id (track : Json) : option (option Json) :=
  match track with
  | JNull => None
  | JObj fields => Some (lookup "id" fields)
  | _ => Some None
  end.

(** [tracks.filter(track => track.id !== trackId)], [None] when reading an
    [id] throws. *)
Fixpoint without_id (trackId : option Json) (tracks : list Json)
  : option (list Json) :=
  match tracks with
  | [] => Some []
  | track :: rest =>
      match get_id track with
      | None => None
      | Some i =>
          match without_id trackId rest with
          | None => None
          | Some kept =>
              Some (if json_strict_eq i trackId then kept else track :: kept)
          end
      end
  end.

(** [deleteTrack(trackId)].  Only an array has [filter]. *)
Definition deleteTrack (trackId : option Json) (st : LocalStorage)
  : LocalStorage * bool :=
  match getTracks st with
  | JArr tracks =>
      match without_id trackId tracks with
      | None => (st, false)
      | Some filteredTracks =>
          match setItem st TRACKS (stringify C (JArr filteredTracks)) with
          | Some st' => (st', true)
          | None => (st, false)
          end
      end
  | _ => (st, false)
  end.

(** [tracks.findIndex(track => track.id === trackId)]: the outer [None] is
    a [TypeError], the inner one the answer [-1]. *)
Fixpoint find_id (trackId : option Json) (tracks : list Json) (i : nat)
  : option (option nat) :=
  match tracks with
  | [] => Some None
  | track :: rest =>
      match get_id track with
      | None => None
      | Some v =>
          if json_strict_eq v trackId then Some (Some i)
          else find_id trackId rest (S i)
      end
  end.

Fixpoint indexed (l : list Json) (i : nat) : list (string * Json) :=
  match l with
  | [] => []
  | x :: rest => (integer_toString (Z.of_nat i), x) :: indexed rest (S i)
  end.

(** The own enumerable properties that an object spread copies. *)
Definition own_fields (value : Json) : list (string * Json) :=
  match value with
  | JObj fields => fields
  | JArr l => indexed l 0
  | JStr s => indexed (characters s) 0
  | _ => []
  end.

Fixpoint set_field (key : string) (v : Json) (fields : list (string * Json))
  : list (string * Json) :=
  match fields with
  | [] => [(key, v)]
  | (k, old) :: rest =>
      if String.eqb k key then (k, v) :: rest
      else (k, old) :: set_field key v rest
  end.

(** [{ ...a, ...b }] on property lists: a property of [b] overwrites the
    one of [a] in place or is added at the end. *)
Definition merge_fields (a b : list (string * Json)) : list (string * Json) :=
  fold_left (fun acc kv => set_field (fst kv) (snd kv) acc) b a.

(** [tracks[i] = value] for an index inside the array. *)
Fixpoint replace_at (i : nat) (value : Json) (tracks : list Json)
  : list Json :=
  match tracks, i with
  | [], _ => []
  | _ :: rest, O => value :: rest
  | track :: rest, S k => track :: replace_at k value rest
  end.

(** [updateTrack(trackId, updates)]; [updates] is a plain object. *)
Definition updateTrack (trackId : option Json)
  (updates : list (string * Json)) (st : LocalStorage)
  : LocalStorage * bool :=
  match getTracks st with
  | JArr tracks =>
      match find_id trackId tracks 0 with
      | None => (st, false)
      | Some None => (st, false)
      | Some (Some trackIndex) =>
          let updated :=
            JObj (merge_fields (own_fields (nth trackIndex tracks JNull))
                               updates) in
          match setItem st TRACKS
                  (stringify C (JArr (replace_at trackIndex updated tracks)))
          with
          | Some st' => (st', true)
          | None => (st, false)
          end
      end
  | _ => (st, false)
  end.

(** [clearAllTracks] *)
Definition clearAllTracks (st : LocalStorage) : LocalStorage * bool :=
  (removeItem st TRACKS, true).

(** [savePlaybackState(state)] *)
Definition savePlaybackState (state : Json) (st : LocalStorage)
  : LocalStorage * bool :=
  match setItem st PLAYBACK_STATE (stringify C state) with
  | Some st' => (st', true)
  | None => (st, false)
  end.

(** [getPlaybackState]: [null] when the key is missing or the text does
    not parse. *)
Definition getPlaybackState (st : LocalStorage) : Json :=
  match getItem st PLAYBACK_STATE with
  | None => JNull
  | Some text =>
      match parse C text with
      | Some j => j
      | None => JNull
      end
  end.

End WithCodec.

(** A codec for examples: a text is the value it denotes, or garbage;
    texts that denote an array of more than [room] elements do not fit. *)
Definition example_codec (room : nat) : Codec :=
  {| Text := option Json;
     stringify := fun j => Some j;
     parse := fun t => t;
     accepts := fun t =>
       match t with
       | Some (JArr l) => Nat.leb (List.length l) room
       | _ => true
       end |}.

Definition track_json (i : string) (name : string) : Json :=
  JObj [("id"%string, JStr i); ("title"%string, JStr name)].

(** A storage that holds the tracks [a] and [b], and one whose tracks key
    holds text that does not parse. *)
Definition example_tracks : list Json :=
  [track_json "a" "A"; track_json "b" "B"].

Definition example_storage : LocalStorage (example_codec 3) :=
  store (example_codec 3) (empty_storage _) TRACKS (Some (JArr example_tracks)).

Definition corrupt_storage : LocalStorage (example_codec 3) :=
  store (example_codec 3) (empty_storage _) TRACKS None.

(** Whether a track's [id] is the identifier looked for. *)
Definition id_matches (trackId : option Json) (track : Json) : bool :=
  match get_id track with
  | Some i => json_strict_eq i trackId
  | None => false
  end.

Definition has_id (trackId : option Json) (track : Json) : Prop :=
  exists i, get_id track = Some i /\ json_strict_eq i trackId = true.

End TrackStore.

(* ------------------------------------------------------------------ *)
(** ** AudioPlayer.jsx: the effect that registers the 'ended' listener *)

Module AudioPlayerEffects.
Import AudioPlayer.

Definition setRepeatMode (m : RepeatMode) (s : State) : State :=
  {| isPlaying := isPlaying s; currentTime := currentTime s;
     duration := duration s; volume := volume s; isMuted := isMuted s;
     isShuffled := isShuffled s; repeatMode := m; audioRef := audioRef s;
     trackChanges := trackChanges s |}.

Definition setIsShuffled (b : bool) (s : State) : State :=
  {| isPlaying := isPlaying s; currentTime := currentTime s;
     duration := duration s; volume := volume s; isMuted := isMuted s;
     isShuffled := b; repeatMode := repeatMode s; audioRef := audioRef s;
     trackChanges := trackChanges s |}.

(** What the [handleNext] created by one render reads from its scope: the
    props and the [repeatMode] and [isShuffled] state of that render. *)
Record Render : Type := mkRender {
  render_props : Props;
  render_repeatMode : RepeatMode;
  render_isShuffled : bool
}.

(** The mounted component: its latest props and state, and the render
    whose [handleNext] the 'ended' listener calls ([None] when no listener
    is registered). *)
Record Component : Type := mkComponent {
  props : Props;
  state : State;
  endedListener : option Render
}.

Definition latest_render (p : Props) (s : State) : Render :=
  {| render_props := p; render_repeatMode := repeatMode s;
     render_isShuffled := isShuffled s |}.

(** Running the [handleNext] of render [r] now: props, [repeatMode] and
    [isShuffled] are those of [r]; [audioRef.current], the state setters
    and the sink act on the component as it is now. *)
Definition handleNext_of (r : Render) (rnd : Q) (s : State) : Result State :=
  let restore s' := setIsShuffled (isShuffled s)
                      (setRepeatMode (repeatMode s) s') in
  match handleNext (render_props r) rnd
          (setIsShuffled (render_isShuffled r)
             (setRepeatMode (render_repeatMode r) s)) with
  | Ok s' => Ok (restore s')
  | Throw e s' => Throw e (restore s')
  end.

(** The effect body: without an element nothing is registered, otherwise
    [handleEnded] calls the [handleNext] of the render that runs the
    effect. *)
Definition register_listeners (p : Props) (s : State) : option Render :=
  match audioRef s with
  | None => None
  | Some _ => Some (latest_render p s)
  end.

(** First render: the effect runs. *)
Definition mount (p : Props) (s : State) : Component :=
  {| props := p; state := s; endedListener := register_listeners p s |}.

Definition Track_eqb (a b : Track) : bool :=
  id_strict_eq (id a) (id b) && String.eqb (title a) (title b)
  && String.eqb (url a) (url b).

Definition same_track (a b : option Track) : bool :=
  match a, b with
  | None, None => true
  | Some x, Some y => Track_eqb x y
  | _, _ => false
  end.

(** The parent renders the component with new props.  The effect has the
    dependency list [[currentTrack]]: it runs again, replacing the
    listener, only when the current track has changed.  React compares
    the dependency by object identity; a track object is identified here
    with its fields. *)
Definition receive_props (p' : Props) (c : Component) : Component :=
  {| props := p'; state := state c;
     endedListener :=
       if same_track (currentTrack (props c)) (currentTrack p')
       then endedListener c
       else register_listeners p' (state c) |}.

(** The repeat button. *)
Definition click_repeat (c : Component) : Component :=
  let modes := [off; all; one] in
  let currentIndex :=
    findIndex (fun m => RepeatMode_eqb m (repeatMode (state c))) modes in
  let nextMode := array_get modes ((currentIndex + 1) mod array_length modes) in
  {| props := props c;
     state := match nextMode with
              | Some m => setRepeatMode m (state c)
              | None => state c
              end;
     endedListener := endedListener c |}.

(** The shuffle button. *)
Definition click_shuffle (c : Component) : Component :=
  {| props := props c;
     state := setIsShuffled (negb (isShuffled (state c))) (state c);
     endedListener := endedListener c |}.

(** The next button: [onClick={handleNext}] is the latest render's. *)
Definition click_next (rnd : Q) (c : Component) : Component :=
  {| props := props c;
     state := state_of (handleNext (props c) rnd (state c));
     endedListener := endedListener c |}.

(** The element plays to the end of its media, where it pauses itself. *)
Definition audio_reach_end (a : HTMLAudioElement) (mediaDuration : Q)
  : HTMLAudioElement :=
  {| a_src := a_src a; a_currentTime := mediaDuration;
     a_volume := a_volume a; a_paused := true; a_ended := true |}.

(** The track ends: the element is at the end of its media (the duration
    the 'loadedmetadata' listener stored) and fires 'ended'; the registered
    listener, if any, runs. *)
Definition track_ends (rnd : Q) (c : Component) : Component :=
  let s :=
    match audioRef (state c) with
    | Some a => set_audio (audio_reach_end a (duration (state c))) (state c)
    | None => state c
    end in
  {| props := props c;
     state := match endedListener c with
              | Some r => state_of (handleNext_of r rnd s)
              | None => s
              end;
     endedListener := endedListener c |}.

(** The player mounted on [playlistABC] with track [t] playing from the
    start, shuffle off and the given repeat mode. *)
Definition mounted_on (t : Track) (mode : RepeatMode) : Component :=
  mount (propsABC t) (playerState false mode (Some (playing_audio (url t) 0))).

End AudioPlayerEffects.

(* ------------------------------------------------------------------ *)
(** * Properties *)

(** ** Identifiers and [findIndex] *)

Lemma id_strict_eq_true_iff (a b : JsId) : id_strict_eq a b = true <-> a = b.
Proof.
  destruct a, b; simpl; split; intro H; try discriminate; try reflexivity.
  - apply Z.eqb_eq in H. now subst.
  - injection H as ->. apply Z.eqb_refl.
  - apply String.eqb_eq in H. now subst.
  - injection H as ->. apply String.eqb_refl.
Qed.

Lemma id_strict_eq_refl (a : JsId) : id_strict_eq a a = true.
Proof. now apply id_strict_eq_true_iff. Qed.

Lemma array_length_nonneg {A} (l : list A) : 0 <= array_length l.
Proof. unfold array_length. lia. Qed.

Lemma array_length_cons {A} (x : A) (l : list A) :
  array_length (x :: l) = array_length l + 1.
Proof. unfold array_length. simpl List.length. lia. Qed.

Lemma array_length_zero {A} (l : list A) : array_length l = 0 <-> l = [].
Proof.
  unfold array_length. destruct l; simpl; split; intro H;
    try reflexivity; try discriminate; lia.
Qed.

Lemma array_get_in_range {A} (l : list A) (i : Z) :
  0 <= i < array_length l ->
  exists x, array_get l i = Some x /\ In x l.
Proof.
  unfold array_get, array_length. intros [Hlo Hhi].
  destruct (i <? 0) eqn:E; [apply Z.ltb_lt in E; lia|].
  destruct (nth_error l (Z.to_nat i)) as [x|] eqn:N.
  - exists x. split; [reflexivity | eapply nth_error_In; eassumption].
  - apply nth_error_None in N. lia.
Qed.

Lemma array_get_of_nat {A} (l : list A) (k : nat) :
  array_get l (Z.of_nat k) = nth_error l k.
Proof.
  unfold array_get. destruct (Z.of_nat k <? 0) eqn:E.
  - apply Z.ltb_lt in E. lia.
  - now rewrite Nat2Z.id.
Qed.

(** [findIndex] answers [-1] or the position of an element. *)
Lemma findIndex_from_range {A} (pred : A -> bool) (l : list A) (i : Z) :
  findIndex_from pred l i = -1 \/
  i <= findIndex_from pred l i < i + array_length l.
Proof.
  revert i. induction l as [|x l IH]; intro i; simpl.
  - now left.
  - rewrite array_length_cons. destruct (pred x).
    + right. pose proof (array_length_nonneg l). lia.
    + destruct (IH (i + 1)) as [E | R]; [now left | right; lia].
Qed.

Lemma findIndex_range {A} (pred : A -> bool) (l : list A) :
  -1 <= findIndex pred l < array_length l.
Proof.
  unfold findIndex. destruct (findIndex_from_range pred l 0) as [E | R].
  - rewrite E. pose proof (array_length_nonneg l). lia.
  - lia.
Qed.

Lemma findIndex_from_absent {A} (pred : A -> bool) (l : list A) (i : Z) :
  (forall x, In x l -> pred x = false) -> findIndex_from pred l i = -1.
Proof.
  revert i. induction l as [|x l IH]; intros i H; simpl; [reflexivity|].
  rewrite (H x (or_introl eq_refl)). apply IH. intros y Hy. apply H. now right.
Qed.

(** In a playlist without duplicate identifiers, looking for the identifier
    of the [k]-th track finds position [k]. *)
Lemma findIndex_from_nth (l : list Track) (k : nat) (t : Track) (i : Z) :
  NoDup (map id l) ->
  nth_error l k = Some t ->
  findIndex_from (fun track => id_strict_eq (id track) (id t)) l i
  = i + Z.of_nat k.
Proof.
  revert k i. induction l as [|x l IH]; intros k i Hnd Hk.
  - destruct k; discriminate.
  - simpl in Hnd. inversion Hnd as [|? ? Hnotin Hnd']; subst.
    destruct k as [|k]; simpl in Hk |- *.
    + injection Hk as ->. rewrite id_strict_eq_refl. lia.
    + destruct (id_strict_eq (id x) (id t)) eqn:E.
      * apply id_strict_eq_true_iff in E. exfalso. apply Hnotin.
        rewrite E. apply in_map. eapply nth_error_In; eassumption.
      * rewrite (IH k (i + 1) Hnd' Hk). lia.
Qed.

Lemma findIndex_nth (l : list Track) (k : nat) (t : Track) :
  NoDup (map id l) ->
  nth_error l k = Some t ->
  findIndex (fun track => id_strict_eq (id track) (id t)) l = Z.of_nat k.
Proof.
  intros Hnd Hk. unfold findIndex. now rewrite (findIndex_from_nth l k t 0).
Qed.

(** ** The random draw *)

Lemma random_index_in_range (rnd : Q) (n : Z) :
  (0 <= rnd)%Q -> (rnd < 1)%Q -> 0 < n ->
  0 <= Qfloor (rnd * inject_Z n) < n.
Proof.
  intros Hlo Hhi Hn.
  assert (0 < inject_Z n)%Q as Hn'
    by (change 0%Q with (inject_Z 0); now rewrite <- Zlt_Qlt).
  split.
  - change 0 with (Qfloor 0). apply Qfloor_resp_le.
    apply Qmult_le_0_compat; [assumption | now apply Qlt_le_weak].
  - rewrite Zlt_Qlt.
    apply Qle_lt_trans with (rnd * inject_Z n)%Q; [apply Qfloor_le|].
    setoid_replace (inject_Z n) with (1 * inject_Z n)%Q at 2 by ring.
    now apply Qmult_lt_compat_r.
Qed.

(* ------------------------------------------------------------------ *)
(** ** AudioPlayer: traversal *)

Section AudioPlayerTraversal.
Import AudioPlayer.

Lemma playlistABC_NoDup : NoDup (map id playlistABC).
Proof.
  repeat constructor; simpl; intuition discriminate.
Qed.

Lemma nothing_to_do_false (p : Props) :
  playlist p <> [] -> onTrackChange p = true -> nothing_to_do p = false.
Proof.
  intros Hne Hsink. unfold nothing_to_do. rewrite Hsink. simpl.
  rewrite orb_false_r. apply Z.eqb_neq. intro E.
  now apply array_length_zero in E.
Qed.

Lemma nothing_to_do_true (p : Props) :
  playlist p = [] \/ onTrackChange p = false -> nothing_to_do p = true.
Proof.
  intros [E | E]; unfold nothing_to_do; rewrite E; simpl.
  - reflexivity.
  - apply orb_true_r.
Qed.

Lemma currentIndex_range (p : Props) :
  -1 <= currentIndex p < array_length (playlist p).
Proof. apply findIndex_range. Qed.

Lemma currentIndex_nth (p : Props) (k : nat) (c : Track) :
  NoDup (map id (playlist p)) ->
  currentTrack p = Some c ->
  nth_error (playlist p) k = Some c ->
  currentIndex p = Z.of_nat k.
Proof.
  intros Hnd Hc Hk. unfold currentIndex. rewrite Hc. simpl.
  now apply findIndex_nth.
Qed.

Lemma currentIndex_absent (p : Props) :
  (forall x, In x (playlist p) -> id x <> optional_id (currentTrack p)) ->
  currentIndex p = -1.
Proof.
  intro H. unfold currentIndex, findIndex. apply findIndex_from_absent.
  intros x Hx. destruct (id_strict_eq _ _) eqn:E; [|reflexivity].
  apply id_strict_eq_true_iff in E. now apply H in Hx.
Qed.

(** [handlePrevious] once its guard has been passed. *)
Lemma handlePrevious_unfold (p : Props) (s : State) :
  nothing_to_do p = false ->
  handlePrevious p s =
  Ok (call_onTrackChange
        (array_get (playlist p)
           (if currentIndex p >? 0 then currentIndex p - 1
            else array_length (playlist p) - 1)) s).
Proof. intro G. unfold handlePrevious. now rewrite G. Qed.

(** [handleNext] once its guard has been passed, outside repeat-one. *)
Lemma handleNext_unfold (p : Props) (rnd : Q) (s : State) :
  nothing_to_do p = false ->
  repeatMode s <> one ->
  handleNext p rnd s =
  if RepeatMode_eqb (repeatMode s) off
     && (currentIndex p =? array_length (playlist p) - 1)
  then Ok (setIsPlaying false s)
  else Ok (call_onTrackChange
             (array_get (playlist p)
                (if isShuffled s
                 then Qfloor (rnd * inject_Z (array_length (playlist p)))
                 else if currentIndex p <? array_length (playlist p) - 1
                      then currentIndex p + 1 else 0)) s).
Proof.
  intros G M. unfold handleNext. rewrite G.
  destruct (repeatMode s); simpl; congruence.
Qed.

Lemma call_in_range (l : list Track) (i : Z) (s : State) :
  0 <= i < array_length l ->
  sink_untouched_or_fed_from l s (call_onTrackChange (array_get l i) s).
Proof.
  intro R. destruct (array_get_in_range l i R) as [t [Ht Hin]].
  right. exists i, t. rewrite Ht. simpl. auto.
Qed.

Lemma handlePrevious_feeds_from_playlist (p : Props) (s : State) :
  sink_untouched_or_fed_from (playlist p) s (state_of (handlePrevious p s)).
Proof.
  destruct (nothing_to_do p) eqn:G.
  - unfold handlePrevious. rewrite G. now left.
  - rewrite (handlePrevious_unfold p s G). simpl state_of.
    apply call_in_range.
    pose proof (currentIndex_range p) as R.
    assert (array_length (playlist p) <> 0) as Hn.
    { unfold nothing_to_do in G. apply orb_false_elim in G as [G _].
      now apply Z.eqb_neq in G. }
    destruct (currentIndex p >? 0) eqn:E.
    + apply Z.gtb_lt in E. lia.
    + lia.
Qed.

Lemma handleNext_feeds_from_playlist (p : Props) (rnd : Q) (s : State) :
  (0 <= rnd)%Q -> (rnd < 1)%Q ->
  sink_untouched_or_fed_from (playlist p) s (state_of (handleNext p rnd s)).
Proof.
  intros Hlo Hhi. destruct (nothing_to_do p) eqn:G.
  - unfold handleNext. rewrite G. now left.
  - assert (0 < array_length (playlist p)) as Hn.
    { unfold nothing_to_do in G. apply orb_false_elim in G as [G _].
      apply Z.eqb_neq in G. pose proof (array_length_nonneg (playlist p)). lia. }
    destruct (RepeatMode_eqb (repeatMode s) one) eqn:M.
    + unfold handleNext. rewrite G, M. destruct (audioRef s); now left.
    + rewrite (handleNext_unfold p rnd s G)
        by (intro E; rewrite E in M; discriminate).
      destruct (_ && _); [now left|]. simpl state_of.
      apply call_in_range.
      destruct (isShuffled s).
      * now apply random_index_in_range.
      * pose proof (currentIndex_range p) as R.
        destruct (currentIndex p <? array_length (playlist p) - 1) eqn:E.
        -- apply Z.ltb_lt in E. lia.
        -- lia.
Qed.

End AudioPlayerTraversal.

(** ** AudioPlayer: the claims about [handleNext] and [handlePrevious] *)

Section AudioPlayerClaims.
Import AudioPlayer.

(** C6.  With an empty playlist, or without an [onTrackChange] sink, both
    [handleNext] and [handlePrevious] return normally and leave everything
    as it was: the sink log, the playback flags and the audio element. *)
Theorem advance_is_noop_without_playlist_or_sink
  (p : Props) (rnd : Q) (s : State) :
  playlist p = [] \/ onTrackChange p = false ->
  handleNext p rnd s = Ok s /\ handlePrevious p s = Ok s.
Proof.
  intro H. apply nothing_to_do_true in H.
  unfold handleNext, handlePrevious. now rewrite H.
Qed.

Lemma advance_is_noop_without_playlist_or_sink_witness :
  (handleNext (mkProps (Some trackA) [] true) (1 # 2)
     (playerState true one None)
   = Ok (playerState true one None) /\
   handlePrevious (mkProps (Some trackA) [] true) (playerState true one None)
   = Ok (playerState true one None)) /\
  (handleNext (mkProps (Some trackA) playlistABC false) (1 # 2)
     (playerState false off None)
   = Ok (playerState false off None) /\
   handlePrevious (mkProps (Some trackA) playlistABC false)
     (playerState false off None)
   = Ok (playerState false off None)).
Proof.
  split.
  - apply (advance_is_noop_without_playlist_or_sink
             (mkProps (Some trackA) [] true)). left. reflexivity.
  - apply (advance_is_noop_without_playlist_or_sink
             (mkProps (Some trackA) playlistABC false)). right. reflexivity.
Defined.

(** C5.  On a non-empty playlist (whose last element is [lastT]) with a sink
    registered, [handlePrevious] hands the sink the element just before the
    current track; it hands it the last element when the current track is
    the first one, and also when no playlist element carries the current
    track's identifier. *)
Theorem handlePrevious_selects_previous_or_last
  (p : Props) (s : State) (lastT : Track) :
  onTrackChange p = true ->
  nth_error (playlist p) (List.length (playlist p) - 1) = Some lastT ->
  (forall k c t,
      NoDup (map id (playlist p)) ->
      currentTrack p = Some c ->
      nth_error (playlist p) (S k) = Some c ->
      nth_error (playlist p) k = Some t ->
      handlePrevious p s = Ok (call_onTrackChange (Some t) s)) /\
  (forall c,
      NoDup (map id (playlist p)) ->
      currentTrack p = Some c ->
      nth_error (playlist p) 0 = Some c ->
      handlePrevious p s = Ok (call_onTrackChange (Some lastT) s)) /\
  ((forall x, In x (playlist p) -> id x <> optional_id (currentTrack p)) ->
   handlePrevious p s = Ok (call_onTrackChange (Some lastT) s)).
Proof.
  intros Hsink Hlast.
  assert (playlist p <> []) as Hne
    by (intro E; rewrite E in Hlast; discriminate).
  pose proof (nothing_to_do_false p Hne Hsink) as G.
  assert (array_get (playlist p) (array_length (playlist p) - 1) = Some lastT)
    as Hget.
  { unfold array_length.
    replace (Z.of_nat (List.length (playlist p)) - 1)
      with (Z.of_nat (List.length (playlist p) - 1)).
    - now rewrite array_get_of_nat.
    - destruct (playlist p); [congruence | simpl List.length; lia]. }
  rewrite (handlePrevious_unfold p s G).
  split; [|split].
  - intros k c t Hnd Hc Hk Ht.
    rewrite (currentIndex_nth p (S k) c Hnd Hc Hk).
    destruct (Z.of_nat (S k) >? 0) eqn:E.
    + replace (Z.of_nat (S k) - 1) with (Z.of_nat k) by lia.
      now rewrite array_get_of_nat, Ht.
    + rewrite Z.gtb_ltb in E. apply Z.ltb_ge in E. lia.
  - intros c Hnd Hc H0.
    rewrite (currentIndex_nth p 0 c Hnd Hc H0). simpl. now rewrite Hget.
  - intro Habs. rewrite (currentIndex_absent p Habs). simpl. now rewrite Hget.
Qed.

Lemma handlePrevious_selects_previous_or_last_witness :
  handlePrevious (propsABC trackC) (playerState false off None)
  = Ok (call_onTrackChange (Some trackB) (playerState false off None)) /\
  handlePrevious (propsABC trackA) (playerState false off None)
  = Ok (call_onTrackChange (Some trackC) (playerState false off None)) /\
  handlePrevious (propsOn playlistABC None) (playerState false off None)
  = Ok (call_onTrackChange (Some trackC) (playerState false off None)).
Proof.
  split; [|split].
  - apply (proj1 (handlePrevious_selects_previous_or_last
                    (propsABC trackC) (playerState false off None) trackC
                    eq_refl eq_refl) 1%nat trackC trackB);
      [exact playlistABC_NoDup | reflexivity | reflexivity | reflexivity].
  - apply (proj1 (proj2 (handlePrevious_selects_previous_or_last
                    (propsABC trackA) (playerState false off None) trackC
                    eq_refl eq_refl)) trackA);
      [exact playlistABC_NoDup | reflexivity | reflexivity].
  - apply (proj2 (proj2 (handlePrevious_selects_previous_or_last
                    (propsOn playlistABC None) (playerState false off None)
                    trackC eq_refl eq_refl))).
    intros x Hx. simpl in Hx.
    destruct Hx as [<- | [<- | [<- | []]]]; discriminate.
Defined.

(** Shared facts about the natural-order branch of [handleNext]. *)
Lemma handleNext_stops_at_last (p : Props) (rnd : Q) (s : State) :
  nothing_to_do p = false ->
  repeatMode s = off ->
  currentIndex p = array_length (playlist p) - 1 ->
  handleNext p rnd s = Ok (setIsPlaying false s).
Proof.
  intros G M E.
  rewrite (handleNext_unfold p rnd s G) by (rewrite M; discriminate).
  rewrite M, E, Z.eqb_refl. reflexivity.
Qed.

Lemma handleNext_natural_order (p : Props) (rnd : Q) (s : State) :
  nothing_to_do p = false ->
  repeatMode s <> one ->
  isShuffled s = false ->
  repeatMode s = all \/ currentIndex p <> array_length (playlist p) - 1 ->
  handleNext p rnd s =
  Ok (call_onTrackChange
        (array_get (playlist p)
           (if currentIndex p <? array_length (playlist p) - 1
            then currentIndex p + 1 else 0)) s).
Proof.
  intros G M Sh H. rewrite (handleNext_unfold p rnd s G M), Sh.
  destruct H as [A | N].
  - rewrite A. reflexivity.
  - apply Z.eqb_neq in N. rewrite N, andb_false_r. reflexivity.
Qed.

Lemma last_index_of_nat {A} (l : list A) (x : A) :
  nth_error l (List.length l - 1) = Some x ->
  Z.of_nat (List.length l - 1) = array_length l - 1.
Proof.
  unfold array_length. destruct l; simpl List.length; [discriminate | lia].
Qed.

(** C1, as the code has it.  On a playlist of [n >= 2] tracks without
    duplicate identifiers, shuffle off, repeat off and a sink registered,
    [handleNext] from index [i < n - 1] hands the sink the track at index
    [i + 1] (which is [(i + 1) mod n]); from the last index it does not
    call the sink: it sets [isPlaying] to false and changes nothing else. *)
Theorem handleNext_repeat_off_steps_then_stops
  (p : Props) (rnd : Q) (s : State) (i : nat) (c : Track) :
  2 <= array_length (playlist p) ->
  isShuffled s = false ->
  repeatMode s = off ->
  onTrackChange p = true ->
  NoDup (map id (playlist p)) ->
  currentTrack p = Some c ->
  nth_error (playlist p) i = Some c ->
  (Z.of_nat i < array_length (playlist p) - 1 ->
   exists t,
     array_get (playlist p) ((Z.of_nat i + 1) mod array_length (playlist p))
     = Some t /\
     nth_error (playlist p) (S i) = Some t /\
     handleNext p rnd s = Ok (call_onTrackChange (Some t) s)) /\
  (Z.of_nat i = array_length (playlist p) - 1 ->
   handleNext p rnd s = Ok (setIsPlaying false s)).
Proof.
  intros Hn Sh M Hsink Hnd Hc Hi.
  assert (playlist p <> []) as Hne
    by (intro E; rewrite E in Hn; unfold array_length in Hn; simpl in Hn; lia).
  pose proof (nothing_to_do_false p Hne Hsink) as G.
  pose proof (currentIndex_nth p i c Hnd Hc Hi) as Hci.
  split.
  - intro Hlt.
    rewrite Z.mod_small by lia.
    destruct (array_get_in_range (playlist p) (Z.of_nat i + 1)) as [t [Ht _]];
      [lia|].
    exists t. split; [assumption|].
    assert (nth_error (playlist p) (S i) = Some t) as Hs.
    { rewrite <- array_get_of_nat.
      now replace (Z.of_nat (S i)) with (Z.of_nat i + 1) by lia. }
    split; [assumption|].
    rewrite (handleNext_natural_order p rnd s G) ;
      [| rewrite M; discriminate | assumption | right; lia].
    rewrite Hci. destruct (Z.of_nat i <? _) eqn:E.
    + now rewrite Ht.
    + apply Z.ltb_ge in E. lia.
  - intro Hlast. apply handleNext_stops_at_last; try assumption. lia.
Qed.

Lemma handleNext_repeat_off_steps_then_stops_witness :
  (exists t,
     array_get playlistABC ((Z.of_nat 1 + 1) mod array_length playlistABC)
     = Some t /\
     nth_error playlistABC 2 = Some t /\
     handleNext (propsABC trackB) (1 # 2) (playerState false off None)
     = Ok (call_onTrackChange (Some t) (playerState false off None))) /\
  handleNext (propsABC trackC) (1 # 2) (playerState false off None)
  = Ok (setIsPlaying false (playerState false off None)).
Proof.
  split.
  - apply (proj1 (handleNext_repeat_off_steps_then_stops
                    (propsABC trackB) (1 # 2) (playerState false off None)
                    1%nat trackB ltac:(vm_compute; discriminate) eq_refl eq_refl eq_refl
                    playlistABC_NoDup eq_refl eq_refl)).
    reflexivity.
  - apply (proj2 (handleNext_repeat_off_steps_then_stops
                    (propsABC trackC) (1 # 2) (playerState false off None)
                    2%nat trackC ltac:(vm_compute; discriminate) eq_refl eq_refl eq_refl
                    playlistABC_NoDup eq_refl eq_refl)).
    reflexivity.
Defined.

(** C1 as stated fails at the last index: on [A, B, C] with [C] current,
    shuffle off and repeat off, [(2 + 1) mod 3 = 0] names [A], but
    [handleNext] stops playback and the sink receives nothing. *)
Lemma handleNext_repeat_off_last_index_no_wrap :
  array_get playlistABC ((2 + 1) mod array_length playlistABC) = Some trackA /\
  handleNext (propsABC trackC) (1 # 2)
    (playerState false off (Some (playing_audio "blob:c" 42)))
  = Ok (setIsPlaying false
          (playerState false off (Some (playing_audio "blob:c" 42)))) /\
  trackChanges
    (state_of (handleNext (propsABC trackC) (1 # 2)
                 (playerState false off (Some (playing_audio "blob:c" 42)))))
  = [] /\
  handleNext (propsABC trackC) (1 # 2)
    (playerState false off (Some (playing_audio "blob:c" 42)))
  <> Ok (call_onTrackChange (Some trackA)
           (playerState false off (Some (playing_audio "blob:c" 42)))).
Proof.
  repeat split; try reflexivity. discriminate.
Qed.

End AudioPlayerClaims.

(* ------------------------------------------------------------------ *)
(** ** The application shell: [skipTrack] and [onEnded] *)

Lemma shell_currentIndex_range (s : App.State) :
  -1 <= App.currentIndex s < array_length (App.tracks s).
Proof. apply findIndex_range. Qed.

Lemma skipTrack_nextIndex_range (direction : string) (s : App.State) :
  App.tracks s <> [] ->
  0 <= App.skipTrack_nextIndex direction s < array_length (App.tracks s).
Proof.
  intro Hne.
  assert (0 < array_length (App.tracks s)) as Hn.
  { pose proof (array_length_nonneg (App.tracks s)).
    assert (array_length (App.tracks s) <> 0)
      by (intro E; now apply array_length_zero in E).
    lia. }
  pose proof (shell_currentIndex_range s) as R.
  unfold App.skipTrack_nextIndex.
  destruct (String.eqb direction "next").
  - destruct (_ >=? _) eqn:E; [lia|].
    rewrite Z.geb_leb in E. apply Z.leb_gt in E. lia.
  - destruct (_ <? _) eqn:E; [lia|]. apply Z.ltb_ge in E. lia.
Qed.

(** [skipTrack] does nothing on an empty track list, and otherwise calls
    [playTrack] on an element of the list. *)
Lemma skipTrack_plays_a_track (direction : string) (s : App.State) :
  (App.tracks s = [] /\ App.skipTrack direction s = Ok s) \/
  (exists i t,
      0 <= i < array_length (App.tracks s) /\
      array_get (App.tracks s) i = Some t /\
      In t (App.tracks s) /\
      App.skipTrack direction s = App.playTrack (Some t) s).
Proof.
  destruct (App.tracks s) as [|x l] eqn:T.
  - left. split; [reflexivity|]. unfold App.skipTrack. now rewrite T.
  - right.
    assert (App.tracks s <> []) as Hne by (rewrite T; discriminate).
    pose proof (skipTrack_nextIndex_range direction s Hne) as R.
    destruct (array_get_in_range _ _ R) as [t [Ht Hin]].
    exists (App.skipTrack_nextIndex direction s), t.
    rewrite <- T. repeat split; try assumption; try lia.
    unfold App.skipTrack. rewrite Ht.
    destruct (array_length (App.tracks s) =? 0) eqn:E; [|reflexivity].
    apply Z.eqb_eq, array_length_zero in E. contradiction.
Qed.

(* ------------------------------------------------------------------ *)
(** ** Claims that span the component and the shell *)

(** C10.  Whenever [handlePrevious] or [handleNext] calls the
    [onTrackChange] sink, and whenever [skipTrack] calls [playTrack], the
    argument is the playlist element at an index between [0] and
    [length - 1]: this covers the random draw (for any value in [[0,1)]
    that [Math.random] returns), the natural next with its wrap, the
    previous with its wrap and the case where [findIndex] answers [-1]. *)
Theorem traversal_selects_only_playlist_elements :
  (forall p s,
      sink_untouched_or_fed_from (AudioPlayer.playlist p) s
        (state_of (AudioPlayer.handlePrevious p s))) /\
  (forall p rnd s,
      (0 <= rnd)%Q -> (rnd < 1)%Q ->
      sink_untouched_or_fed_from (AudioPlayer.playlist p) s
        (state_of (AudioPlayer.handleNext p rnd s))) /\
  (forall direction s,
      (App.tracks s = [] /\ App.skipTrack direction s = Ok s) \/
      (exists i t,
          0 <= i < array_length (App.tracks s) /\
          array_get (App.tracks s) i = Some t /\
          In t (App.tracks s) /\
          App.skipTrack direction s = App.playTrack (Some t) s)).
Proof.
  split; [|split].
  - exact handlePrevious_feeds_from_playlist.
  - exact handleNext_feeds_from_playlist.
  - exact skipTrack_plays_a_track.
Qed.

Lemma traversal_selects_only_playlist_elements_witness :
  sink_untouched_or_fed_from playlistABC
    (playerState true AudioPlayer.all None)
    (state_of (AudioPlayer.handleNext (propsABC trackB) (2 # 3)
                 (playerState true AudioPlayer.all None))).
Proof.
  apply (proj1 (proj2 traversal_selects_only_playlist_elements)
           (propsABC trackB) (2 # 3) (playerState true AudioPlayer.all None)).
  - unfold Qle. simpl. lia.
  - reflexivity.
Defined.

(** C2.  In the component, with repeat off and shuffle off, a track that
    ends at the last playlist index makes [handleNext] set [isPlaying] to
    false without calling the sink.  The shell's [onEnded] handler does the
    same only for a list of at most one track: on [A, B, C] with [C]
    current and repeat none it hands [A] to [playTrack] and [A] becomes the
    current track. *)
Theorem track_end_at_last_index_with_repeat_off :
  (forall p rnd s c,
      AudioPlayer.repeatMode s = AudioPlayer.off ->
      AudioPlayer.isShuffled s = false ->
      AudioPlayer.onTrackChange p = true ->
      NoDup (map id (AudioPlayer.playlist p)) ->
      AudioPlayer.currentTrack p = Some c ->
      nth_error (AudioPlayer.playlist p)
                (List.length (AudioPlayer.playlist p) - 1) = Some c ->
      AudioPlayer.handleNext p rnd s = Ok (AudioPlayer.setIsPlaying false s) /\
      AudioPlayer.isPlaying (AudioPlayer.setIsPlaying false s) = false /\
      AudioPlayer.trackChanges (AudioPlayer.setIsPlaying false s)
      = AudioPlayer.trackChanges s) /\
  (forall s,
      App.repeatMode s = App.none ->
      array_length (App.tracks s) <= 1 ->
      App.onEnded s = Ok (App.setIsPlaying false s)) /\
  (App.onEnded (shellState playlistABC (Some trackC) App.none
                  (Some (ended_audio "blob:c" 180)))
   = Ok (shellState playlistABC (Some trackA) App.none
           (Some (audio_load "blob:a" (ended_audio "blob:c" 180)))) /\
   App.currentTrack
     (state_of (App.onEnded (shellState playlistABC (Some trackC) App.none
                               (Some (ended_audio "blob:c" 180)))))
   <> Some trackC /\
   App.isPlaying
     (state_of (App.onEnded (shellState playlistABC (Some trackC) App.none
                               (Some (ended_audio "blob:c" 180)))))
   = true).
Proof.
  split; [|split].
  - intros p rnd s c M Sh Hsink Hnd Hc Hlast.
    split; [|split; reflexivity].
    assert (AudioPlayer.playlist p <> []) as Hne
      by (intro E; rewrite E in Hlast; discriminate).
    apply handleNext_stops_at_last;
      [now apply nothing_to_do_false | assumption |].
    rewrite (currentIndex_nth p _ c Hnd Hc Hlast).
    now apply last_index_of_nat with (x := c).
  - intros s M Hn. unfold App.onEnded. rewrite M. simpl.
    destruct (array_length (App.tracks s) >? 1) eqn:E; [|reflexivity].
    apply Z.gtb_lt in E. lia.
  - repeat split; try reflexivity. discriminate.
Qed.

Lemma track_end_at_last_index_with_repeat_off_witness :
  AudioPlayer.handleNext (propsABC trackC) (1 # 2)
    (playerState false AudioPlayer.off (Some (ended_audio "blob:c" 180)))
  = Ok (AudioPlayer.setIsPlaying false
          (playerState false AudioPlayer.off (Some (ended_audio "blob:c" 180)))) /\
  App.onEnded (shellState [trackC] (Some trackC) App.none
                 (Some (ended_audio "blob:c" 180)))
  = Ok (App.setIsPlaying false
          (shellState [trackC] (Some trackC) App.none
             (Some (ended_audio "blob:c" 180)))).
Proof.
  split.
  - apply (proj1 track_end_at_last_index_with_repeat_off
             (propsABC trackC) (1 # 2)
             (playerState false AudioPlayer.off
                (Some (ended_audio "blob:c" 180)))
             trackC eq_refl eq_refl eq_refl playlistABC_NoDup
             eq_refl eq_refl).
  - apply (proj1 (proj2 track_end_at_last_index_with_repeat_off)
             (shellState [trackC] (Some trackC) App.none
                (Some (ended_audio "blob:c" 180)))
             eq_refl).
    vm_compute. discriminate.
Defined.

(** C3.  Repeat one is honoured at track end only when it was already set
    when the track became current.  The 'ended' listener calls the
    [handleNext] of the render in which the current track last changed:
    with [B] mounted under repeat off and repeat one chosen while [B]
    plays (two presses of the repeat button), the end of [B] hands [C] to
    the sink and the element stays at its end, 180 s, instead of being
    restarted.  Mounted under repeat one, the same end of track calls no
    sink and puts the element back at position 0. *)
Theorem ended_listener_misses_repeat_one_set_during_track :
  (AudioPlayer.repeatMode
     (AudioPlayerEffects.state
        (AudioPlayerEffects.click_repeat
           (AudioPlayerEffects.click_repeat
              (AudioPlayerEffects.mounted_on trackB AudioPlayer.off))))
   = AudioPlayer.one /\
   option_map AudioPlayerEffects.render_repeatMode
     (AudioPlayerEffects.endedListener
        (AudioPlayerEffects.click_repeat
           (AudioPlayerEffects.click_repeat
              (AudioPlayerEffects.mounted_on trackB AudioPlayer.off))))
   = Some AudioPlayer.off /\
   AudioPlayer.trackChanges
     (AudioPlayerEffects.state
        (AudioPlayerEffects.track_ends (1 # 2)
           (AudioPlayerEffects.click_repeat
              (AudioPlayerEffects.click_repeat
                 (AudioPlayerEffects.mounted_on trackB AudioPlayer.off)))))
   = [Some trackC] /\
   option_map a_currentTime
     (AudioPlayer.audioRef
        (AudioPlayerEffects.state
           (AudioPlayerEffects.track_ends (1 # 2)
              (AudioPlayerEffects.click_repeat
                 (AudioPlayerEffects.click_repeat
                    (AudioPlayerEffects.mounted_on trackB AudioPlayer.off))))))
   = Some 180%Q /\
   option_map a_ended
     (AudioPlayer.audioRef
        (AudioPlayerEffects.state
           (AudioPlayerEffects.track_ends (1 # 2)
              (AudioPlayerEffects.click_repeat
                 (AudioPlayerEffects.click_repeat
                    (AudioPlayerEffects.mounted_on trackB AudioPlayer.off))))))
   = Some true) /\
  (AudioPlayer.trackChanges
     (AudioPlayerEffects.state
        (AudioPlayerEffects.track_ends (1 # 2)
           (AudioPlayerEffects.mounted_on trackB AudioPlayer.one)))
   = [] /\
   option_map a_currentTime
     (AudioPlayer.audioRef
        (AudioPlayerEffects.state
           (AudioPlayerEffects.track_ends (1 # 2)
              (AudioPlayerEffects.mounted_on trackB AudioPlayer.one))))
   = Some 0%Q).
Proof.
  split; repeat split; reflexivity.
Qed.

(** C4.  Repeat all is honoured at track end only when it was already set
    when the track became current.  With [C], the last track, mounted
    under repeat off and repeat all chosen while [C] plays (one press of
    the repeat button), the end of [C] runs the [handleNext] that still
    sees repeat off: [isPlaying] becomes false and the sink is not called.
    Mounted under repeat all, the same end of track hands [A] to the sink
    and leaves [isPlaying] true. *)
Theorem ended_listener_misses_repeat_all_set_during_track :
  (AudioPlayer.repeatMode
     (AudioPlayerEffects.state
        (AudioPlayerEffects.click_repeat
           (AudioPlayerEffects.mounted_on trackC AudioPlayer.off)))
   = AudioPlayer.all /\
   option_map AudioPlayerEffects.render_repeatMode
     (AudioPlayerEffects.endedListener
        (AudioPlayerEffects.click_repeat
           (AudioPlayerEffects.mounted_on trackC AudioPlayer.off)))
   = Some AudioPlayer.off /\
   AudioPlayer.trackChanges
     (AudioPlayerEffects.state
        (AudioPlayerEffects.track_ends (1 # 2)
           (AudioPlayerEffects.click_repeat
              (AudioPlayerEffects.mounted_on trackC AudioPlayer.off))))
   = [] /\
   AudioPlayer.isPlaying
     (AudioPlayerEffects.state
        (AudioPlayerEffects.track_ends (1 # 2)
           (AudioPlayerEffects.click_repeat
              (AudioPlayerEffects.mounted_on trackC AudioPlayer.off))))
   = false) /\
  (AudioPlayer.trackChanges
     (AudioPlayerEffects.state
        (AudioPlayerEffects.track_ends (1 # 2)
           (AudioPlayerEffects.mounted_on trackC AudioPlayer.all)))
   = [Some trackA] /\
   AudioPlayer.isPlaying
     (AudioPlayerEffects.state
        (AudioPlayerEffects.track_ends (1 # 2)
           (AudioPlayerEffects.mounted_on trackC AudioPlayer.all)))
   = true).
Proof.
  split; repeat split; reflexivity.
Qed.

(** The guard comes before the repeat-one branch: on the empty playlist,
    with repeat one and track [A] ended at 180 s, [handleNext] returns at
    once; the element is still at its end, at 180 s. *)
Lemma handleNext_repeat_one_empty_playlist_no_restart :
  AudioPlayer.handleNext (propsOn [] (Some trackA)) (1 # 2)
    (playerState false AudioPlayer.one (Some (ended_audio "blob:a" 180)))
  = Ok (playerState false AudioPlayer.one (Some (ended_audio "blob:a" 180))) /\
  option_map a_currentTime
    (AudioPlayer.audioRef
       (state_of (AudioPlayer.handleNext (propsOn [] (Some trackA)) (1 # 2)
                    (playerState false AudioPlayer.one
                       (Some (ended_audio "blob:a" 180))))))
  = Some 180%Q /\
  ~ (180 == 0)%Q /\
  option_map a_ended
    (AudioPlayer.audioRef
       (state_of (AudioPlayer.handleNext (propsOn [] (Some trackA)) (1 # 2)
                    (playerState false AudioPlayer.one
                       (Some (ended_audio "blob:a" 180))))))
  = Some true.
Proof.
  repeat split; try reflexivity. discriminate.
Qed.

(* ------------------------------------------------------------------ *)
(** ** AudioUtils: sampling *)

Section Sampling.
Import AudioUtils.

Lemma fill_from_length (a : AnalyserNode) (arr : Uint8Array) (i : nat) :
  List.length (fill_from a i arr) = List.length arr.
Proof.
  revert i. induction arr as [|b rest IH]; intro i; simpl; [reflexivity|].
  now rewrite IH.
Qed.

Lemma getFrequencyData_length (a : AnalyserNode) :
  List.length (getFrequencyData (Some a)) = frequencyBinCount a.
Proof.
  unfold getFrequencyData, getByteFrequencyData, new_Uint8Array.
  now rewrite fill_from_length, repeat_length.
Qed.

(** C7, as the code has it.  Without an analyser [getFrequencyData]
    returns the buffer [new Uint8Array(0)]: it has no element (so none that
    is not zero) and length 0; with an analyser the buffer has as many
    elements as the analyser has bins. *)
Theorem getFrequencyData_without_analyser_is_empty :
  getFrequencyData None = new_Uint8Array 0 /\
  List.length (getFrequencyData None) = 0%nat /\
  Forall (fun b => b = Byte.x00) (getFrequencyData None) /\
  (forall a, List.length (getFrequencyData (Some a)) = frequencyBinCount a).
Proof.
  repeat split; try reflexivity.
  - constructor.
  - exact getFrequencyData_length.
Qed.

(** C7 as stated fails: the buffer returned without an analyser has
    length 0, which is neither the 128 bins of the analyser that
    [createAudioContext] configures nor the 1024 bins of the hook's. *)
Lemma getFrequencyData_without_analyser_not_bin_count :
  List.length (getFrequencyData None) = 0%nat /\
  frequencyBinCount (silent_analyser util_fftSize) = 128%nat /\
  frequencyBinCount (silent_analyser hook_fftSize) = 1024%nat /\
  List.length (getFrequencyData None)
  <> frequencyBinCount (silent_analyser util_fftSize) /\
  List.length (getFrequencyData None)
  <> frequencyBinCount (silent_analyser hook_fftSize) /\
  List.length (getFrequencyData None)
  <> List.length (getFrequencyData (Some (silent_analyser hook_fftSize))).
Proof.
  repeat split; try reflexivity.
  - vm_compute. discriminate.
  - vm_compute. discriminate.
  - rewrite getFrequencyData_length. vm_compute. discriminate.
Qed.

End Sampling.

(* ------------------------------------------------------------------ *)
(** ** AudioUtils: the band summary *)

Section BandSummary.
Import AudioUtils.

Lemma byte_value_range (b : Byte.byte) : 0 <= byte_value b <= 255.
Proof.
  unfold byte_value. pose proof (Byte.to_N_bounded b). lia.
Qed.

Lemma bins_total_range (l : Uint8Array) :
  0 <= bins_total l <= 255 * array_length l.
Proof.
  induction l as [|b l IH].
  - unfold array_length. simpl. lia.
  - rewrite array_length_cons.
    change (bins_total (b :: l)) with (byte_value b + bins_total l).
    pose proof (byte_value_range b). lia.
Qed.

Lemma skipn_cons_nth {A} (l : list A) (n : nat) (d : A) :
  (n < List.length l)%nat -> skipn n l = nth n l d :: skipn (S n) l.
Proof.
  revert n. induction l as [|x l IH]; intros n H; simpl in H; [lia|].
  destruct n as [|n]; [reflexivity|].
  simpl. apply IH. lia.
Qed.

(** The summing loop adds up the run of bins it walks over. *)
Lemma fold_bins_run (data : Uint8Array) (k lo : nat) (acc : Z) :
  (lo + k <= List.length data)%nat ->
  fold_left (fun acc i => acc + byte_value (nth i data Byte.x00))
            (seq lo k) acc
  = acc + bins_total (firstn k (skipn lo data)).
Proof.
  revert lo acc. induction k as [|k IH]; intros lo acc H; simpl.
  - lia.
  - rewrite IH by lia.
    rewrite (skipn_cons_nth data lo Byte.x00) by lia. simpl. lia.
Qed.

Lemma sum_bins_run (data : Uint8Array) (lo hi : Z) :
  0 <= lo <= hi -> hi <= array_length data ->
  sum_bins data lo hi 0
  = bins_total (firstn (Z.to_nat (hi - lo)) (skipn (Z.to_nat lo) data)).
Proof.
  unfold array_length. intros H1 H2. unfold sum_bins.
  rewrite fold_bins_run by lia. lia.
Qed.

Lemma js_div_finite (p q : Q) :
  ~ (q == 0)%Q -> js_div (Fin p) (Fin q) = Fin (p / q).
Proof.
  intro H. simpl. destruct (Qeq_bool q 0) eqn:E; [|reflexivity].
  apply Qeq_bool_iff in E. contradiction.
Qed.

(** [total / count / 255] is a finite number once the run is not empty. *)
Lemma js_mean_finite (total count : Z) :
  count <> 0 ->
  js_div (js_div (Fin (inject_Z total)) (Fin (inject_Z count))) (Fin 255)
  = Fin (inject_Z total / inject_Z count / 255).
Proof.
  intro H. rewrite js_div_finite.
  - apply js_div_finite. discriminate.
  - unfold Qeq. simpl. lia.
Qed.

Lemma normalized_mean_in_unit_interval (l : Uint8Array) :
  l <> [] -> in_unit_interval (normalized_mean l).
Proof.
  intro Hne. unfold in_unit_interval, normalized_mean.
  pose proof (bins_total_range l) as [Hlo Hhi].
  assert (0 < array_length l) as Hn.
  { pose proof (array_length_nonneg l).
    assert (array_length l <> 0)
      by (intro E; now apply array_length_zero in E).
    lia. }
  assert (0 < inject_Z (array_length l))%Q as Hn'
    by (change 0%Q with (inject_Z 0); now rewrite <- Zlt_Qlt).
  split.
  - apply Qle_shift_div_l; [reflexivity|].
    apply Qle_shift_div_l; [assumption|].
    setoid_replace (0 * 255 * inject_Z (array_length l))%Q with 0%Q by ring.
    change 0%Q with (inject_Z 0). now rewrite <- Zle_Qle.
  - apply Qle_shift_div_r; [reflexivity|].
    apply Qle_shift_div_r; [assumption|].
    change 255%Q with (inject_Z 255).
    setoid_replace (1 * inject_Z 255 * inject_Z (array_length l))%Q
      with (inject_Z (255 * array_length l))
      by (rewrite inject_Z_mult; ring).
    now rewrite <- Zle_Qle.
Qed.

Lemma floor_tenths (n : Z) : Qfloor (inject_Z n * (1 # 10)) = n / 10.
Proof. unfold Qfloor, inject_Z, Qmult. simpl. now rewrite Z.mul_1_r. Qed.

Lemma floor_four_tenths (n : Z) : Qfloor (inject_Z n * (4 # 10)) = (n * 4) / 10.
Proof. unfold Qfloor, inject_Z, Qmult. simpl. reflexivity. Qed.


(** C8.  An empty sample gives [bass = mid = treble = 0].  A sample of at
    least ten bins splits into three contiguous, non-empty runs
    [lows ++ mids ++ highs]: [lows] are the bins below [floor(n / 10)],
    [mids] the bins from there up to [floor(4 n / 10)], [highs] the rest;
    each band is the arithmetic mean of its run divided by 255, a number
    between 0 and 1. *)
Theorem getFrequencyBins_band_means :
  getFrequencyBins [] = {| bass := Fin 0; mid := Fin 0; treble := Fin 0 |} /\
  forall data : Uint8Array,
    (10 <= List.length data)%nat ->
    exists lows mids highs : Uint8Array,
      data = lows ++ mids ++ highs /\
      array_length lows = array_length data / 10 /\
      array_length lows + array_length mids = (array_length data * 4) / 10 /\
      lows <> [] /\ mids <> [] /\ highs <> [] /\
      getFrequencyBins data =
      {| bass := Fin (normalized_mean lows);
         mid := Fin (normalized_mean mids);
         treble := Fin (normalized_mean highs) |} /\
      in_unit_interval (normalized_mean lows) /\
      in_unit_interval (normalized_mean mids) /\
      in_unit_interval (normalized_mean highs).
Proof.
  split; [reflexivity|].
  intros data Hlen.
  set (n := array_length data).
  assert (10 <= n) as Hn by (unfold n, array_length; lia).
  set (b := n / 10). set (m := (n * 4) / 10).
  assert (1 <= b /\ b < m /\ m < n) as (Hb & Hbm & Hmn)
    by (unfold b, m; Z.div_mod_to_equations; lia).
  set (lows := firstn (Z.to_nat b) data).
  set (mids := firstn (Z.to_nat (m - b)) (skipn (Z.to_nat b) data)).
  set (highs := skipn (Z.to_nat m) data).
  assert (List.length data = Z.to_nat n) as Hdata
    by (unfold n, array_length; lia).
  assert (array_length lows = b) as Llows.
  { unfold array_length, lows. rewrite length_firstn. lia. }
  assert (array_length mids = m - b) as Lmids.
  { unfold array_length, mids. rewrite length_firstn, length_skipn. lia. }
  assert (array_length highs = n - m) as Lhighs.
  { unfold array_length, highs. rewrite length_skipn. lia. }
  assert (forall l : Uint8Array, 0 < array_length l -> l <> []) as Hpos.
  { intros l H E. rewrite E in H. unfold array_length in H. simpl in H. lia. }
  assert (lows <> []) as Nlows by (apply Hpos; lia).
  assert (mids <> []) as Nmids by (apply Hpos; lia).
  assert (highs <> []) as Nhighs by (apply Hpos; lia).
  exists lows, mids, highs.
  split.
  { unfold lows, mids, highs.
    rewrite <- (firstn_skipn (Z.to_nat b) data) at 1. f_equal.
    rewrite <- (firstn_skipn (Z.to_nat (m - b)) (skipn (Z.to_nat b) data)) at 1.
    f_equal. rewrite skipn_skipn. f_equal. lia. }
  split; [exact Llows|].
  split; [rewrite Llows, Lmids; fold m; lia|].
  split; [assumption|]. split; [assumption|]. split; [assumption|].
  split.
  { unfold getFrequencyBins. fold n.
    replace (n =? 0) with false by (symmetry; apply Z.eqb_neq; lia).
    rewrite floor_tenths, floor_four_tenths. fold b. fold m.
    rewrite (sum_bins_run data 0 b) by (fold n; lia).
    rewrite (sum_bins_run data b m) by (fold n; lia).
    rewrite (sum_bins_run data m n) by (fold n; lia).
    rewrite !js_mean_finite by lia.
    unfold normalized_mean. rewrite Llows, Lmids, Lhighs.
    rewrite Z.sub_0_r. change (Z.to_nat 0) with 0%nat. rewrite skipn_O.
    fold lows. fold mids.
    replace (firstn (Z.to_nat (n - m)) (skipn (Z.to_nat m) data)) with highs
      by (unfold highs; symmetry; apply firstn_all2;
          rewrite length_skipn; lia).
    reflexivity. }
  split; [|split]; now apply normalized_mean_in_unit_interval.
Qed.

Lemma getFrequencyBins_band_means_witness :
  exists lows mids highs : Uint8Array,
    sample16 = lows ++ mids ++ highs /\
    array_length lows = array_length sample16 / 10 /\
    array_length lows + array_length mids = (array_length sample16 * 4) / 10 /\
    lows <> [] /\ mids <> [] /\ highs <> [] /\
    getFrequencyBins sample16 =
    {| bass := Fin (normalized_mean lows);
       mid := Fin (normalized_mean mids);
       treble := Fin (normalized_mean highs) |} /\
    in_unit_interval (normalized_mean lows) /\
    in_unit_interval (normalized_mean mids) /\
    in_unit_interval (normalized_mean highs).
Proof.
  apply (proj2 getFrequencyBins_band_means sample16).
  simpl. lia.
Defined.

(** The bands of [sample16]: one low bin, five middle bins, ten high bins. *)
Example getFrequencyBins_sample16 :
  getFrequencyBins sample16 =
  {| bass := Fin (inject_Z 255 / inject_Z 1 / 255);
     mid := Fin (inject_Z (128 + 64 + 32 + 16 + 8) / inject_Z 5 / 255);
     treble := Fin (inject_Z (4 + 2 + 1 + 0 + 0 + 10 + 20 + 30 + 40 + 50)
                    / inject_Z 10 / 255) |}.
Proof. reflexivity. Qed.

(** Where the ten-bin bound comes from: an analyser's [fftSize] is at least
    32, so a buffer read from it has at least 16 bins; the hook's analyser
    delivers 1024. *)
Lemma analyser_sample_has_ten_bins (a : AnalyserNode) :
  (32 <= fftSize a)%nat ->
  (10 <= List.length (getFrequencyData (Some a)))%nat.
Proof.
  intro H. rewrite getFrequencyData_length. unfold frequencyBinCount.
  apply Nat.le_trans with (Nat.div 32 2); [simpl; lia|].
  now apply Nat.Div0.div_le_mono.
Qed.

(** Below ten bins the low run is empty and its mean is [0 / 0]; no
    analyser delivers such a buffer. *)
Remark getFrequencyBins_five_bins :
  bass (getFrequencyBins [Byte.x10; Byte.x20; Byte.x30; Byte.x40; Byte.x50])
  = NaN.
Proof. reflexivity. Qed.

End BandSummary.

(* ------------------------------------------------------------------ *)
(** ** Volume *)

Lemma clamp_finite (q : Q) :
  Math_max (Fin 0) (Math_min (Fin 1) (Fin q)) = Fin (clamp01 q).
Proof. reflexivity. Qed.

Lemma clamp01_in_unit_interval (q : Q) : in_unit_interval (clamp01 q).
Proof.
  unfold in_unit_interval, clamp01. split.
  - apply Q.le_max_l.
  - apply Q.max_lub; [discriminate | apply Q.le_min_l].
Qed.

Lemma audio_set_volume_in_range (v : Q) (a : HTMLAudioElement) :
  in_unit_interval v ->
  audio_set_volume (Fin v) a
  = Ok (mkAudio (a_src a) (a_currentTime a) v (a_paused a) (a_ended a)).
Proof.
  intros [Hlo Hhi]. unfold audio_set_volume.
  apply Qle_bool_iff in Hlo. apply Qle_bool_iff in Hhi.
  now rewrite Hlo, Hhi.
Qed.

Section Volume.
Import AudioPlayer.

(** C9, as the code has it.  A click on a bar of positive width asks for
    the level [(clientX - left) / width]; [handleVolumeChange] stores that
    level clamped into [0,1], applies the same value to the audio element,
    and sets the mute flag to true exactly when the clamped value is 0
    (false otherwise).  The hook's [setVolume] puts the clamped level on
    the gain node when there is one.  Levels 1.4 and -0.2 clamp to 1 and
    0. *)
Theorem volume_is_clamped_and_mute_follows_zero :
  (forall e s,
      (0 < rect_width e)%Q ->
      exists s',
        handleVolumeChange e s = Ok s' /\
        volume s' = Fin (clamp01 ((clientX e - rect_left e) / rect_width e)) /\
        in_unit_interval (clamp01 ((clientX e - rect_left e) / rect_width e)) /\
        (forall a, audioRef s = Some a ->
                   exists a', audioRef s' = Some a' /\
                   a_volume a'
                   = clamp01 ((clientX e - rect_left e) / rect_width e)) /\
        isMuted s'
        = Qeq_bool (clamp01 ((clientX e - rect_left e) / rect_width e)) 0) /\
  (forall q g,
      AudioUtils.setVolume (Fin q) (Some g)
      = Ok (Some (AudioUtils.mkGain (clamp01 q))) /\
      in_unit_interval (clamp01 q)) /\
  clamp01 (14 # 10) = 1%Q /\
  clamp01 (- 2 # 10) = 0%Q.
Proof.
  split; [|split; [|split; reflexivity]].
  - intros e s Hw.
    set (level := ((clientX e - rect_left e) / rect_width e)%Q).
    pose proof (clamp01_in_unit_interval level) as Hv.
    assert (handleVolumeChange e s =
            match audioRef s with
            | None => Ok (setIsMuted (Qeq_bool (clamp01 level) 0)
                            (setVolume (Fin (clamp01 level)) s))
            | Some a =>
                Ok (setIsMuted (Qeq_bool (clamp01 level) 0)
                      (set_audio
                         (mkAudio (a_src a) (a_currentTime a) (clamp01 level)
                                  (a_paused a) (a_ended a))
                         (setVolume (Fin (clamp01 level)) s)))
            end) as E.
    { unfold handleVolumeChange.
      rewrite js_div_finite
        by (intro Z0; rewrite Z0 in Hw; discriminate).
      fold level. rewrite clamp_finite. simpl audioRef.
      destruct (audioRef s) as [a|]; [|reflexivity].
      now rewrite (audio_set_volume_in_range _ a Hv). }
    destruct (audioRef s) as [a|] eqn:Ha.
    + eexists. split; [exact E|]. simpl.
      repeat split; try apply Hv.
      intros a0 _. eexists. split; reflexivity.
    + eexists. split; [exact E|]. simpl.
      repeat split; try apply Hv.
      intros a0 H0. discriminate.
  - intros q g. split; [reflexivity | apply clamp01_in_unit_interval].
Qed.

Lemma volume_is_clamped_and_mute_follows_zero_witness :
  exists s',
    handleVolumeChange click_right_of_bar
      (playerState false off (Some (playing_audio "blob:a" 10))) = Ok s' /\
    volume s' = Fin (clamp01 ((240 - 100) / 100)) /\
    in_unit_interval (clamp01 ((240 - 100) / 100)) /\
    (forall a, Some (playing_audio "blob:a" 10) = Some a ->
               exists a', audioRef s' = Some a' /\
               a_volume a' = clamp01 ((240 - 100) / 100)) /\
    isMuted s' = Qeq_bool (clamp01 ((240 - 100) / 100)) 0.
Proof.
  apply (proj1 volume_is_clamped_and_mute_follows_zero click_right_of_bar
           (playerState false off (Some (playing_audio "blob:a" 10)))).
  reflexivity.
Defined.

(** C9 as stated fails on the mute flag: the player is not muted and
    [toggleMute] is never called, yet a click left of the bar (level -0.2,
    clamped to 0) leaves the mute flag set. *)
Lemma zero_volume_sets_mute_flag :
  isMuted (playerState false off (Some (playing_audio "blob:a" 10))) = false /\
  exists s',
    handleVolumeChange click_left_of_bar
      (playerState false off (Some (playing_audio "blob:a" 10))) = Ok s' /\
    volume s' = Fin 0 /\
    isMuted s' = true.
Proof.
  split; [reflexivity|]. eexists. split; [reflexivity|].
  split; reflexivity.
Qed.

(** The explicit toggle, for comparison: it flips the flag and silences or
    restores the element. *)
Lemma toggleMute_flips (s : State) (a : HTMLAudioElement) :
  audioRef s = Some a ->
  isMuted s = false ->
  exists s' a',
    toggleMute s = Ok s' /\ isMuted s' = true /\
    audioRef s' = Some a' /\ a_volume a' = 0%Q /\ volume s' = volume s.
Proof.
  intros Ha Hm. unfold toggleMute. rewrite Ha, Hm.
  rewrite audio_set_volume_in_range by (split; discriminate).
  eexists. eexists. split; [reflexivity|]. simpl. repeat split; reflexivity.
Qed.

End Volume.

(* ------------------------------------------------------------------ *)
(** * Further properties of the code *)

From Stdlib Require Import Lqa.

(** ** Time display: [formatTime] and [formatDuration] *)

Lemma Qfloor_unique (z : Z) (x : Q) :
  (inject_Z z <= x)%Q -> (x < inject_Z (z + 1))%Q -> Qfloor x = z.
Proof.
  intros Hlo Hhi.
  assert (z <= Qfloor x) as H1.
  { rewrite <- (Qfloor_Z z). now apply Qfloor_resp_le. }
  assert (Qfloor x < z + 1) as H2.
  { rewrite Zlt_Qlt. eapply Qle_lt_trans; [apply Qfloor_le | exact Hhi]. }
  lia.
Qed.

Lemma Qfloor_div_60 (t : Q) : Qfloor (t / 60) = Qfloor t / 60.
Proof.
  pose proof (Qfloor_le t) as Hle. pose proof (Qlt_floor t) as Hlt.
  set (f := Qfloor t) in *.
  assert (60 * (f / 60) <= f /\ f + 1 <= 60 * (f / 60 + 1)) as [A B]
    by (Z.div_mod_to_equations; lia).
  apply Qfloor_unique.
  - apply Qle_shift_div_l; [reflexivity|].
    apply Qle_trans with (inject_Z f); [|assumption].
    change 60%Q with (inject_Z 60). rewrite <- inject_Z_mult, <- Zle_Qle. lia.
  - apply Qlt_shift_div_r; [reflexivity|].
    apply Qlt_le_trans with (inject_Z (f + 1)); [assumption|].
    change 60%Q with (inject_Z 60). rewrite <- inject_Z_mult, <- Zle_Qle. lia.
Qed.

Lemma Qfloor_minus_Z (t : Q) (k : Z) :
  Qfloor (t - inject_Z k) = Qfloor t - k.
Proof.
  pose proof (Qfloor_le t) as Hle. pose proof (Qlt_floor t) as Hlt.
  apply Qfloor_unique.
  - unfold Z.sub. rewrite inject_Z_plus, inject_Z_opp.
    unfold Qminus. now apply Qplus_le_l.
  - replace (Qfloor t - k + 1) with ((Qfloor t + 1) + - k) by lia.
    rewrite inject_Z_plus, inject_Z_opp.
    unfold Qminus. now apply Qplus_lt_l.
Qed.

(** The whole seconds left after the whole minutes. *)
Lemma Qfloor_rem_60 (t : Q) :
  (0 <= t)%Q ->
  Qfloor (t - 60 * inject_Z (Qtruncate (t / 60))) = Qfloor t mod 60.
Proof.
  intro H0.
  assert (0 <= t / 60)%Q as Hq
    by (apply Qle_shift_div_l; [reflexivity | now rewrite Qmult_0_l]).
  unfold Qtruncate. apply Qle_bool_iff in Hq. rewrite Hq.
  rewrite Qfloor_div_60.
  assert (60 * inject_Z (Qfloor t / 60) == inject_Z (60 * (Qfloor t / 60)))%Q
    as E by (rewrite inject_Z_mult; reflexivity).
  rewrite E, Qfloor_minus_Z. rewrite Z.mod_eq by lia. reflexivity.
Qed.

Lemma pad_two_digits (k : Z) :
  0 <= k < 60 ->
  padStart 2 "0" (integer_toString k) = two_digits k /\
  String.length (two_digits k) = 2%nat.
Proof.
  intro H.
  assert (exists n : nat, (n < 60)%nat /\ k = Z.of_nat n) as (n & Hn & ->)
    by (exists (Z.to_nat k); lia).
  clear H.
  do 60 (destruct n as [|n]; [split; reflexivity|]).
  lia.
Qed.

Lemma js_rem_finite (p q : Q) :
  ~ (q == 0)%Q ->
  js_rem (Fin p) (Fin q) = Fin (p - q * inject_Z (Qtruncate (p / q))).
Proof.
  intro H. unfold js_rem. destruct (Qeq_bool q 0) eqn:E; [|reflexivity].
  apply Qeq_bool_iff in E. contradiction.
Qed.

(** [formatTime] on a time that is not negative. *)
Lemma formatTime_whole_seconds (t : Q) :
  (0 <= t)%Q ->
  AudioPlayerControls.formatTime (Fin t) = minutes_and_seconds (Qfloor t).
Proof.
  intro H0. unfold AudioPlayerControls.formatTime, minutes_and_seconds.
  simpl js_isNaN. cbv iota.
  rewrite js_div_finite, js_rem_finite by discriminate.
  unfold Math_floor, Number_toString. rewrite !Qfloor_Z.
  rewrite Qfloor_div_60, (Qfloor_rem_60 t H0).
  rewrite (proj1 (pad_two_digits (Qfloor t mod 60)
                    (Z.mod_pos_bound (Qfloor t) 60 eq_refl))).
  reflexivity.
Qed.

Lemma string_length_append (s t : string) :
  String.length (s ++ t) = (String.length s + String.length t)%nat.
Proof. induction s as [|c s IH]; simpl; [reflexivity | now rewrite IH]. Qed.

(** Two concatenations with tails of equal length agree piecewise. *)
Lemma append_inj_tail (s1 s2 t1 t2 : string) :
  String.length t1 = String.length t2 ->
  (s1 ++ t1 = s2 ++ t2)%string -> s1 = s2 /\ t1 = t2.
Proof.
  revert s2. induction s1 as [|c s1 IH]; intros [|d s2] L E; simpl in E.
  - now split.
  - exfalso. rewrite E in L. simpl in L. rewrite string_length_append in L. lia.
  - exfalso. rewrite <- E in L. simpl in L. rewrite string_length_append in L.
    lia.
  - injection E as -> E. destruct (IH s2 L E) as [-> ->]. now split.
Qed.

Lemma to_int_not_nil (z : Z) :
  Z.to_int z <> Decimal.Pos Decimal.Nil /\ Z.to_int z <> Decimal.Neg Decimal.Nil.
Proof.
  destruct z as [|p|p]; simpl; split; try discriminate;
    intro E; injection E as E; now apply DecimalPos.Unsigned.to_uint_nonnil in E.
Qed.

Lemma integer_toString_inj (a b : Z) :
  integer_toString a = integer_toString b -> a = b.
Proof.
  unfold integer_toString. intro E.
  apply DecimalZ.to_int_inj.
  destruct (to_int_not_nil a) as [A1 A2]. destruct (to_int_not_nil b) as [B1 B2].
  pose proof (DecimalString.NilZero.isi _ A1 A2) as Ha.
  pose proof (DecimalString.NilZero.isi _ B1 B2) as Hb.
  rewrite E in Ha. congruence.
Qed.

Lemma digit_toString_length (d : Z) :
  0 <= d < 10 -> String.length (integer_toString d) = 1%nat.
Proof.
  intro H.
  assert (exists n : nat, (n < 10)%nat /\ d = Z.of_nat n) as (n & Hn & ->)
    by (exists (Z.to_nat d); lia).
  do 10 (destruct n as [|n]; [reflexivity|]). lia.
Qed.

Lemma two_digits_inj (j k : Z) : two_digits j = two_digits k -> j = k.
Proof.
  unfold two_digits. intro E.
  apply append_inj_tail in E as [E1 E2].
  - apply integer_toString_inj in E1. apply integer_toString_inj in E2.
    rewrite (Z.div_mod j 10), (Z.div_mod k 10) by lia. congruence.
  - rewrite !digit_toString_length; [reflexivity | |];
      apply Z.mod_pos_bound; lia.
Qed.

Lemma minutes_and_seconds_inj (a b : Z) :
  minutes_and_seconds a = minutes_and_seconds b -> a = b.
Proof.
  unfold minutes_and_seconds. intro E.
  apply append_inj_tail in E as [E1 E2].
  - apply integer_toString_inj in E1. injection E2 as E2.
    apply two_digits_inj in E2.
    rewrite (Z.div_mod a 60), (Z.div_mod b 60) by lia. congruence.
  - simpl. f_equal.
    rewrite (proj2 (pad_two_digits (a mod 60) (Z.mod_pos_bound a 60 eq_refl))).
    now rewrite (proj2 (pad_two_digits (b mod 60)
                          (Z.mod_pos_bound b 60 eq_refl))).
Qed.



Example formatTime_sample :
  AudioPlayerControls.formatTime (Fin (37259 # 10)) = "62:05"%string.
Proof. reflexivity. Qed.

(** X2.  Two times that are not negative are displayed alike exactly when
    they fall into the same whole second. *)
Theorem formatTime_distinguishes_whole_seconds (a b : Q) :
  (0 <= a)%Q -> (0 <= b)%Q ->
  (AudioPlayerControls.formatTime (Fin a)
   = AudioPlayerControls.formatTime (Fin b)
   <-> Qfloor a = Qfloor b).
Proof.
  intros Ha Hb. rewrite !formatTime_whole_seconds by assumption. split.
  - apply minutes_and_seconds_inj.
  - now intros ->.
Qed.

Lemma formatTime_distinguishes_whole_seconds_witness :
  AudioPlayerControls.formatTime (Fin (61 # 1))
  = AudioPlayerControls.formatTime (Fin (123 # 2))
  <-> Qfloor (61 # 1) = Qfloor (123 # 2).
Proof.
  apply (formatTime_distinguishes_whole_seconds (61 # 1) (123 # 2)).
  - unfold Qle. simpl. lia.
  - unfold Qle. simpl. lia.
Defined.

(** X3.  [formatDuration] and the player's [formatTime] print the same
    text for every number, zero and [NaN] included ("0:00"); the shell's
    [formatTime] agrees with them on every number except [NaN], which it
    prints as "NaN:NaN". *)
Theorem formatters_agree :
  (forall d, formatDuration d = AudioPlayerControls.formatTime d) /\
  (forall d, js_isNaN d = false ->
             AppControls.formatTime d = AudioPlayerControls.formatTime d) /\
  AppControls.formatTime NaN = "NaN:NaN"%string /\
  AudioPlayerControls.formatTime NaN = "0:00"%string.
Proof.
  split; [|split; [|split; reflexivity]].
  - intros [q| | |]; try reflexivity.
    unfold formatDuration. simpl num_truthy. simpl js_isNaN.
    rewrite negb_involutive, orb_false_r.
    destruct (Qeq_bool q 0) eqn:E; [|reflexivity].
    apply Qeq_bool_iff in E.
    rewrite formatTime_whole_seconds by (rewrite E; discriminate).
    now rewrite E.
  - intros d H. unfold AppControls.formatTime, AudioPlayerControls.formatTime.
    now rewrite H.
Qed.

Lemma formatters_agree_witness :
  AppControls.formatTime (Fin 0) = AudioPlayerControls.formatTime (Fin 0).
Proof.
  apply (proj1 (proj2 formatters_agree) (Fin 0)). reflexivity.
Defined.

(* ------------------------------------------------------------------ *)
(** ** AudioPlayer: seeking, muting, play/pause *)

Section AudioPlayerControlsProperties.
Import AudioPlayer AudioPlayerControls.

Lemma js_mul_finite (p q : Q) : js_mul (Fin p) (Fin q) = Fin (p * q).
Proof. reflexivity. Qed.

(** X4.  A click inside a progress bar of positive width, on a player with
    an audio element and a duration that is not negative, seeks to the
    fraction of the duration where the click landed: the new time lies
    between 0 and the duration, the element and the [currentTime] state
    hold the same value, and (for a positive duration) the progress
    percentage becomes the clicked fraction times 100.  Without an audio
    element the handler does nothing. *)
Theorem handleSeek_moves_to_clicked_fraction :
  (forall e s a,
      audioRef s = Some a ->
      (0 < rect_width e)%Q ->
      (rect_left e <= clientX e)%Q ->
      (clientX e <= rect_left e + rect_width e)%Q ->
      (0 <= duration s)%Q ->
      exists s' a',
        handleSeek e s = Ok s' /\
        audioRef s' = Some a' /\
        currentTime s'
        = ((clientX e - rect_left e) / rect_width e * duration s)%Q /\
        a_currentTime a' = currentTime s' /\
        (0 <= currentTime s')%Q /\ (currentTime s' <= duration s')%Q /\
        duration s' = duration s /\ isPlaying s' = isPlaying s /\
        ((0 < duration s)%Q ->
         (progressPercent s'
          == (clientX e - rect_left e) / rect_width e * 100)%Q)) /\
  (forall e s, audioRef s = None -> handleSeek e s = Ok s).
Proof.
  split.
  - intros e s a Ha Hw Hl Hr Hd.
    set (x := (clientX e - rect_left e)%Q).
    assert (~ (rect_width e == 0)%Q) as Hw0
      by (intro Z0; rewrite Z0 in Hw; discriminate).
    assert (0 <= x)%Q as Hx0 by (unfold x; lra).
    assert (x <= rect_width e)%Q as Hx1 by (unfold x; lra).
    assert (0 <= x / rect_width e)%Q as Hf0
      by (apply Qle_shift_div_l; [assumption | now rewrite Qmult_0_l]).
    assert (x / rect_width e <= 1)%Q as Hf1
      by (apply Qle_shift_div_r; [assumption | now rewrite Qmult_1_l]).
    exists (setCurrentTime (x / rect_width e * duration s)
              (set_audio
                 (audio_set_currentTime (x / rect_width e * duration s) a) s)),
           (audio_set_currentTime (x / rect_width e * duration s) a).
    split.
    { unfold handleSeek. rewrite Ha. fold x.
      now rewrite js_div_finite, js_mul_finite by assumption. }
    simpl. repeat split; try reflexivity.
    + now apply Qmult_le_0_compat.
    + setoid_replace (duration s) with (1 * duration s)%Q at 2 by ring.
      now apply Qmult_le_compat_r.
    + intro Hpos. unfold progressPercent. simpl.
      destruct (Qle_bool (duration s) 0) eqn:E.
      * apply Qle_bool_iff in E. exfalso.
        apply (Qlt_irrefl 0). eapply Qlt_le_trans; eassumption.
      * simpl. field. split; [assumption|].
        intro Z0. rewrite Z0 in Hpos. discriminate.
  - intros e s Ha. unfold handleSeek. now rewrite Ha.
Qed.

Lemma handleSeek_moves_to_clicked_fraction_witness :
  exists s' a',
    handleSeek click_mid_bar
      (playerState false off (Some (playing_audio "blob:a" 10))) = Ok s' /\
    audioRef s' = Some a' /\
    currentTime s' = ((150 - 100) / 100 * 180)%Q /\
    a_currentTime a' = currentTime s' /\
    (0 <= currentTime s')%Q /\ (currentTime s' <= duration s')%Q /\
    duration s' = 180%Q /\ isPlaying s' = true /\
    ((0 < 180)%Q -> (progressPercent s' == (150 - 100) / 100 * 100)%Q).
Proof.
  apply (proj1 handleSeek_moves_to_clicked_fraction click_mid_bar
           (playerState false off (Some (playing_audio "blob:a" 10)))
           (playing_audio "blob:a" 10) eq_refl).
  - reflexivity.
  - unfold Qle. simpl. lia.
  - unfold Qle. simpl. lia.
  - unfold Qle. simpl. lia.
Defined.

(** X5.  While the elapsed time stays between 0 and the duration, the
    progress percentage stays between 0 and 100; it is 0 as long as the
    duration is not positive (no metadata yet). *)
Theorem progressPercent_bounds (s : State) :
  ((0 <= currentTime s)%Q -> (currentTime s <= duration s)%Q ->
   (0 <= progressPercent s)%Q /\ (progressPercent s <= 100)%Q) /\
  ((duration s <= 0)%Q -> progressPercent s = 0%Q).
Proof.
  unfold progressPercent. split.
  - intros H0 H1. destruct (Qle_bool (duration s) 0) eqn:E; simpl.
    + split; discriminate.
    + assert (0 < duration s)%Q as Hd.
      { apply Qnot_le_lt. intro H. apply Qle_bool_iff in H. congruence. }
      split.
      * apply Qmult_le_0_compat; [|discriminate].
        apply Qle_shift_div_l; [assumption | now rewrite Qmult_0_l].
      * setoid_replace 100%Q with (1 * 100)%Q at 2 by ring.
        apply Qmult_le_compat_r; [|discriminate].
        apply Qle_shift_div_r; [assumption | now rewrite Qmult_1_l].
  - intro H. apply Qle_bool_iff in H. now rewrite H.
Qed.

Lemma progressPercent_bounds_witness :
  (0 <= progressPercent
          (setCurrentTime 45 (playerState false off None)))%Q /\
  (progressPercent (setCurrentTime 45 (playerState false off None)) <= 100)%Q.
Proof.
  apply (proj1 (progressPercent_bounds
                  (setCurrentTime 45 (playerState false off None)))).
  - unfold Qle. simpl. lia.
  - unfold Qle. simpl. lia.
Defined.


(** X6.  Muting and unmuting is a round trip: on an unmuted player whose
    stored volume [v] lies in [0,1], [toggleMute] silences the element and
    sets the flag while the stored volume stays [v]; a second [toggleMute]
    clears the flag and gives the element volume [v] again.  Without an
    audio element [toggleMute] changes nothing, not even the flag. *)
Theorem toggleMute_round_trip :
  (forall s a v,
      audioRef s = Some a ->
      isMuted s = false ->
      volume s = Fin v ->
      in_unit_interval v ->
      exists s1 a1 s2 a2,
        toggleMute s = Ok s1 /\
        isMuted s1 = true /\ audioRef s1 = Some a1 /\ a_volume a1 = 0%Q /\
        volume s1 = Fin v /\
        toggleMute s1 = Ok s2 /\
        isMuted s2 = false /\ audioRef s2 = Some a2 /\ a_volume a2 = v /\
        volume s2 = Fin v /\
        a_src a2 = a_src a /\ a_currentTime a2 = a_currentTime a /\
        a_paused a2 = a_paused a) /\
  (forall s, audioRef s = None -> toggleMute s = Ok s).
Proof.
  split.
  - intros s a v Ha Hm Hv Hin.
    assert (in_unit_interval 0) as H0 by (split; discriminate).
    eexists. eexists. eexists. eexists.
    split.
    { unfold toggleMute. rewrite Ha, Hm.
      rewrite (audio_set_volume_in_range 0 a H0). reflexivity. }
    simpl. rewrite Hv.
    split; [reflexivity|]. split; [reflexivity|]. split; [reflexivity|].
    split; [reflexivity|].
    split.
    { unfold toggleMute. simpl. rewrite Hv.
      rewrite (audio_set_volume_in_range v _ Hin). reflexivity. }
    simpl. rewrite Hv. repeat split; reflexivity.
  - intros s Ha. unfold toggleMute. now rewrite Ha.
Qed.

Lemma toggleMute_round_trip_witness :
  exists s1 a1 s2 a2,
    toggleMute (setVolume (Fin (1 # 2))
                  (playerState false off (Some (playing_audio "blob:a" 10))))
    = Ok s1 /\
    isMuted s1 = true /\ audioRef s1 = Some a1 /\ a_volume a1 = 0%Q /\
    volume s1 = Fin (1 # 2) /\
    toggleMute s1 = Ok s2 /\
    isMuted s2 = false /\ audioRef s2 = Some a2 /\ a_volume a2 = (1 # 2)%Q /\
    volume s2 = Fin (1 # 2) /\
    a_src a2 = a_src (playing_audio "blob:a" 10) /\
    a_currentTime a2 = a_currentTime (playing_audio "blob:a" 10) /\
    a_paused a2 = a_paused (playing_audio "blob:a" 10).
Proof.
  apply (proj1 toggleMute_round_trip
           (setVolume (Fin (1 # 2))
              (playerState false off (Some (playing_audio "blob:a" 10))))
           (playing_audio "blob:a" 10) (1 # 2) eq_refl eq_refl eq_refl).
  split; unfold Qle; simpl; lia.
Defined.

Lemma handleVolumeChange_on_element (e : MouseEvent) (s : State)
  (a : HTMLAudioElement) :
  audioRef s = Some a ->
  (0 < rect_width e)%Q ->
  handleVolumeChange e s =
  Ok (setIsMuted
        (Qeq_bool (clamp01 ((clientX e - rect_left e) / rect_width e)) 0)
        (set_audio
           (mkAudio (a_src a) (a_currentTime a)
              (clamp01 ((clientX e - rect_left e) / rect_width e))
              (a_paused a) (a_ended a))
           (setVolume
              (Fin (clamp01 ((clientX e - rect_left e) / rect_width e))) s))).
Proof.
  intros Ha Hw. unfold handleVolumeChange.
  rewrite js_div_finite by (intro Z0; rewrite Z0 in Hw; discriminate).
  rewrite clamp_finite. simpl audioRef. rewrite Ha.
  now rewrite (audio_set_volume_in_range _ a (clamp01_in_unit_interval _)).
Qed.

(** X7.  How the volume bar and the mute button interact.  A click right
    of the bar's left edge clears the mute flag, whatever it was, and the
    displayed volume becomes the clamped level times 100.  A click at or
    left of the left edge sets the flag and stores volume 0; a following
    [toggleMute] then clears the flag but restores the stored volume 0, so
    the element stays silent and the displayed volume stays 0. *)
Theorem volume_bar_and_mute_button :
  (forall e s a,
      audioRef s = Some a ->
      (0 < rect_width e)%Q ->
      (rect_left e < clientX e)%Q ->
      exists s',
        handleVolumeChange e s = Ok s' /\
        isMuted s' = false /\
        volumePercent s'
        = Fin (clamp01 ((clientX e - rect_left e) / rect_width e) * 100)) /\
  (forall e s a,
      audioRef s = Some a ->
      (0 < rect_width e)%Q ->
      (clientX e <= rect_left e)%Q ->
      exists s' s'' a'',
        handleVolumeChange e s = Ok s' /\
        isMuted s' = true /\ volume s' = Fin 0 /\
        toggleMute s' = Ok s'' /\
        isMuted s'' = false /\
        audioRef s'' = Some a'' /\ a_volume a'' = 0%Q /\
        volumePercent s'' = Fin (0 * 100)).
Proof.
  split.
  - intros e s a Ha Hw Hx.
    set (level := ((clientX e - rect_left e) / rect_width e)%Q).
    assert (0 < level)%Q as Hl
      by (apply Qlt_shift_div_l; [assumption | lra]).
    assert (Qeq_bool (clamp01 level) 0 = false) as Hz.
    { destruct (Qeq_bool (clamp01 level) 0) eqn:E; [|reflexivity].
      apply Qeq_bool_iff in E. exfalso. unfold clamp01 in E.
      destruct (Q.min_spec 1 level) as [[_ M] | [_ M]];
        rewrite M in E;
        [destruct (Q.max_spec 0 1) as [[_ X] | [X _]]
        |destruct (Q.max_spec 0 level) as [[_ X] | [X _]]];
        try (rewrite X in E); lra. }
    eexists. split; [apply (handleVolumeChange_on_element e s a Ha Hw)|].
    fold level. rewrite Hz. split; reflexivity.
  - intros e s a Ha Hw Hx.
    set (level := ((clientX e - rect_left e) / rect_width e)%Q).
    assert (level <= 0)%Q as Hl
      by (apply Qle_shift_div_r; [assumption | lra]).
    assert (clamp01 level = 0%Q) as Hc.
    { unfold clamp01.
      assert (Qmin 1 level = level) as ->.
      { unfold Qmin, GenericMinMax.gmin.
        destruct (1 ?= level)%Q eqn:C; try reflexivity.
        - apply Qeq_alt in C. lra.
        - apply Qlt_alt in C. lra. }
      unfold Qmax, GenericMinMax.gmax.
      destruct (0 ?= level)%Q eqn:C; try reflexivity.
      apply Qlt_alt in C. lra. }
    eexists. eexists. eexists.
    split; [apply (handleVolumeChange_on_element e s a Ha Hw)|].
    fold level. rewrite Hc.
    split; [reflexivity|]. split; [reflexivity|].
    split; [reflexivity|]. simpl. repeat split; reflexivity.
Qed.

Lemma volume_bar_and_mute_button_witness :
  (exists s',
      handleVolumeChange click_mid_bar
        (setIsMuted true
           (playerState false off (Some (playing_audio "blob:a" 10))))
      = Ok s' /\
      isMuted s' = false /\
      volumePercent s' = Fin (clamp01 ((150 - 100) / 100) * 100)) /\
  (exists s' s'' a'',
      handleVolumeChange click_left_of_bar
        (playerState false off (Some (playing_audio "blob:a" 10))) = Ok s' /\
      isMuted s' = true /\ volume s' = Fin 0 /\
      toggleMute s' = Ok s'' /\
      isMuted s'' = false /\
      audioRef s'' = Some a'' /\ a_volume a'' = 0%Q /\
      volumePercent s'' = Fin (0 * 100)).
Proof.
  split.
  - apply (proj1 volume_bar_and_mute_button click_mid_bar
             (setIsMuted true
                (playerState false off (Some (playing_audio "blob:a" 10))))
             (playing_audio "blob:a" 10) eq_refl); reflexivity.
  - apply (proj2 volume_bar_and_mute_button click_left_of_bar
             (playerState false off (Some (playing_audio "blob:a" 10)))
             (playing_audio "blob:a" 10) eq_refl); [reflexivity|].
    unfold Qle. simpl. lia.
Defined.

End AudioPlayerControlsProperties.

(* ------------------------------------------------------------------ *)
(** ** AudioPlayer: play/pause and the rest of the traversal *)

Section AudioPlayerMoreTraversal.
Import AudioPlayer AudioPlayerControls.

(** X8.  [togglePlay] keeps the play flag and the element in step: if
    [isPlaying] said whether the element was running before, it does so
    afterwards, whether the promises of [resume()] and [play()] are
    fulfilled or rejected.  When nothing is rejected and there are a track
    and an element, the flag is flipped; when there is no track or no
    element, nothing changes. *)
Theorem togglePlay_keeps_flag_and_element_in_step
  (p : Props) (suspended resume_ok play_ok : bool) (s : State) :
  (play_flag_matches_element s ->
   play_flag_matches_element (togglePlay p suspended resume_ok play_ok s)) /\
  (forall a c,
      audioRef s = Some a -> currentTrack p = Some c ->
      suspended && negb resume_ok = false ->
      isPlaying s = true \/ play_ok = true ->
      isPlaying (togglePlay p suspended resume_ok play_ok s)
      = negb (isPlaying s)) /\
  (audioRef s = None \/ currentTrack p = None ->
   togglePlay p suspended resume_ok play_ok s = s).
Proof.
  unfold togglePlay, play_flag_matches_element. split; [|split].
  - intro H. destruct (audioRef s) as [a|] eqn:Ha; [|now rewrite Ha].
    destruct (currentTrack p); [|now rewrite Ha].
    destruct (suspended && negb resume_ok); [now rewrite Ha|].
    destruct (isPlaying s) eqn:P; [reflexivity|].
    destruct play_ok; [reflexivity | now rewrite Ha, P].
  - intros a c Ha Hc Hs Hp. rewrite Ha, Hc, Hs.
    destruct (isPlaying s) eqn:P; [reflexivity|].
    destruct Hp as [Hp | Hp]; [discriminate | now rewrite Hp].
  - intros [Ha | Hc].
    + now rewrite Ha.
    + rewrite Hc. now destruct (audioRef s).
Qed.

Lemma togglePlay_keeps_flag_and_element_in_step_witness :
  play_flag_matches_element
    (togglePlay (propsABC trackA) true true true
       (playerState false off (Some (playing_audio "blob:a" 10)))) /\
  isPlaying
    (togglePlay (propsABC trackA) true true true
       (playerState false off (Some (playing_audio "blob:a" 10))))
  = negb (isPlaying
            (playerState false off (Some (playing_audio "blob:a" 10)))) /\
  togglePlay (propsOn playlistABC None) false true true
    (playerState false off None)
  = playerState false off None.
Proof.
  split; [|split].
  - apply (proj1 (togglePlay_keeps_flag_and_element_in_step
                    (propsABC trackA) true true true
                    (playerState false off
                       (Some (playing_audio "blob:a" 10))))).
    reflexivity.
  - apply (proj1 (proj2 (togglePlay_keeps_flag_and_element_in_step
                    (propsABC trackA) true true true
                    (playerState false off
                       (Some (playing_audio "blob:a" 10)))))
             (playing_audio "blob:a" 10) trackA eq_refl eq_refl eq_refl).
    now left.
  - apply (proj2 (proj2 (togglePlay_keeps_flag_and_element_in_step
                    (propsOn playlistABC None) false true true
                    (playerState false off None)))).
    now left.
Defined.

(** X9.  With repeat off, a current track at the last playlist index stops
    the session even when shuffle is on: [handleNext] sets [isPlaying] to
    false and hands nothing to the sink, whatever [Math.random()] would
    return. *)
Theorem handleNext_shuffle_stops_at_last_index
  (p : Props) (rnd : Q) (s : State) (c : Track) :
  repeatMode s = off ->
  isShuffled s = true ->
  onTrackChange p = true ->
  NoDup (map id (playlist p)) ->
  currentTrack p = Some c ->
  nth_error (playlist p) (List.length (playlist p) - 1) = Some c ->
  handleNext p rnd s = Ok (setIsPlaying false s).
Proof.
  intros M Sh Hsink Hnd Hc Hlast.
  assert (playlist p <> []) as Hne
    by (intro E; rewrite E in Hlast; discriminate).
  apply handleNext_stops_at_last;
    [now apply nothing_to_do_false | assumption |].
  rewrite (currentIndex_nth p _ c Hnd Hc Hlast).
  now apply last_index_of_nat with (x := c).
Qed.

Lemma handleNext_shuffle_stops_at_last_index_witness :
  handleNext (propsABC trackC) (1 # 3) (playerState true off None)
  = Ok (setIsPlaying false (playerState true off None)).
Proof.
  apply (handleNext_shuffle_stops_at_last_index
           (propsABC trackC) (1 # 3) (playerState true off None) trackC
           eq_refl eq_refl eq_refl playlistABC_NoDup eq_refl eq_refl).
Defined.

(** X10.  The shuffle draw.  On a non-empty playlist with a sink, shuffle
    on and repeat not one, unless the session stops (repeat off at the last
    index), every track can be drawn, the current one included: any value
    [rnd] of [Math.random()] whose product with the playlist length lies
    between [k + 1/4] and [k + 3/4] makes [handleNext] hand the sink the
    element at index [k]; such a value lies strictly between 0 and 1. *)
Theorem handleNext_shuffle_draw
  (p : Props) (s : State) (k : nat) (t : Track) (rnd : Q) :
  isShuffled s = true ->
  repeatMode s <> one ->
  onTrackChange p = true ->
  repeatMode s = all \/ currentIndex p <> array_length (playlist p) - 1 ->
  nth_error (playlist p) k = Some t ->
  (inject_Z (Z.of_nat k) + (1 # 4)
   <= rnd * inject_Z (array_length (playlist p)))%Q ->
  (rnd * inject_Z (array_length (playlist p))
   <= inject_Z (Z.of_nat k) + (3 # 4))%Q ->
  (0 < rnd)%Q /\ (rnd < 1)%Q /\
  handleNext p rnd s = Ok (call_onTrackChange (Some t) s).
Proof.
  intros Sh M Hsink H Hk Hlo Hhi.
  assert (playlist p <> []) as Hne
    by (intro E; rewrite E in Hk; destruct k; discriminate).
  assert (Z.of_nat k < array_length (playlist p)) as Hlt.
  { unfold array_length. apply inj_lt.
    apply (nth_error_Some (playlist p) k). congruence. }
  set (n := array_length (playlist p)) in *.
  assert (0 < inject_Z n)%Q as Hn
    by (change 0%Q with (inject_Z 0); rewrite <- Zlt_Qlt; lia).
  assert (0 <= inject_Z (Z.of_nat k))%Q as Hk0
    by (change 0%Q with (inject_Z 0); rewrite <- Zle_Qle; lia).
  assert (inject_Z (Z.of_nat k) + 1 <= inject_Z n)%Q as Hkn.
  { change 1%Q with (inject_Z 1). rewrite <- inject_Z_plus, <- Zle_Qle. lia. }
  split; [|split].
  - apply (proj1 (Qmult_lt_r 0 rnd (inject_Z n) Hn)). lra.
  - apply (proj1 (Qmult_lt_r rnd 1 (inject_Z n) Hn)). lra.
  - rewrite (handleNext_unfold p rnd s (nothing_to_do_false p Hne Hsink) M), Sh.
    fold n.
    replace (RepeatMode_eqb (repeatMode s) off && (currentIndex p =? n - 1))
      with false.
    + rewrite (Qfloor_unique (Z.of_nat k) (rnd * inject_Z n)).
      * now rewrite array_get_of_nat, Hk.
      * lra.
      * rewrite inject_Z_plus. change (inject_Z 1) with 1%Q. lra.
    + symmetry. destruct H as [A | N].
      * now rewrite A.
      * apply Z.eqb_neq in N. now rewrite N, andb_false_r.
Qed.

Lemma handleNext_shuffle_draw_witness :
  (0 < 1 # 2)%Q /\ (1 # 2 < 1)%Q /\
  handleNext (propsABC trackB) (1 # 2) (playerState true all None)
  = Ok (call_onTrackChange (Some trackB) (playerState true all None)).
Proof.
  apply (handleNext_shuffle_draw (propsABC trackB)
           (playerState true all None) 1 trackB (1 # 2)).
  - reflexivity.
  - discriminate.
  - reflexivity.
  - now left.
  - reflexivity.
  - unfold Qle. simpl. lia.
  - unfold Qle. simpl. lia.
Defined.

(** X11.  [handleNext] throws in exactly one situation: repeat one on a
    non-empty playlist with a sink while no audio element is mounted; the
    error is a [TypeError] and nothing has been changed.  [handlePrevious]
    never throws. *)
Theorem handleNext_throws_only_without_element
  (p : Props) (rnd : Q) (s : State) :
  ((exists e s', handleNext p rnd s = Throw e s') <->
   (playlist p <> [] /\ onTrackChange p = true /\
    repeatMode s = one /\ audioRef s = None)) /\
  (forall e s', handleNext p rnd s = Throw e s' -> e = TypeError /\ s' = s) /\
  (forall e s', handlePrevious p s <> Throw e s').
Proof.
  split; [|split].
  - split.
    + intros (e & s' & H). unfold handleNext in H.
      destruct (nothing_to_do p) eqn:G; [discriminate|].
      assert (playlist p <> [] /\ onTrackChange p = true) as [Hne Hsink].
      { unfold nothing_to_do in G. apply orb_false_elim in G as [G1 G2].
        apply Z.eqb_neq in G1. split.
        - intro E. apply G1. now apply array_length_zero.
        - now destruct (onTrackChange p). }
      destruct (repeatMode s) eqn:M; cbn [RepeatMode_eqb andb] in H.
      * destruct (_ =? _); discriminate.
      * destruct (audioRef s); [discriminate | auto].
      * discriminate.
    + intros (Hne & Hsink & M & Ha). exists TypeError, s.
      unfold handleNext.
      now rewrite (nothing_to_do_false p Hne Hsink), M, Ha.
  - intros e s' H. unfold handleNext in H.
    destruct (nothing_to_do p); [discriminate|].
    destruct (RepeatMode_eqb (repeatMode s) one).
    + destruct (audioRef s); [discriminate|]. injection H as <- <-. auto.
    + destruct (_ && _); discriminate.
  - intros e s' H. unfold handlePrevious in H.
    destruct (nothing_to_do p); discriminate.
Qed.

Lemma handleNext_throws_only_without_element_witness :
  exists e s',
    handleNext (propsOn playlistABC None) (1 # 2) (playerState false one None)
    = Throw e s'.
Proof.
  apply (proj2 (proj1 (handleNext_throws_only_without_element
                         (propsOn playlistABC None) (1 # 2)
                         (playerState false one None)))).
  split; [discriminate|]. split; [reflexivity|]. split; reflexivity.
Defined.

Lemma last_snoc {A} (l : list A) (x d : A) : last (l ++ [x]) d = x.
Proof.
  induction l as [|y l IH]; [reflexivity|].
  simpl. destruct (l ++ [x]) eqn:E; [now destruct l | exact IH].
Qed.

(** X12.  Next and previous undo each other.  On a playlist without
    duplicate identifiers, with shuffle off and repeat all, [handleNext]
    from any track followed (once the parent has made the selected track
    current) by [handlePrevious] hands the sink the track the player
    started from, the wrap at the end of the playlist included. *)
Theorem handleNext_then_handlePrevious_returns
  (p : Props) (rnd : Q) (s : State) (i : nat) (c : Track) :
  repeatMode s = all ->
  isShuffled s = false ->
  onTrackChange p = true ->
  NoDup (map id (playlist p)) ->
  currentTrack p = Some c ->
  nth_error (playlist p) i = Some c ->
  exists t s1,
    handleNext p rnd s = Ok s1 /\
    trackChanges s1 = trackChanges s ++ [Some t] /\
    In t (playlist p) /\
    currentTrack (adopt_last_track_change p s1) = Some t /\
    handlePrevious (adopt_last_track_change p s1) s1
    = Ok (call_onTrackChange (Some c) s1).
Proof.
  intros M Sh Hsink Hnd Hc Hi.
  assert (playlist p <> []) as Hne
    by (intro E; rewrite E in Hi; destruct i; discriminate).
  pose proof (nothing_to_do_false p Hne Hsink) as G.
  pose proof (currentIndex_nth p i c Hnd Hc Hi) as Hci.
  assert (Z.of_nat i < array_length (playlist p)) as Hlt.
  { unfold array_length. apply inj_lt.
    apply (nth_error_Some (playlist p) i). congruence. }
  set (n := array_length (playlist p)) in *.
  set (k := if Z.of_nat i <? n - 1 then Z.of_nat i + 1 else 0).
  assert (0 <= k < n) as Hk
    by (unfold k; destruct (Z.of_nat i <? n - 1) eqn:E;
        [apply Z.ltb_lt in E|]; lia).
  destruct (array_get_in_range (playlist p) k Hk) as [t [Ht Hin]].
  exists t, (call_onTrackChange (Some t) s).
  assert (handleNext p rnd s = Ok (call_onTrackChange (Some t) s)) as Hnext.
  { rewrite (handleNext_natural_order p rnd s G);
      [| rewrite M; discriminate | assumption | now left].
    rewrite Hci. fold n. fold k. now rewrite Ht. }
  set (s1 := call_onTrackChange (Some t) s).
  assert (adopt_last_track_change p s1
          = {| currentTrack := Some t; playlist := playlist p;
               onTrackChange := onTrackChange p |}) as Hp1.
  { unfold adopt_last_track_change, s1. simpl. now rewrite last_snoc. }
  split; [exact Hnext|]. split; [reflexivity|]. split; [assumption|].
  rewrite Hp1. split; [reflexivity|].
  set (p1 := {| currentTrack := Some t; playlist := playlist p;
                onTrackChange := onTrackChange p |}).
  assert (nothing_to_do p1 = false) as G1 by exact G.
  rewrite (handlePrevious_unfold p1 s1 G1).
  assert (nth_error (playlist p1) (Z.to_nat k) = Some t) as Hkt.
  { simpl. rewrite <- array_get_of_nat. now rewrite Z2Nat.id by lia. }
  rewrite (currentIndex_nth p1 (Z.to_nat k) t Hnd eq_refl Hkt).
  rewrite Z2Nat.id by lia. simpl playlist. fold n.
  assert ((if k >? 0 then k - 1 else n - 1) = Z.of_nat i) as ->.
  { unfold k. destruct (Z.of_nat i <? n - 1) eqn:E.
    - apply Z.ltb_lt in E.
      destruct (Z.of_nat i + 1 >? 0) eqn:E2; [lia|].
      rewrite Z.gtb_ltb in E2. apply Z.ltb_ge in E2. lia.
    - apply Z.ltb_ge in E. simpl. lia. }
  now rewrite array_get_of_nat, Hi.
Qed.

Lemma handleNext_then_handlePrevious_returns_witness :
  exists t s1,
    handleNext (propsABC trackC) (1 # 2) (playerState false all None)
    = Ok s1 /\
    trackChanges s1
    = trackChanges (playerState false all None) ++ [Some t] /\
    In t playlistABC /\
    currentTrack (adopt_last_track_change (propsABC trackC) s1) = Some t /\
    handlePrevious (adopt_last_track_change (propsABC trackC) s1) s1
    = Ok (call_onTrackChange (Some trackC) s1).
Proof.
  apply (handleNext_then_handlePrevious_returns
           (propsABC trackC) (1 # 2) (playerState false all None)
           2%nat trackC eq_refl eq_refl eq_refl playlistABC_NoDup
           eq_refl eq_refl).
Defined.

End AudioPlayerMoreTraversal.

(* ------------------------------------------------------------------ *)
(** ** The application shell: walking the track list *)

Section ShellTraversal.
Import App AppControls.

Lemma distinct_positions_distinct_ids (l : list Track) (i j : nat)
  (c t : Track) :
  NoDup (map id l) ->
  nth_error l i = Some c -> nth_error l j = Some t ->
  id t = id c -> i = j.
Proof.
  intros Hnd Hi Hj E.
  apply (proj1 (NoDup_nth_error (map id l)) Hnd).
  - rewrite length_map. apply nth_error_Some. congruence.
  - rewrite !nth_error_map, Hi, Hj. simpl. congruence.
Qed.

Lemma shell_currentIndex_nth (s : State) (i : nat) (c : Track) :
  NoDup (map id (tracks s)) ->
  currentTrack s = Some c ->
  nth_error (tracks s) i = Some c ->
  currentIndex s = Z.of_nat i.
Proof.
  intros Hnd Hc Hi. unfold currentIndex. rewrite Hc. simpl.
  now apply findIndex_nth.
Qed.

Lemma playTrack_other (t c : Track) (s : State) :
  currentTrack s = Some c -> id t <> id c ->
  playTrack (Some t) s = Ok (switched_to t s).
Proof.
  intros Hc Hne. unfold playTrack. rewrite Hc. simpl.
  destruct (id_strict_eq (id c) (id t)) eqn:E; [|reflexivity].
  apply id_strict_eq_true_iff in E. congruence.
Qed.

Lemma neighbour_index_differs (forwards : bool) (i n : nat) :
  (2 <= n)%nat -> (i < n)%nat ->
  (if forwards then (i + 1) mod n else (i + (n - 1)) mod n)%nat <> i.
Proof.
  intros Hn Hi. destruct forwards.
  - destruct (Nat.eq_dec (i + 1) n) as [E | E].
    + rewrite E, Nat.Div0.mod_same. lia.
    + rewrite Nat.mod_small by lia. lia.
  - destruct (Nat.eq_dec i 0) as [E | E].
    + subst i. simpl. rewrite Nat.mod_small by lia. lia.
    + replace (i + (n - 1))%nat with ((i - 1) + 1 * n)%nat by lia.
      rewrite Nat.Div0.mod_add, Nat.mod_small by lia. lia.
Qed.

(** One press of a skip button on a list of at least two tracks. *)
Lemma skipTrack_step (direction : string) (s : State) (i : nat) (c : Track) :
  NoDup (map id (tracks s)) ->
  (2 <= List.length (tracks s))%nat ->
  currentTrack s = Some c ->
  nth_error (tracks s) i = Some c ->
  exists t,
    nth_error (tracks s)
      (if String.eqb direction "next"
       then (i + 1) mod List.length (tracks s)
       else (i + (List.length (tracks s) - 1)) mod List.length (tracks s))%nat
    = Some t /\
    skipTrack direction s = Ok (switched_to t s).
Proof.
  intros Hnd Hlen Hc Hi.
  set (n := List.length (tracks s)) in *.
  assert (i < n)%nat as Hin by (apply nth_error_Some; congruence).
  set (j := (if String.eqb direction "next"
             then (i + 1) mod n else (i + (n - 1)) mod n)%nat).
  assert (j < n)%nat as Hj
    by (unfold j; destruct (String.eqb direction "next");
        apply Nat.mod_upper_bound; lia).
  assert (j <> i) as Hji by (now apply neighbour_index_differs).
  assert (skipTrack_nextIndex direction s = Z.of_nat j) as Hidx.
  { unfold skipTrack_nextIndex.
    rewrite (shell_currentIndex_nth s i c Hnd Hc Hi).
    unfold array_length. fold n. unfold j.
    destruct (String.eqb direction "next").
    - destruct (Z.of_nat i + 1 >=? Z.of_nat n) eqn:E.
      + rewrite Z.geb_leb in E. apply Z.leb_le in E.
        replace (i + 1)%nat with n by lia.
        rewrite Nat.Div0.mod_same. reflexivity.
      + rewrite Z.geb_leb in E. apply Z.leb_gt in E.
        rewrite Nat.mod_small by lia. lia.
    - destruct (Z.of_nat i - 1 <? 0) eqn:E.
      + apply Z.ltb_lt in E. assert (i = 0)%nat as -> by lia.
        simpl. rewrite Nat.mod_small by lia. lia.
      + apply Z.ltb_ge in E.
        replace (i + (n - 1))%nat with ((i - 1) + 1 * n)%nat by lia.
        rewrite Nat.Div0.mod_add, Nat.mod_small by lia. lia. }
  destruct (nth_error (tracks s) j) as [t|] eqn:Ht;
    [|apply nth_error_None in Ht; fold n in Ht; lia].
  exists t. split; [reflexivity|].
  unfold skipTrack.
  destruct (array_length (tracks s) =? 0) eqn:E.
  { apply Z.eqb_eq in E. unfold array_length in E. fold n in E. lia. }
  rewrite Hidx, array_get_of_nat, Ht.
  apply playTrack_other with (c := c); [assumption|].
  intro Eid. apply Hji. symmetry.
  exact (distinct_positions_distinct_ids _ _ _ _ _ Hnd Hi Ht Eid).
Qed.

(** X13.  Pressing "next" [k] times on a list of at least two tracks
    without duplicate identifiers walks the list cyclically: from index
    [i] the current track ends up at index [(i + k) mod length], the list
    itself is unchanged, and after [length] presses the player is back on
    the track it started from. *)
Theorem skipTrack_next_walks_cyclically
  (l : list Track) (k : nat) (s : State) (i : nat) (c : Track) :
  NoDup (map id l) ->
  (2 <= List.length l)%nat ->
  tracks s = l ->
  currentTrack s = Some c ->
  nth_error l i = Some c ->
  (exists s',
      skipTrack_times "next" k s = Ok s' /\
      tracks s' = l /\
      currentTrack s' = nth_error l ((i + k) mod List.length l)) /\
  (exists s',
      skipTrack_times "next" (List.length l) s = Ok s' /\
      tracks s' = l /\ currentTrack s' = Some c).
Proof.
  intros Hnd Hlen Hl Hc Hi.
  assert (forall k s i c,
            tracks s = l -> currentTrack s = Some c ->
            nth_error l i = Some c ->
            exists s',
              skipTrack_times "next" k s = Ok s' /\
              tracks s' = l /\
              currentTrack s' = nth_error l ((i + k) mod List.length l))
    as Walk.
  { clear k s i c Hl Hc Hi.
    induction k as [|k IH]; intros s i c Hl Hc Hi.
    - exists s. split; [reflexivity|]. split; [assumption|].
      rewrite Nat.add_0_r, Nat.mod_small, Hi; [assumption|].
      apply nth_error_Some. congruence.
    - destruct (skipTrack_step "next" s i c) as [t [Ht Hstep]];
        try (rewrite Hl; assumption); [assumption|].
      simpl in Ht. rewrite Hl in Ht.
      destruct (IH (switched_to t s) ((i + 1) mod List.length l)%nat t)
        as (s' & Hs' & Htr & Hcur); [assumption | reflexivity | assumption |].
      exists s'. simpl. rewrite Hstep. split; [assumption|].
      split; [assumption|]. rewrite Hcur. f_equal.
      rewrite Nat.Div0.add_mod_idemp_l. f_equal. lia. }
  split; [now apply Walk with (c := c)|].
  destruct (Walk (List.length l) s i c Hl Hc Hi) as (s' & Hs' & Htr & Hcur).
  exists s'. split; [assumption|]. split; [assumption|].
  rewrite Hcur.
  replace (i + List.length l)%nat with (i + 1 * List.length l)%nat by lia.
  rewrite Nat.Div0.mod_add, Nat.mod_small; [assumption|].
  apply nth_error_Some. congruence.
Qed.

Lemma skipTrack_next_walks_cyclically_witness :
  (exists s',
      skipTrack_times "next" 2
        (shellState playlistABC (Some trackB) none None) = Ok s' /\
      tracks s' = playlistABC /\
      currentTrack s' = nth_error playlistABC ((1 + 2) mod 3)) /\
  (exists s',
      skipTrack_times "next" 3
        (shellState playlistABC (Some trackB) none None) = Ok s' /\
      tracks s' = playlistABC /\ currentTrack s' = Some trackB).
Proof.
  apply (skipTrack_next_walks_cyclically playlistABC 2
           (shellState playlistABC (Some trackB) none None) 1 trackB
           playlistABC_NoDup).
  - simpl. lia.
  - reflexivity.
  - reflexivity.
  - reflexivity.
Defined.

(** X14.  "Next" and "previous" undo each other on a list of at least two
    tracks without duplicate identifiers: after one press of each, in
    either order, the track the player started from is current again (its
    source is loaded afresh, at position 0). *)
Theorem skipTrack_next_and_prev_undo_each_other
  (s : State) (i : nat) (c : Track) (first second : string) :
  NoDup (map id (tracks s)) ->
  (2 <= List.length (tracks s))%nat ->
  currentTrack s = Some c ->
  nth_error (tracks s) i = Some c ->
  (first = "next"%string /\ second = "prev"%string) \/
  (first = "prev"%string /\ second = "next"%string) ->
  exists t s1,
    skipTrack first s = Ok s1 /\
    currentTrack s1 = Some t /\ id t <> id c /\
    skipTrack second s1 = Ok (switched_to c s1) /\
    currentTrack (switched_to c s1) = Some c /\
    tracks (switched_to c s1) = tracks s.
Proof.
  intros Hnd Hlen Hc Hi Hdir.
  set (n := List.length (tracks s)) in *.
  assert (i < n)%nat as Hin by (apply nth_error_Some; congruence).
  destruct (skipTrack_step first s i c Hnd Hlen Hc Hi) as [t [Ht Hs1]].
  fold n in Ht.
  set (j := (if String.eqb first "next"
             then (i + 1) mod n else (i + (n - 1)) mod n)%nat) in *.
  assert (j < n)%nat as Hj by (apply nth_error_Some; congruence).
  destruct (skipTrack_step second (switched_to t s) j t)
    as [t' [Ht' Hs2]]; try assumption; [reflexivity|].
  simpl tracks in Ht'. fold n in Ht'.
  assert ((if String.eqb second "next"
           then (j + 1) mod n else (j + (n - 1)) mod n)%nat = i) as Hback.
  { unfold j. destruct Hdir as [[-> ->] | [-> ->]]; simpl.
    - rewrite Nat.Div0.add_mod_idemp_l.
      replace (i + 1 + (n - 1))%nat with (i + 1 * n)%nat by lia.
      rewrite Nat.Div0.mod_add. apply Nat.mod_small. lia.
    - rewrite Nat.Div0.add_mod_idemp_l.
      replace (i + (n - 1) + 1)%nat with (i + 1 * n)%nat by lia.
      rewrite Nat.Div0.mod_add. apply Nat.mod_small. lia. }
  rewrite Hback, Hi in Ht'. injection Ht' as <-.
  exists t, (switched_to t s).
  split; [assumption|]. split; [reflexivity|].
  split.
  { intro E.
    apply (neighbour_index_differs (String.eqb first "next") i n Hlen Hin).
    symmetry.
    exact (distinct_positions_distinct_ids _ _ _ _ _ Hnd Hi Ht E). }
  split; [assumption|]. split; reflexivity.
Qed.

Lemma skipTrack_next_and_prev_undo_each_other_witness :
  exists t s1,
    skipTrack "next" (shellState playlistABC (Some trackC) none None) = Ok s1 /\
    currentTrack s1 = Some t /\ id t <> id trackC /\
    skipTrack "prev" s1 = Ok (switched_to trackC s1) /\
    currentTrack (switched_to trackC s1) = Some trackC /\
    tracks (switched_to trackC s1)
    = tracks (shellState playlistABC (Some trackC) none None).
Proof.
  apply (skipTrack_next_and_prev_undo_each_other
           (shellState playlistABC (Some trackC) none None) 2 trackC
           "next" "prev" playlistABC_NoDup).
  - simpl. lia.
  - reflexivity.
  - reflexivity.
  - left. split; reflexivity.
Defined.


(** X15.  On a list of a single track that is the current one, a skip
    button in either direction does not restart the track: it toggles
    play/pause.  For the same reason repeat all does not repeat a single
    track: when it ends, [onEnded] pauses the element and clears
    [isPlaying]. *)
Theorem single_track_skip_toggles_playback
  (s : State) (c c' : Track) :
  tracks s = [c] ->
  currentTrack s = Some c' ->
  id c' = id c ->
  (forall direction, skipTrack direction s = Ok (togglePlayPause s)) /\
  (repeatMode s = all -> onEnded s = Ok (togglePlayPause s)) /\
  (forall a,
      audioRef s = Some a -> isPlaying s = true ->
      isPlaying (togglePlayPause s) = false /\
      audioRef (togglePlayPause s) = Some (audio_pause a) /\
      currentTrack (togglePlayPause s) = Some c').
Proof.
  intros Ht Hc Hid.
  assert (forall direction, skipTrack direction s = Ok (togglePlayPause s))
    as Hskip.
  { intro direction.
    assert (currentIndex s = 0) as Hci.
    { unfold currentIndex, findIndex. rewrite Ht, Hc.
      cbn [findIndex_from optional_id]. now rewrite Hid, id_strict_eq_refl. }
    assert (playTrack (Some c) s = Ok (togglePlayPause s)) as Hplay.
    { unfold playTrack. rewrite Hc. cbn [optional_id].
      now rewrite Hid, id_strict_eq_refl. }
    unfold skipTrack, skipTrack_nextIndex. rewrite Hci, Ht.
    destruct (String.eqb direction "next"); exact Hplay. }
  split; [exact Hskip|]. split.
  - intro M. unfold onEnded. rewrite M. simpl. apply Hskip.
  - intros a Ha Hp. unfold togglePlayPause. rewrite Ha, Hc, Hp. simpl.
    rewrite Ha. auto.
Qed.

Lemma single_track_skip_toggles_playback_witness :
  (forall direction,
      skipTrack direction
        (shellState [trackA] (Some trackA) all
           (Some (ended_audio "blob:a" 180)))
      = Ok (togglePlayPause
              (shellState [trackA] (Some trackA) all
                 (Some (ended_audio "blob:a" 180))))) /\
  (all = all ->
   onEnded (shellState [trackA] (Some trackA) all
              (Some (ended_audio "blob:a" 180)))
   = Ok (togglePlayPause
           (shellState [trackA] (Some trackA) all
              (Some (ended_audio "blob:a" 180))))) /\
  (forall a,
      Some (ended_audio "blob:a" 180) = Some a -> true = true ->
      isPlaying (togglePlayPause
                   (shellState [trackA] (Some trackA) all
                      (Some (ended_audio "blob:a" 180)))) = false /\
      audioRef (togglePlayPause
                  (shellState [trackA] (Some trackA) all
                     (Some (ended_audio "blob:a" 180))))
      = Some (audio_pause a) /\
      currentTrack (togglePlayPause
                      (shellState [trackA] (Some trackA) all
                         (Some (ended_audio "blob:a" 180))))
      = Some trackA).
Proof.
  apply (single_track_skip_toggles_playback
           (shellState [trackA] (Some trackA) all
              (Some (ended_audio "blob:a" 180)))
           trackA trackA eq_refl eq_refl eq_refl).
Defined.

Lemma filter_filter_same {A} (f : A -> bool) (l : list A) :
  filter f (filter f l) = filter f l.
Proof.
  induction l as [|x l IH]; simpl; [reflexivity|].
  destruct (f x) eqn:E; simpl; [rewrite E; now f_equal | exact IH].
Qed.

Lemma filter_all_true {A} (f : A -> bool) (l : list A) :
  (forall x, In x l -> f x = true) -> filter f l = l.
Proof.
  induction l as [|x l IH]; intro H; simpl; [reflexivity|].
  rewrite (H x (or_introl eq_refl)). f_equal. apply IH.
  intros y Hy. apply H. now right.
Qed.

Lemma NoDup_map_filter {A B} (g : A -> B) (f : A -> bool) (l : list A) :
  NoDup (map g l) -> NoDup (map g (filter f l)).
Proof.
  induction l as [|x l IH]; simpl; intro H; [constructor|].
  inversion H as [|? ? Hnotin Hnd]; subst.
  destruct (f x); simpl; [|now apply IH].
  constructor; [|now apply IH].
  intro Hin. apply Hnotin. apply in_map_iff in Hin as (y & Hy & Hyin).
  apply in_map_iff. exists y. split; [assumption|].
  now apply filter_In in Hyin.
Qed.

(** X16.  [removeTrack] removes exactly the tracks that carry the given
    identifier and keeps the others (and the absence of duplicate
    identifiers).  When the current track carries the identifier, the
    current track becomes null and [isPlaying] false, while the audio
    element is left as it is; otherwise current track and [isPlaying] are
    kept.  Removing twice is the same as removing once, and removing an
    identifier that no track and not the current track carries changes
    nothing. *)
Theorem removeTrack_removes_exactly (trackId : JsId) (s : State) :
  (forall t, In t (tracks (removeTrack trackId s))
             <-> In t (tracks s) /\ id t <> trackId) /\
  (NoDup (map id (tracks s)) ->
   NoDup (map id (tracks (removeTrack trackId s)))) /\
  (optional_id (currentTrack s) = trackId ->
   currentTrack (removeTrack trackId s) = None /\
   isPlaying (removeTrack trackId s) = false) /\
  (optional_id (currentTrack s) <> trackId ->
   currentTrack (removeTrack trackId s) = currentTrack s /\
   isPlaying (removeTrack trackId s) = isPlaying s) /\
  audioRef (removeTrack trackId s) = audioRef s /\
  removeTrack trackId (removeTrack trackId s) = removeTrack trackId s /\
  ((forall t, In t (tracks s) -> id t <> trackId) ->
   optional_id (currentTrack s) <> trackId ->
   removeTrack trackId s = s).
Proof.
  assert (forall a b, id_strict_eq a b = false <-> a <> b) as Hneq.
  { intros a b. split; intro H.
    - intro E. apply id_strict_eq_true_iff in E. congruence.
    - destruct (id_strict_eq a b) eqn:E; [|reflexivity].
      apply id_strict_eq_true_iff in E. contradiction. }
  unfold removeTrack.
  split; [|split; [|split; [|split; [|split; [|split]]]]].
  - intro t.
    destruct (id_strict_eq (optional_id (currentTrack s)) trackId); simpl;
      rewrite filter_In, negb_true_iff, Hneq; reflexivity.
  - intro Hnd.
    destruct (id_strict_eq (optional_id (currentTrack s)) trackId); simpl;
      now apply NoDup_map_filter.
  - intro E. apply id_strict_eq_true_iff in E. rewrite E. now split.
  - intro E. apply Hneq in E. rewrite E. now split.
  - now destruct (id_strict_eq (optional_id (currentTrack s)) trackId).
  - destruct (id_strict_eq (optional_id (currentTrack s)) trackId) eqn:E;
      simpl.
    + rewrite filter_filter_same. now destruct trackId.
    + rewrite E. unfold setTracks. simpl. now rewrite filter_filter_same.
  - intros Habs Hcur. apply Hneq in Hcur. rewrite Hcur.
    unfold setTracks. rewrite filter_all_true.
    + now destruct s.
    + intros x Hx. apply negb_true_iff, Hneq. now apply Habs.
Qed.

Lemma removeTrack_removes_exactly_witness :
  currentTrack
    (removeTrack (IdNum 2)
       (shellState playlistABC (Some trackB) none
          (Some (playing_audio "blob:b" 10)))) = None /\
  isPlaying
    (removeTrack (IdNum 2)
       (shellState playlistABC (Some trackB) none
          (Some (playing_audio "blob:b" 10)))) = false.
Proof.
  apply (proj1 (proj2 (proj2 (removeTrack_removes_exactly (IdNum 2)
           (shellState playlistABC (Some trackB) none
              (Some (playing_audio "blob:b" 10))))))).
  reflexivity.
Defined.


(** X17.  The shell keeps this invariant: the current track, when there is
    one, carries the identifier of a track in the list.  It is preserved by
    [togglePlayPause], by [playTrack] on a track of the list, by
    [skipTrack] in either direction, by the [onEnded] handler and by
    [removeTrack]; [skipTrack] and [onEnded] always return normally. *)
Theorem shell_keeps_current_track_in_list (s : State) :
  current_in_tracks s ->
  current_in_tracks (togglePlayPause s) /\
  (forall t, In t (tracks s) ->
             exists s', playTrack (Some t) s = Ok s' /\ current_in_tracks s') /\
  (forall direction,
      exists s', skipTrack direction s = Ok s' /\ current_in_tracks s') /\
  (exists s', onEnded s = Ok s' /\ current_in_tracks s') /\
  (forall trackId, current_in_tracks (removeTrack trackId s)).
Proof.
  intro Inv.
  assert (current_in_tracks (togglePlayPause s)) as Htoggle.
  { unfold togglePlayPause.
    destruct (audioRef s); [|assumption].
    destruct (currentTrack s) eqn:Hc; [|assumption].
    unfold current_in_tracks in *. rewrite Hc in Inv.
    destruct (isPlaying s); simpl; now rewrite Hc. }
  assert (forall t, In t (tracks s) ->
            exists s', playTrack (Some t) s = Ok s' /\ current_in_tracks s')
    as Hplay.
  { intros t Hin. unfold playTrack.
    destruct (id_strict_eq (optional_id (currentTrack s)) (id t)).
    - eexists. split; [reflexivity | assumption].
    - eexists. split; [reflexivity|].
      unfold current_in_tracks. simpl. exists t. now split. }
  assert (forall direction,
            exists s', skipTrack direction s = Ok s' /\ current_in_tracks s')
    as Hskip.
  { intro direction.
    destruct (skipTrack_plays_a_track direction s)
      as [[_ E] | (i & t & _ & _ & Hin & E)]; rewrite E.
    - exists s. now split.
    - now apply Hplay. }
  split; [assumption|]. split; [assumption|]. split; [assumption|].
  split.
  - unfold onEnded. destruct (RepeatMode_eqb (repeatMode s) one).
    + eexists. split; [reflexivity|]. exact Inv.
    + destruct (_ || _); [apply Hskip|].
      eexists. split; [reflexivity|]. exact Inv.
  - intro trackId. unfold removeTrack, current_in_tracks in *.
    destruct (id_strict_eq (optional_id (currentTrack s)) trackId) eqn:E;
      simpl; [exact I|].
    destruct (currentTrack s) as [c|]; [|exact I].
    destruct Inv as (t & Hin & Hid). exists t. split; [|assumption].
    apply filter_In. split; [assumption|].
    simpl in E. now rewrite Hid, E.
Qed.

Lemma shell_keeps_current_track_in_list_witness :
  current_in_tracks
    (removeTrack (IdNum 1) (shellState playlistABC (Some trackB) none None)).
Proof.
  apply (proj2 (proj2 (proj2 (proj2 (shell_keeps_current_track_in_list
           (shellState playlistABC (Some trackB) none None)
           (ex_intro _ trackB (conj (or_intror (or_introl eq_refl))
                                     eq_refl))))))).
Defined.

(** X18.  [playTrack] on a track other than the current one makes it the
    current track, resets the elapsed time and loads its source into the
    element, which is then paused at position 0; [isPlaying] keeps its
    value, so selecting another track never starts playback by itself.
    On the current track [playTrack] toggles play/pause, and on
    [undefined] it throws a [TypeError] without changing anything. *)
Theorem playTrack_switches_without_starting (s : State) :
  (forall t,
      id t <> optional_id (currentTrack s) ->
      exists s',
        playTrack (Some t) s = Ok s' /\
        currentTrack s' = Some t /\ currentTime s' = 0%Q /\
        isPlaying s' = isPlaying s /\ tracks s' = tracks s /\
        (forall a, audioRef s = Some a ->
                   exists a', audioRef s' = Some a' /\
                              a_src a' = url t /\ a_paused a' = true /\
                              a_currentTime a' = 0%Q /\
                              a_volume a' = a_volume a)) /\
  (forall t,
      id t = optional_id (currentTrack s) ->
      playTrack (Some t) s = Ok (togglePlayPause s)) /\
  playTrack None s = Throw TypeError s.
Proof.
  split; [|split; [|reflexivity]].
  - intros t Hne. exists (switched_to t s).
    split.
    + unfold playTrack.
      destruct (id_strict_eq (optional_id (currentTrack s)) (id t)) eqn:E;
        [|reflexivity].
      apply id_strict_eq_true_iff in E. congruence.
    + simpl. repeat split.
      intros a Ha. rewrite Ha. simpl. eexists. repeat split.
  - intros t E. unfold playTrack. now rewrite E, id_strict_eq_refl.
Qed.

Lemma playTrack_switches_without_starting_witness :
  exists s',
    playTrack (Some trackA)
      (shellState playlistABC (Some trackB) none
         (Some (playing_audio "blob:b" 10))) = Ok s' /\
    currentTrack s' = Some trackA /\ currentTime s' = 0%Q /\
    isPlaying s' = true /\ tracks s' = playlistABC /\
    (forall a, Some (playing_audio "blob:b" 10) = Some a ->
               exists a', audioRef s' = Some a' /\
                          a_src a' = url trackA /\ a_paused a' = true /\
                          a_currentTime a' = 0%Q /\
                          a_volume a' = a_volume a).
Proof.
  apply (proj1 (playTrack_switches_without_starting
                  (shellState playlistABC (Some trackB) none
                     (Some (playing_audio "blob:b" 10))))
           trackA).
  discriminate.
Defined.

End ShellTraversal.

(* ------------------------------------------------------------------ *)
(** ** The useAudioContext hook *)

Section HookProperties.
Import AudioUtils AudioContextHook.

Lemma createAudioContext_without_element (page : Page) :
  createAudioContext page None = None.
Proof. unfold createAudioContext. now destruct (constructor_available page). Qed.

Lemma initializeContext_without_graph (page : Page) (h : Hook) :
  without_graph h ->
  without_graph (fst (initializeContext page h)) /\
  snd (initializeContext page h) = None /\
  error (fst (initializeContext page h))
  = Some "Failed to create audio context"%string.
Proof.
  intros (Hc & Ha & Hg & Hs & Hf & Hr).
  unfold initializeContext, open_context. simpl. rewrite Hc.
  rewrite createAudioContext_without_element. simpl.
  repeat split; assumption.
Qed.

Lemma perform_keeps_without_graph (page : Page) (c : Call) (h : Hook) :
  without_graph h -> without_graph (perform page c h).
Proof.
  intro Inv. pose proof Inv as (Hc & Ha & Hg & Hs & Hf & Hr).
  destruct c as [|el| | |v|ok|ok|]; simpl.
  - now apply initializeContext_without_graph.
  - unfold connectAudioElement. destruct el as [el|]; [|exact Inv].
    unfold open_context. rewrite Hc.
    destruct (initializeContext_without_graph page h Inv)
      as ((Hc' & Ha' & Hg' & Hs' & Hf' & Hr') & Hret & _).
    destruct (initializeContext page h) as [h1 ctx]. simpl in *.
    subst ctx. simpl. repeat split; assumption.
  - unfold startAnalysis. now rewrite Ha.
  - unfold stopAnalysis. simpl. repeat split; assumption.
  - unfold hook_setVolume. rewrite Hg. simpl. repeat split; assumption.
  - unfold resumeContext. now rewrite Hc.
  - unfold suspendContext. now rewrite Hc.
  - unfold closeContext. simpl. repeat split; reflexivity.
Qed.

Lemma perform_all_keeps_without_graph (page : Page) (calls : list Call)
  (h : Hook) :
  without_graph h -> without_graph (perform_all page calls h).
Proof.
  unfold perform_all. revert h.
  induction calls as [|c calls IH]; intros h Inv; simpl; [assumption|].
  apply IH. now apply perform_keeps_without_graph.
Qed.

(** X19.  The hook never gets an audio graph.  [initializeContext] calls
    [createAudioContext()] without a media element, so after any sequence
    of calls to the hook's functions, starting from the hook as it is
    created, there is no context, analyser, gain node or source and the
    frequency data is empty.  In every such state [initializeContext]
    returns null and records "Failed to create audio context",
    [connectAudioElement] returns null, [setVolume] changes nothing,
    [getVolume] answers 1 and the band summary is all zeros. *)
Theorem hook_never_builds_a_graph (page : Page) (calls : list Call) :
  without_graph (perform_all page calls initial_hook) /\
  snd (initializeContext page (perform_all page calls initial_hook)) = None /\
  error (fst (initializeContext page (perform_all page calls initial_hook)))
  = Some "Failed to create audio context"%string /\
  (forall el,
      snd (connectAudioElement page el (perform_all page calls initial_hook))
      = false) /\
  (forall v,
      hook_setVolume v (perform_all page calls initial_hook)
      = Ok (perform_all page calls initial_hook)) /\
  getVolume (perform_all page calls initial_hook) = 1%Q /\
  getFrequencyBins (frequencyData (perform_all page calls initial_hook))
  = {| bass := Fin 0; mid := Fin 0; treble := Fin 0 |}.
Proof.
  assert (without_graph initial_hook) as H0 by (repeat split).
  pose proof (perform_all_keeps_without_graph page calls initial_hook H0)
    as Inv.
  set (h := perform_all page calls initial_hook) in *.
  pose proof Inv as (Hc & Ha & Hg & Hs & Hf & Hr).
  destruct (initializeContext_without_graph page h Inv) as (_ & Hret & Herr).
  split; [assumption|]. split; [assumption|]. split; [assumption|].
  split; [|split; [|split]].
  - intros [el|]; [|reflexivity].
    unfold connectAudioElement, open_context. rewrite Hc.
    destruct (initializeContext page h) as [h1 ctx]. simpl in Hret.
    now subst ctx.
  - intro v. unfold hook_setVolume. rewrite Hg. simpl.
    f_equal. destruct h. simpl in *. now subst.
  - unfold getVolume. now rewrite Hg.
  - now rewrite Hf.
Qed.

Example hook_after_some_calls :
  error (perform_all (mkPage true suspended (fun _ => Byte.xff)
                        (fun _ => true) "TypeError")
           [CallInitialize; CallConnect (Some (playing_audio "blob:a" 0));
            CallStart; CallSetVolume (Fin (1 # 2))]
           initial_hook)
  = Some "Audio context not ready"%string.
Proof. reflexivity. Qed.


Lemma bins_total_app (l1 l2 : Uint8Array) :
  bins_total (l1 ++ l2) = bins_total l1 + bins_total l2.
Proof.
  induction l1 as [|b l1 IH]; [reflexivity|].
  change (bins_total ((b :: l1) ++ l2))
    with (byte_value b + bins_total (l1 ++ l2)).
  change (bins_total (b :: l1)) with (byte_value b + bins_total l1).
  rewrite IH. lia.
Qed.

Lemma fold_left_bins (l : Uint8Array) (acc : Z) :
  fold_left (fun acc val => acc + byte_value val) l acc = acc + bins_total l.
Proof.
  revert acc. induction l as [|b l IH]; intro acc; simpl; [lia|].
  rewrite IH. change (bins_total (b :: l)) with (byte_value b + bins_total l).
  lia.
Qed.

(** The three band sums of a sample of at least ten bins add up to the sum
    of all bins. *)
Lemma getFrequencyBins_totals (data : Uint8Array) :
  10 <= array_length data ->
  exists s1 s2 s3 : Z,
    s1 + s2 + s3 = bins_total data /\
    getFrequencyBins data =
    {| bass := Fin (inject_Z s1 / inject_Z (array_length data / 10) / 255);
       mid := Fin (inject_Z s2
                   / inject_Z (array_length data * 4 / 10
                               - array_length data / 10) / 255);
       treble := Fin (inject_Z s3
                      / inject_Z (array_length data
                                  - array_length data * 4 / 10) / 255) |}.
Proof.
  intro Hn. set (n := array_length data) in *.
  set (b := n / 10). set (m := n * 4 / 10).
  assert (1 <= b /\ b < m /\ m < n) as (Hb & Hbm & Hmn)
    by (unfold b, m; Z.div_mod_to_equations; lia).
  assert (List.length data = Z.to_nat n) as Hdata
    by (unfold n, array_length; lia).
  exists (sum_bins data 0 b 0), (sum_bins data b m 0), (sum_bins data m n 0).
  split.
  - rewrite (sum_bins_run data 0 b), (sum_bins_run data b m),
      (sum_bins_run data m n) by (fold n; lia).
    rewrite Z.sub_0_r. change (Z.to_nat 0) with 0%nat. rewrite skipn_O.
    rewrite <- (firstn_skipn (Z.to_nat b) data) at 4.
    rewrite <- (firstn_skipn (Z.to_nat (m - b)) (skipn (Z.to_nat b) data))
      at 2.
    rewrite !bins_total_app, skipn_skipn.
    replace (Z.to_nat (m - b) + Z.to_nat b)%nat with (Z.to_nat m) by lia.
    rewrite (firstn_all2 (n := Z.to_nat (n - m)))
      by (rewrite length_skipn; lia).
    lia.
  - unfold getFrequencyBins. fold n.
    replace (n =? 0) with false by (symmetry; apply Z.eqb_neq; lia).
    rewrite floor_tenths, floor_four_tenths. fold b. fold m.
    now rewrite !js_mean_finite by lia.
Qed.

(** X21.  [getAverageFrequency] answers 0 for an empty sample and otherwise
    the arithmetic mean of all bins divided by 255, a number between 0
    and 1.  For a sample of at least ten bins it is the mean of the three
    bands of [getFrequencyBins] weighted by the number of bins in each
    band. *)
Theorem getAverageFrequency_is_weighted_band_mean (h : Hook) :
  (frequencyData h = [] -> getAverageFrequency h = Fin 0) /\
  (frequencyData h <> [] ->
   getAverageFrequency h = Fin (normalized_mean (frequencyData h)) /\
   in_unit_interval (normalized_mean (frequencyData h))) /\
  (10 <= array_length (frequencyData h) ->
   exists bs md tr : Q,
     getFrequencyBins (frequencyData h)
     = {| bass := Fin bs; mid := Fin md; treble := Fin tr |} /\
     (normalized_mean (frequencyData h)
      * inject_Z (array_length (frequencyData h))
      == bs * inject_Z (array_length (frequencyData h) / 10)
         + md * inject_Z (array_length (frequencyData h) * 4 / 10
                          - array_length (frequencyData h) / 10)
         + tr * inject_Z (array_length (frequencyData h)
                          - array_length (frequencyData h) * 4 / 10))%Q).
Proof.
  split; [|split].
  - intro E. unfold getAverageFrequency. now rewrite E.
  - intro Hne.
    assert (array_length (frequencyData h) <> 0) as Hn
      by (intro E; now apply array_length_zero in E).
    split; [|now apply normalized_mean_in_unit_interval].
    unfold getAverageFrequency.
    apply Z.eqb_neq in Hn as Hn'. rewrite Hn'.
    rewrite fold_left_bins, Z.add_0_l. now rewrite js_mean_finite.
  - intro Hn. set (data := frequencyData h) in *.
    destruct (getFrequencyBins_totals data Hn) as (s1 & s2 & s3 & Hsum & Hb).
    set (n := array_length data) in *.
    assert (1 <= n / 10 /\ n / 10 < n * 4 / 10 /\ n * 4 / 10 < n)
      as (H1 & H2 & H3) by (Z.div_mod_to_equations; lia).
    eexists. eexists. eexists. split; [exact Hb|].
    unfold normalized_mean. fold n. rewrite <- Hsum.
    rewrite !inject_Z_plus.
    assert (forall z : Z, z <> 0 -> ~ (inject_Z z == 0)%Q) as Hnz.
    { intros z Hz E. apply Hz. unfold Qeq in E. simpl in E. lia. }
    field. repeat split; apply Hnz; lia.
Qed.

Lemma getAverageFrequency_is_weighted_band_mean_witness :
  exists bs md tr : Q,
    getFrequencyBins sample16
    = {| bass := Fin bs; mid := Fin md; treble := Fin tr |} /\
    (normalized_mean sample16 * inject_Z (array_length sample16)
     == bs * inject_Z (array_length sample16 / 10)
        + md * inject_Z (array_length sample16 * 4 / 10
                         - array_length sample16 / 10)
        + tr * inject_Z (array_length sample16
                         - array_length sample16 * 4 / 10))%Q.
Proof.
  apply (proj2 (proj2 (getAverageFrequency_is_weighted_band_mean
                         (setFrequencyData sample16 initial_hook)))).
  vm_compute. discriminate.
Defined.

End HookProperties.

(* ------------------------------------------------------------------ *)
(** ** audioUtils.js: the track store *)

Section TrackStoreProperties.
Import TrackStore.

Variable C : Codec.
Hypothesis codec_faithful : faithful C.

Lemma getTracks_store (st : LocalStorage C) (j : Json) :
  getTracks C (store C st TRACKS (stringify C j)) = j.
Proof.
  unfold getTracks, getItem, store. rewrite String.eqb_refl.
  now rewrite codec_faithful.
Qed.

Lemma getItem_store_other (st : LocalStorage C) (key k : string)
  (text : Text C) :
  k <> key -> getItem C (store C st key text) k = getItem C st k.
Proof.
  intro H. unfold getItem, store.
  destruct (String.eqb k key) eqn:E; [|reflexivity].
  apply String.eqb_eq in E. contradiction.
Qed.

Lemma getPlaybackState_store_tracks (st : LocalStorage C) (text : Text C) :
  getPlaybackState C (store C st TRACKS text) = getPlaybackState C st.
Proof.
  unfold getPlaybackState. now rewrite getItem_store_other by discriminate.
Qed.

(** X22.  [saveTracks] appends.  When the stored value can be spread into
    [existing] (it always can when the key is missing or its text does not
    parse: then [existing] is empty) and the quota accepts the new text,
    [saveTracks] returns true and [getTracks] afterwards returns the
    existing tracks followed by the new ones, in order; every other key is
    untouched.  When the quota refuses the text, [saveTracks] returns
    false and the storage is unchanged. *)
Theorem saveTracks_appends_to_stored_tracks
  (st : LocalStorage C) (tracks existing : list Json) :
  spread (getTracks C st) = Some existing ->
  (accepts C (stringify C (JArr (existing ++ tracks))) = true ->
   exists st',
     saveTracks C tracks st = (st', true) /\
     getTracks C st' = JArr (existing ++ tracks) /\
     (forall k, k <> TRACKS -> getItem C st' k = getItem C st k) /\
     getPlaybackState C st' = getPlaybackState C st) /\
  (accepts C (stringify C (JArr (existing ++ tracks))) = false ->
   saveTracks C tracks st = (st, false)) /\
  (getItem C st TRACKS = None \/
   (exists text, getItem C st TRACKS = Some text /\ parse C text = None) ->
   existing = []).
Proof.
  intro Hs. split; [|split].
  - intro Ha.
    exists (store C st TRACKS (stringify C (JArr (existing ++ tracks)))).
    split.
    + unfold saveTracks, setItem. now rewrite Hs, Ha.
    + split; [apply getTracks_store|]. split.
      * intros k Hk. now apply getItem_store_other.
      * apply getPlaybackState_store_tracks.
  - intro Ha. unfold saveTracks, setItem. now rewrite Hs, Ha.
  - intro H. unfold getTracks in Hs.
    destruct H as [H | (text & H & Hp)]; rewrite H in Hs;
      [|rewrite Hp in Hs]; simpl in Hs; congruence.
Qed.

Lemma without_id_spec (trackId : option Json) (l kept : list Json) :
  without_id trackId l = Some kept ->
  forall t, In t kept <-> In t l /\ ~ has_id trackId t.
Proof.
  revert kept. induction l as [|x l IH]; intros kept H t; simpl in H.
  - injection H as <-. simpl. tauto.
  - destruct (get_id x) as [i|] eqn:Hx; [|discriminate].
    destruct (without_id trackId l) as [k|]; [|discriminate].
    injection H as <-. specialize (IH k eq_refl t).
    destruct (json_strict_eq i trackId) eqn:E.
    + rewrite IH. simpl. split; [tauto|].
      intros [[<- | Hin] Hn]; [|tauto].
      exfalso. apply Hn. exists i. now split.
    + simpl. rewrite IH. split.
      * intros [<- | [Hin Hn]]; [|tauto].
        split; [now left|]. intros (i' & Hi' & Ei'). congruence.
      * tauto.
Qed.

Lemma without_id_filter (trackId : option Json) (l kept : list Json) :
  without_id trackId l = Some kept ->
  kept = filter (fun t => negb (id_matches trackId t)) l.
Proof.
  revert kept. induction l as [|x l IH]; intros kept H; simpl in H.
  - now injection H as <-.
  - destruct (get_id x) as [i|] eqn:Hx; [|discriminate].
    destruct (without_id trackId l) as [k|]; [|discriminate].
    injection H as <-. specialize (IH k eq_refl). simpl.
    unfold id_matches at 1. rewrite Hx.
    destruct (json_strict_eq i trackId); simpl; now f_equal.
Qed.

Lemma without_id_again (trackId : option Json) (l kept : list Json) :
  without_id trackId l = Some kept -> without_id trackId kept = Some kept.
Proof.
  revert kept. induction l as [|x l IH]; intros kept H; simpl in H.
  - now injection H as <-.
  - destruct (get_id x) as [i|] eqn:Hx; [|discriminate].
    destruct (without_id trackId l) as [k|]; [|discriminate].
    injection H as <-. specialize (IH k eq_refl).
    destruct (json_strict_eq i trackId) eqn:E; [assumption|].
    simpl. now rewrite Hx, IH, E.
Qed.

Lemma without_id_defined (trackId : option Json) (l : list Json) :
  (forall t, In t l -> t <> JNull) ->
  exists kept, without_id trackId l = Some kept.
Proof.
  induction l as [|x l IH]; intro H; simpl.
  - now exists [].
  - destruct IH as [k Hk]; [intros t Ht; apply H; now right|].
    rewrite Hk.
    destruct x; try (eexists; reflexivity).
    exfalso. now apply (H JNull (or_introl eq_refl)).
Qed.

(** X23.  [deleteTrack] on a stored array without [null] entries removes
    exactly the tracks whose [id] equals the given identifier and keeps the
    others in order: when the quota accepts the text it returns true (also
    when no track matched), and [getTracks] afterwards returns the kept
    tracks; deleting the same identifier again leaves them as they are.
    The playback state is untouched.  When the quota refuses the text,
    [deleteTrack] returns false and the storage is unchanged. *)
Theorem deleteTrack_removes_matching_tracks
  (st : LocalStorage C) (trackId : option Json) (l : list Json) :
  getTracks C st = JArr l ->
  (forall t, In t l -> t <> JNull) ->
  exists kept,
    kept = filter (fun t => negb (id_matches trackId t)) l /\
    (forall t, In t kept <-> In t l /\ ~ has_id trackId t) /\
    (accepts C (stringify C (JArr kept)) = true ->
     exists st',
       deleteTrack C trackId st = (st', true) /\
       getTracks C st' = JArr kept /\
       getTracks C (fst (deleteTrack C trackId st')) = JArr kept /\
       getPlaybackState C st' = getPlaybackState C st) /\
    (accepts C (stringify C (JArr kept)) = false ->
     deleteTrack C trackId st = (st, false)).
Proof.
  intros Hl Hnn.
  destruct (without_id_defined trackId l Hnn) as [kept Hk].
  exists kept. split; [now apply without_id_filter|].
  split; [now apply without_id_spec|]. split.
  - intro Ha.
    exists (store C st TRACKS (stringify C (JArr kept))).
    split; [unfold deleteTrack, setItem; now rewrite Hl, Hk, Ha|].
    split; [apply getTracks_store|]. split.
    + unfold deleteTrack, setItem.
      rewrite getTracks_store, (without_id_again _ _ _ Hk), Ha. simpl.
      apply getTracks_store.
    + apply getPlaybackState_store_tracks.
  - intro Ha. unfold deleteTrack, setItem. now rewrite Hl, Hk, Ha.
Qed.

Lemma lookup_set_field (key k : string) (v : Json)
  (fields : list (string * Json)) :
  lookup k (set_field key v fields)
  = if String.eqb key k then Some v else lookup k fields.
Proof.
  induction fields as [|[k0 v0] rest IH]; simpl.
  - reflexivity.
  - destruct (String.eqb k0 key) eqn:E0; simpl.
    + apply String.eqb_eq in E0. subst k0.
      now destruct (String.eqb key k).
    + rewrite IH. destruct (String.eqb k0 k) eqn:E1; [|reflexivity].
      apply String.eqb_eq in E1. subst k0.
      rewrite String.eqb_sym in E0. now rewrite E0.
Qed.

Lemma lookup_absent (k : string) (fields : list (string * Json)) :
  ~ In k (map fst fields) -> lookup k fields = None.
Proof.
  induction fields as [|[k0 v0] rest IH]; intro H; simpl; [reflexivity|].
  destruct (String.eqb k0 k) eqn:E.
  - apply String.eqb_eq in E. subst k0. exfalso. apply H. now left.
  - apply IH. intro Hin. apply H. now right.
Qed.

(** A property of the merged object comes from the updates when they have
    it, and from the old object otherwise. *)
Lemma lookup_merge_fields (k : string) (a b : list (string * Json)) :
  NoDup (map fst b) ->
  lookup k (merge_fields a b)
  = match lookup k b with
    | Some v => Some v
    | None => lookup k a
    end.
Proof.
  unfold merge_fields. revert a.
  induction b as [|[k1 v1] b IH]; intros a Hnd; simpl; [reflexivity|].
  inversion Hnd as [|? ? Hnotin Hnd']; subst.
  rewrite (IH _ Hnd'), lookup_set_field.
  destruct (String.eqb k1 k) eqn:E; [|reflexivity].
  apply String.eqb_eq in E. subst k1.
  now rewrite (lookup_absent k b Hnotin).
Qed.

Lemma find_id_absent (trackId : option Json) (l : list Json) (i : nat) :
  (forall t, In t l -> t <> JNull /\ ~ has_id trackId t) ->
  find_id trackId l i = Some None.
Proof.
  revert i. induction l as [|x l IH]; intros i H; simpl; [reflexivity|].
  destruct (H x (or_introl eq_refl)) as [Hnn Hno].
  destruct (get_id x) as [v|] eqn:Hx; [|now destruct x].
  destruct (json_strict_eq v trackId) eqn:E.
  - exfalso. apply Hno. exists v. now split.
  - apply IH. intros t Ht. apply H. now right.
Qed.

Lemma find_id_first_match (trackId : option Json) (before after : list Json)
  (x : Json) (i : nat) :
  (forall t, In t before -> t <> JNull /\ ~ has_id trackId t) ->
  id_matches trackId x = true ->
  find_id trackId (before ++ x :: after) i
  = Some (Some (i + List.length before)%nat).
Proof.
  revert i. induction before as [|y before IH]; intros i H Hx; simpl.
  - unfold id_matches in Hx. destruct (get_id x); [|discriminate].
    rewrite Hx. now rewrite Nat.add_0_r.
  - destruct (H y (or_introl eq_refl)) as [Hnn Hno].
    destruct (get_id y) as [v|] eqn:Hy; [|now destruct y].
    destruct (json_strict_eq v trackId) eqn:E.
    + exfalso. apply Hno. exists v. now split.
    + rewrite IH; [do 2 f_equal; lia | | assumption].
      intros t Ht. apply H. now right.
Qed.

Lemma replace_at_middle (before after : list Json) (x v : Json) :
  replace_at (List.length before) v (before ++ x :: after)
  = before ++ v :: after.
Proof. induction before as [|y before IH]; simpl; [reflexivity | now f_equal]. Qed.

(** X24.  [updateTrack] changes the first stored track whose [id] equals
    the given identifier, and only that one: each property named in
    [updates] takes the new value, every other property keeps its value,
    and the tracks before and after are left as they are.  When no stored
    track has the identifier it returns false and writes nothing. *)
Theorem updateTrack_updates_first_match
  (st : LocalStorage C) (trackId : option Json)
  (updates : list (string * Json)) :
  (forall l,
      getTracks C st = JArr l ->
      (forall t, In t l -> t <> JNull /\ ~ has_id trackId t) ->
      updateTrack C trackId updates st = (st, false)) /\
  (forall before after fields,
      getTracks C st = JArr (before ++ JObj fields :: after) ->
      (forall t, In t before -> t <> JNull /\ ~ has_id trackId t) ->
      json_strict_eq (lookup "id" fields) trackId = true ->
      NoDup (map fst updates) ->
      accepts C (stringify C
                   (JArr (before ++ JObj (merge_fields fields updates)
                                 :: after))) = true ->
      exists st' fields',
        updateTrack C trackId updates st = (st', true) /\
        getTracks C st' = JArr (before ++ JObj fields' :: after) /\
        (forall k,
            lookup k fields'
            = match lookup k updates with
              | Some v => Some v
              | None => lookup k fields
              end) /\
        getPlaybackState C st' = getPlaybackState C st).
Proof.
  split.
  - intros l Hl Habs. unfold updateTrack.
    now rewrite Hl, (find_id_absent trackId l 0 Habs).
  - intros before after fields Hl Hb Hid Hnd Ha.
    exists (store C st TRACKS
              (stringify C
                 (JArr (before ++ JObj (merge_fields fields updates)
                               :: after)))),
           (merge_fields fields updates).
    split.
    + unfold updateTrack, setItem. rewrite Hl.
      rewrite (find_id_first_match trackId before after (JObj fields) 0 Hb Hid).
      simpl Nat.add. rewrite nth_middle, replace_at_middle. simpl own_fields.
      now rewrite Ha.
    + split; [apply getTracks_store|]. split.
      * intro k. now apply lookup_merge_fields.
      * apply getPlaybackState_store_tracks.
Qed.

(** X25.  After [clearAllTracks], [getTracks] returns the empty array, and
    a following [saveTracks] stores just the new tracks.  The playback
    state is a key of its own: [savePlaybackState] followed by
    [getPlaybackState] gives back the state that was saved, whatever
    happens to the tracks key in between by [saveTracks] or
    [clearAllTracks], and [getPlaybackState] on a storage that never held
    one is [null]. *)
Theorem clearAllTracks_and_playback_state
  (st : LocalStorage C) (state : Json) (tracks : list Json) :
  (getTracks C (fst (clearAllTracks C st)) = JArr [] /\
   snd (clearAllTracks C st) = true /\
   getPlaybackState C (fst (clearAllTracks C st)) = getPlaybackState C st) /\
  (accepts C (stringify C (JArr tracks)) = true ->
   getTracks C (fst (saveTracks C tracks (fst (clearAllTracks C st))))
   = JArr tracks) /\
  (accepts C (stringify C state) = true ->
   exists st',
     savePlaybackState C state st = (st', true) /\
     getPlaybackState C st' = state /\
     getTracks C st' = getTracks C st /\
     getPlaybackState C (fst (clearAllTracks C st')) = state /\
     getPlaybackState C (fst (saveTracks C tracks st')) = state) /\
  getPlaybackState C (empty_storage C) = JNull.
Proof.
  assert (forall s, getTracks C (removeItem C s TRACKS) = JArr []) as Hclear.
  { intro s. unfold getTracks, getItem, removeItem.
    now rewrite String.eqb_refl. }
  split; [|split; [|split; [|reflexivity]]].
  - split; [apply Hclear|]. split; [reflexivity|].
    unfold clearAllTracks, getPlaybackState, getItem, removeItem. reflexivity.
  - intro Ha.
    change (fst (clearAllTracks C st)) with (removeItem C st TRACKS).
    unfold saveTracks, setItem.
    rewrite Hclear. simpl. rewrite Ha. simpl. apply getTracks_store.
  - intro Ha.
    exists (store C st PLAYBACK_STATE (stringify C state)).
    assert (forall s, getPlaybackState C
                        (store C s PLAYBACK_STATE (stringify C state)) = state)
      as Hget.
    { intro s. unfold getPlaybackState, getItem, store.
      rewrite String.eqb_refl. now rewrite codec_faithful. }
    split; [unfold savePlaybackState, setItem; now rewrite Ha|].
    split; [apply Hget|]. split; [|split].
    + unfold getTracks. now rewrite getItem_store_other by discriminate.
    + unfold clearAllTracks, getPlaybackState, getItem, removeItem, store.
      simpl. now rewrite codec_faithful.
    + unfold saveTracks, setItem.
      destruct (spread _) as [l|]; [|apply Hget].
      destruct (accepts C (stringify C (JArr (l ++ tracks)))); [|apply Hget].
      simpl. rewrite getPlaybackState_store_tracks. apply Hget.
Qed.

End TrackStoreProperties.

Lemma example_codec_faithful (room : nat) :
  TrackStore.faithful (TrackStore.example_codec room).
Proof. intro j. reflexivity. Qed.

Lemma saveTracks_appends_to_stored_tracks_witness :
  exists st',
    TrackStore.saveTracks (TrackStore.example_codec 3)
      [TrackStore.track_json "c" "C"] TrackStore.example_storage
    = (st', true) /\
    TrackStore.getTracks _ st'
    = TrackStore.JArr (TrackStore.example_tracks
                         ++ [TrackStore.track_json "c" "C"]) /\
    (forall k, k <> TrackStore.TRACKS ->
               TrackStore.getItem _ st' k
               = TrackStore.getItem _ TrackStore.example_storage k) /\
    TrackStore.getPlaybackState _ st'
    = TrackStore.getPlaybackState _ TrackStore.example_storage.
Proof.
  apply (proj1 (saveTracks_appends_to_stored_tracks
                  (TrackStore.example_codec 3) (example_codec_faithful 3)
                  TrackStore.example_storage [TrackStore.track_json "c" "C"]
                  TrackStore.example_tracks eq_refl)).
  reflexivity.
Defined.

Lemma deleteTrack_removes_matching_tracks_witness :
  exists kept,
    kept = filter (fun t => negb (TrackStore.id_matches
                                    (Some (TrackStore.JStr "a")) t))
             TrackStore.example_tracks /\
    (forall t, In t kept <->
               In t TrackStore.example_tracks /\
               ~ TrackStore.has_id (Some (TrackStore.JStr "a")) t) /\
    (TrackStore.accepts (TrackStore.example_codec 3)
       (TrackStore.stringify (TrackStore.example_codec 3)
          (TrackStore.JArr kept)) = true ->
     exists st',
       TrackStore.deleteTrack (TrackStore.example_codec 3)
         (Some (TrackStore.JStr "a")) TrackStore.example_storage
       = (st', true) /\
       TrackStore.getTracks _ st' = TrackStore.JArr kept /\
       TrackStore.getTracks _
         (fst (TrackStore.deleteTrack (TrackStore.example_codec 3)
                 (Some (TrackStore.JStr "a")) st'))
       = TrackStore.JArr kept /\
       TrackStore.getPlaybackState _ st'
       = TrackStore.getPlaybackState _ TrackStore.example_storage) /\
    (TrackStore.accepts (TrackStore.example_codec 3)
       (TrackStore.stringify (TrackStore.example_codec 3)
          (TrackStore.JArr kept)) = false ->
     TrackStore.deleteTrack (TrackStore.example_codec 3)
       (Some (TrackStore.JStr "a")) TrackStore.example_storage
     = (TrackStore.example_storage, false)).
Proof.
  apply (deleteTrack_removes_matching_tracks
           (TrackStore.example_codec 3) (example_codec_faithful 3)
           TrackStore.example_storage (Some (TrackStore.JStr "a"))
           TrackStore.example_tracks eq_refl).
  intros t Ht. simpl in Ht.
  destruct Ht as [<- | [<- | []]]; discriminate.
Defined.

Lemma updateTrack_updates_first_match_witness :
  exists st' fields',
    TrackStore.updateTrack (TrackStore.example_codec 3)
      (Some (TrackStore.JStr "b"))
      [("favorite"%string, TrackStore.JBool true)]
      TrackStore.example_storage
    = (st', true) /\
    TrackStore.getTracks _ st'
    = TrackStore.JArr ([TrackStore.track_json "a" "A"]
                         ++ TrackStore.JObj fields' :: []) /\
    (forall k,
        TrackStore.lookup k fields'
        = match TrackStore.lookup k
                  [("favorite"%string, TrackStore.JBool true)] with
          | Some v => Some v
          | None =>
              TrackStore.lookup k
                [("id"%string, TrackStore.JStr "b");
                 ("title"%string, TrackStore.JStr "B")]
          end) /\
    TrackStore.getPlaybackState _ st'
    = TrackStore.getPlaybackState _ TrackStore.example_storage.
Proof.
  apply (proj2 (updateTrack_updates_first_match
                  (TrackStore.example_codec 3) (example_codec_faithful 3)
                  TrackStore.example_storage (Some (TrackStore.JStr "b"))
                  [("favorite"%string, TrackStore.JBool true)])
           [TrackStore.track_json "a" "A"] []
           [("id"%string, TrackStore.JStr "b");
            ("title"%string, TrackStore.JStr "B")]
           eq_refl).
  - intros t Ht. simpl in Ht. destruct Ht as [<- | []].
    split; [discriminate|].
    intros (i & Hi & Ei). injection Hi as <-. discriminate.
  - reflexivity.
  - repeat constructor. simpl. tauto.
  - reflexivity.
Defined.

Lemma clearAllTracks_and_playback_state_witness :
  exists st',
    TrackStore.savePlaybackState (TrackStore.example_codec 3)
      (TrackStore.JObj [("volume"%string, TrackStore.JNum (1 # 2))])
      TrackStore.example_storage
    = (st', true) /\
    TrackStore.getPlaybackState _ st'
    = TrackStore.JObj [("volume"%string, TrackStore.JNum (1 # 2))] /\
    TrackStore.getTracks _ st'
    = TrackStore.getTracks _ TrackStore.example_storage /\
    TrackStore.getPlaybackState _
      (fst (TrackStore.clearAllTracks (TrackStore.example_codec 3) st'))
    = TrackStore.JObj [("volume"%string, TrackStore.JNum (1 # 2))] /\
    TrackStore.getPlaybackState _
      (fst (TrackStore.saveTracks (TrackStore.example_codec 3)
              [TrackStore.track_json "c" "C"] st'))
    = TrackStore.JObj [("volume"%string, TrackStore.JNum (1 # 2))].
Proof.
  apply (proj1 (proj2 (proj2 (clearAllTracks_and_playback_state
                  (TrackStore.example_codec 3) (example_codec_faithful 3)
                  TrackStore.example_storage
                  (TrackStore.JObj
                     [("volume"%string, TrackStore.JNum (1 # 2))])
                  [TrackStore.track_json "c" "C"])))).
  reflexivity.
Defined.

Example saveTracks_over_corrupt_text :
  TrackStore.getTracks _ TrackStore.corrupt_storage = TrackStore.JArr [] /\
  TrackStore.getTracks _
    (fst (TrackStore.saveTracks (TrackStore.example_codec 3)
            [TrackStore.track_json "c" "C"] TrackStore.corrupt_storage))
  = TrackStore.JArr [TrackStore.track_json "c" "C"].
Proof. split; reflexivity. Qed.

(* ------------------------------------------------------------------ *)
(** ** Fallbacks and buffers *)

(** X26.  When no playlist element carries the identifier of the current
    track (for instance because there is no current track), "next" falls
    back to the first track: [handleNext] with shuffle off and repeat not
    one hands the sink the element at index 0, and the shell's [skipTrack]
    plays the element at index 0 for "next" and the last element for any
    other direction. *)
Theorem next_falls_back_to_first_track :
  (forall p rnd s first,
      AudioPlayer.onTrackChange p = true ->
      AudioPlayer.isShuffled s = false ->
      AudioPlayer.repeatMode s <> AudioPlayer.one ->
      nth_error (AudioPlayer.playlist p) 0 = Some first ->
      (forall x, In x (AudioPlayer.playlist p) ->
                 id x <> optional_id (AudioPlayer.currentTrack p)) ->
      AudioPlayer.handleNext p rnd s
      = Ok (AudioPlayer.call_onTrackChange (Some first) s)) /\
  (forall direction s first lastT,
      nth_error (App.tracks s) 0 = Some first ->
      nth_error (App.tracks s) (List.length (App.tracks s) - 1) = Some lastT ->
      (forall x, In x (App.tracks s) ->
                 id x <> optional_id (App.currentTrack s)) ->
      App.skipTrack direction s
      = App.playTrack
          (Some (if String.eqb direction "next" then first else lastT)) s).
Proof.
  split.
  - intros p rnd s first Hsink Sh M H0 Habs.
    assert (AudioPlayer.playlist p <> []) as Hne
      by (intro E; rewrite E in H0; discriminate).
    pose proof (nothing_to_do_false p Hne Hsink) as G.
    pose proof (currentIndex_absent p Habs) as Hci.
    assert (0 < array_length (AudioPlayer.playlist p)) as Hn.
    { pose proof (array_length_nonneg (AudioPlayer.playlist p)).
      assert (array_length (AudioPlayer.playlist p) <> 0)
        by (intro E; now apply array_length_zero in E).
      lia. }
    rewrite (handleNext_natural_order p rnd s G M Sh) by (right; lia).
    rewrite Hci.
    destruct (-1 <? array_length (AudioPlayer.playlist p) - 1) eqn:E.
    + change (-1 + 1) with (Z.of_nat 0). now rewrite array_get_of_nat, H0.
    + change 0 with (Z.of_nat 0). now rewrite array_get_of_nat, H0.
  - intros direction s first lastT H0 Hlast Habs.
    assert (App.tracks s <> []) as Hne
      by (intro E; rewrite E in H0; discriminate).
    assert (App.currentIndex s = -1) as Hci.
    { unfold App.currentIndex, findIndex. apply findIndex_from_absent.
      intros x Hx. destruct (id_strict_eq _ _) eqn:E; [|reflexivity].
      apply id_strict_eq_true_iff in E. now apply Habs in Hx. }
    assert (0 < array_length (App.tracks s)) as Hn.
    { pose proof (array_length_nonneg (App.tracks s)).
      assert (array_length (App.tracks s) <> 0)
        by (intro E; now apply array_length_zero in E).
      lia. }
    unfold App.skipTrack, App.skipTrack_nextIndex. rewrite Hci.
    replace (array_length (App.tracks s) =? 0) with false
      by (symmetry; apply Z.eqb_neq; lia).
    destruct (String.eqb direction "next").
    + destruct (-1 + 1 >=? array_length (App.tracks s)) eqn:E.
      * change 0 with (Z.of_nat 0). now rewrite array_get_of_nat, H0.
      * change (-1 + 1) with (Z.of_nat 0). now rewrite array_get_of_nat, H0.
    + simpl. rewrite <- (last_index_of_nat _ _ Hlast).
      now rewrite array_get_of_nat, Hlast.
Qed.

Lemma next_falls_back_to_first_track_witness :
  AudioPlayer.handleNext (propsOn playlistABC None) (1 # 2)
    (playerState false AudioPlayer.off None)
  = Ok (AudioPlayer.call_onTrackChange (Some trackA)
          (playerState false AudioPlayer.off None)).
Proof.
  apply (proj1 next_falls_back_to_first_track
           (propsOn playlistABC None) (1 # 2)
           (playerState false AudioPlayer.off None) trackA
           eq_refl eq_refl).
  - discriminate.
  - reflexivity.
  - intros x Hx. simpl in Hx.
    destruct Hx as [<- | [<- | [<- | []]]]; discriminate.
Defined.

Lemma fill_from_new_buffer (a : AudioUtils.AnalyserNode) (k i : nat) :
  (i + k <= AudioUtils.frequencyBinCount a)%nat ->
  AudioUtils.fill_from a i (AudioUtils.new_Uint8Array k)
  = map (AudioUtils.spectrum a) (seq i k).
Proof.
  revert i. induction k as [|k IH]; intros i H; simpl; [reflexivity|].
  replace (Nat.ltb i (AudioUtils.frequencyBinCount a)) with true
    by (symmetry; apply Nat.ltb_lt; lia).
  f_equal. apply IH. lia.
Qed.

Lemma fill_from_beyond_bins (a : AudioUtils.AnalyserNode)
  (arr : AudioUtils.Uint8Array) (i : nat) :
  (AudioUtils.frequencyBinCount a <= i)%nat ->
  AudioUtils.fill_from a i arr = arr.
Proof.
  revert i. induction arr as [|b arr IH]; intros i H; simpl; [reflexivity|].
  replace (Nat.ltb i (AudioUtils.frequencyBinCount a)) with false
    by (symmetry; apply Nat.ltb_ge; lia).
  f_equal. apply IH. lia.
Qed.

Lemma fill_from_app (a : AudioUtils.AnalyserNode)
  (l1 l2 : AudioUtils.Uint8Array) (i : nat) :
  AudioUtils.fill_from a i (l1 ++ l2)
  = AudioUtils.fill_from a i l1
      ++ AudioUtils.fill_from a (i + List.length l1) l2.
Proof.
  revert i. induction l1 as [|b l1 IH]; intro i; simpl.
  - now rewrite Nat.add_0_r.
  - f_equal. rewrite IH. do 2 f_equal. lia.
Qed.

(** X27.  With an analyser, [getFrequencyData] returns the analyser's
    current magnitude for every bin, in bin order: element [i] of the
    buffer is the magnitude of bin [i].  [getByteFrequencyData] on a
    buffer that is longer than the bin count fills the first bins and
    leaves the rest of the buffer as it was. *)
Theorem getFrequencyData_reads_every_bin (a : AudioUtils.AnalyserNode) :
  AudioUtils.getFrequencyData (Some a)
  = map (AudioUtils.spectrum a) (seq 0 (AudioUtils.frequencyBinCount a)) /\
  (forall i,
      (i < AudioUtils.frequencyBinCount a)%nat ->
      nth_error (AudioUtils.getFrequencyData (Some a)) i
      = Some (AudioUtils.spectrum a i)) /\
  (forall head tail,
      List.length head = AudioUtils.frequencyBinCount a ->
      AudioUtils.getByteFrequencyData a (head ++ tail)
      = AudioUtils.getFrequencyData (Some a) ++ tail).
Proof.
  assert (AudioUtils.getFrequencyData (Some a)
          = map (AudioUtils.spectrum a)
              (seq 0 (AudioUtils.frequencyBinCount a))) as E.
  { unfold AudioUtils.getFrequencyData, AudioUtils.getByteFrequencyData.
    now apply fill_from_new_buffer. }
  split; [exact E|]. split.
  - intros i Hi. rewrite E, nth_error_map, nth_error_nth' with (d := 0%nat)
      by (now rewrite length_seq).
    simpl. now rewrite seq_nth.
  - intros head tail Hlen.
    unfold AudioUtils.getByteFrequencyData.
    rewrite fill_from_app, Hlen. simpl Nat.add.
    rewrite (fill_from_beyond_bins a tail) by lia. f_equal.
    rewrite E. clear E.
    assert (forall (l : AudioUtils.Uint8Array) i,
              (i + List.length l <= AudioUtils.frequencyBinCount a)%nat ->
              AudioUtils.fill_from a i l
              = map (AudioUtils.spectrum a) (seq i (List.length l))) as F.
    { induction l as [|b l IH]; intros i H; simpl; [reflexivity|].
      simpl in H.
      replace (Nat.ltb i (AudioUtils.frequencyBinCount a)) with true
        by (symmetry; apply Nat.ltb_lt; lia).
      f_equal. apply IH. lia. }
    rewrite <- Hlen. apply F. lia.
Qed.

Lemma getFrequencyData_reads_every_bin_witness :
  nth_error
    (AudioUtils.getFrequencyData
       (Some (AudioUtils.mkAnalyser 32
                (fun i => if Nat.eqb i 3 then Byte.xff else Byte.x00)))) 3
  = Some Byte.xff.
Proof.
  apply (proj1 (proj2 (getFrequencyData_reads_every_bin
           (AudioUtils.mkAnalyser 32
              (fun i => if Nat.eqb i 3 then Byte.xff else Byte.x00)))) 3%nat).
  vm_compute. lia.
Defined.
